(** * bioconda_utils.lint: the lint executor, embedded and verified

    A shallow embedding of [bioconda_utils/lint/__init__.py]: the severity
    and message model, the check registry, the requirement graph with its
    execution order, skip resolution and the executor [Linter.lint_one] /
    [Linter.lint].

    External collaborators are parameters of the model:
    - the recipe loader ([_recipe.Recipe.from_file], [_recipe.Recipe]) is
      an [Env] record;
    - the checks of [bioconda_utils.lint.checks] are a list of [LintCheck]
      values appended to the ten classes this module defines itself;
    - the text scanned for skip directives (LINT_SKIP or the last commit
      message) is an argument of [load_skips].
    Strings hold text in UTF-8; where Python looks at the characters of a
    [str] (the pattern of [load_skips], [str.strip]) the text is decoded
    into its code points.
    The three [networkx] functions the module calls are transcribed from
    networkx 1.x, the series whose [topological_sort] accepts [reverse=]. *)

From Stdlib Require Import ZArith NArith String Ascii List Permutation Sorted Lia.
From Stdlib Require Import DecimalString DecimalNat.
From stdpp Require Import base gmap sets list strings relations.

Set Warnings "-clear-no-such-hyp".

Local Open Scope Z_scope.
Local Open Scope string_scope.
Local Open Scope list_scope.
Local Open Scope stdpp_scope.

(** ** Outcomes of Python calls *)

(** The exceptions that the modelled code raises or handles. *)
Inductive exn : Type :=
  | NameError (name : string)       (* use of an unbound global name *)
  | TypeError (msg : string)
  | KeyError (key : string)
  | NetworkXUnfeasible
  | CheckError                      (* anything raised inside a check's hooks *)
  | LoaderError.                    (* a non-RecipeError failure of the loader *)

Inductive outcome (A : Type) : Type :=
  | Returns (a : A)
  | Raises (e : exn).
Arguments Returns {A} a.
Arguments Raises {A} e.

(** ** Severity *)

Inductive Severity : Type := INFO | WARNING | ERROR.

(** The [IntEnum] value; comparisons between severities are integer
    comparisons of these values. *)
Definition Severity_value (s : Severity) : Z :=
  match s with
  | INFO => 10
  | WARNING => 20
  | ERROR => 30
  end.

(** ** Recipes (external collaborator) *)

Record Recipe : Type := {
  (* [recipe.path], the default file name of a message *)
  path : string;
  (* [recipe.get_raw_range(section)]; [None] stands for [KeyError] *)
  get_raw_range : string -> option (Z * Z * Z * Z);
  (* [recipe.get('extra/skip-lints', [])] when that value is a list
     ([Some []] when the field is absent), [None] when it is not a list *)
  extra_skip_lints : option (list string)
}.

(** ** Checks *)

(** The arguments of one [self.message(section, fname, line)] call. *)
Record message_call : Type := {
  mc_section : option string;
  mc_fname : option string;
  mc_line : option Z
}.

(** A check class. [hooks] is the combined effect of [check_recipe],
    [check_source] (once per source) and [check_deps] on a recipe: either
    one of them raises, or they return after issuing the listed
    [self.message] calls, in order. *)
Record LintCheck : Type := {
  name : string;                 (* cls.__name__, also str(cls) *)
  severity : Severity;
  requires : list string;        (* str(dep) for dep in cls.requires *)
  doc : string;                  (* inspect.getdoc(cls) *)
  hooks : Recipe -> outcome (list message_call)
}.

(** The [check] field of a message holds the check class when the message
    comes from [make_message] and the node name (a [str]) when it is the
    synthetic message of [lint_one]. *)
Inductive check_ref : Type :=
  | ByClass (cls : LintCheck)
  | ByName (n : string).

Definition check_ref_str (c : check_ref) : string :=
  match c with
  | ByClass cls => name cls
  | ByName n => n
  end.

Record LintMessage : Type := {
  msg_recipe : Recipe;
  msg_check : check_ref;
  msg_severity : Severity;
  msg_title : string;
  msg_body : string;
  msg_start_line : Z;
  msg_end_line : Z;
  msg_fname : string
}.

(** [LintMessage.get_level] *)
Definition get_level (m : LintMessage) : string :=
  if (Severity_value (msg_severity m) <? Severity_value WARNING)%Z then "notice"
  else if (Severity_value (msg_severity m) <? Severity_value ERROR)%Z then "warning"
  else "failure".

(** ** String helpers used by [make_message] *)

(** [s.replace(c + c, c)] for a single character [c]: non-overlapping
    occurrences, left to right. *)
Fixpoint replace_double (c : ascii) (s : string) : string :=
  match s with
  | EmptyString => EmptyString
  | String a tl =>
      match tl with
      | String b rest =>
          if (Ascii.eqb a c && Ascii.eqb b c)%bool
          then String c (replace_double c rest)
          else String a (replace_double c tl)
      | EmptyString => String a EmptyString
      end
  end.

(** [s.partition('\n')], keeping the head and the tail. *)
Fixpoint partition_newline (s : string) : string * string :=
  match s with
  | EmptyString => (EmptyString, EmptyString)
  | String a tl =>
      if Ascii.eqb a "010"%char then (EmptyString, tl)
      else let '(h, t) := partition_newline tl in (String a h, t)
  end.

(** ** Text: the code points of a [str] *)

(** A Python [str] is a sequence of Unicode code points. A string of this
    development is the UTF-8 encoding of the text it stands for: [decode]
    gives the code points, [encode] the bytes. A byte that does not begin
    a well-formed sequence is read as U+FFFD, so that [decode] is total;
    the UTF-8 encoding of a [str] has no such byte. *)
Definition str : Type := list N.

Definition continuation (b : N) : bool := ((0x80 <=? b) && (b <? 0xC0))%N.

(** The code points that text can hold: all but the surrogates. *)
Definition scalar (c : N) : bool :=
  ((c <? 0xD800) || (0xE000 <=? c) && (c <? 0x110000))%N.

Definition replacement_character : N := 0xFFFD%N.

Fixpoint decode (s : string) : str :=
  match s with
  | EmptyString => []
  | String a0 s1 =>
      let b0 := N_of_ascii a0 in
      if (b0 <? 0x80)%N then b0 :: decode s1
      else
        match s1 with
        | String a1 s2 =>
            let b1 := N_of_ascii a1 in
            let c2 := ((b0 - 0xC0) * 64 + (b1 - 0x80))%N in
            if ((0xC0 <=? b0) && (b0 <? 0xE0) && continuation b1 && (0x80 <=? c2))%N
            then c2 :: decode s2
            else
              match s2 with
              | String a2 s3 =>
                  let b2 := N_of_ascii a2 in
                  let c3 := ((b0 - 0xE0) * 4096 + (b1 - 0x80) * 64 + (b2 - 0x80))%N in
                  if ((0xE0 <=? b0) && (b0 <? 0xF0) && continuation b1 && continuation b2
                      && (0x800 <=? c3) && scalar c3)%N
                  then c3 :: decode s3
                  else
                    match s3 with
                    | String a3 s4 =>
                        let b3 := N_of_ascii a3 in
                        let c4 := ((b0 - 0xF0) * 262144 + (b1 - 0x80) * 4096
                                   + (b2 - 0x80) * 64 + (b3 - 0x80))%N in
                        if ((0xF0 <=? b0) && (b0 <? 0xF8) && continuation b1
                            && continuation b2 && continuation b3
                            && (0x10000 <=? c4) && scalar c4)%N
                        then c4 :: decode s4
                        else replacement_character :: decode s1
                    | EmptyString => replacement_character :: decode s1
                    end
              | EmptyString => replacement_character :: decode s1
              end
        | EmptyString => replacement_character :: decode s1
        end
  end.

Definition encode_char (c : N) : string :=
  if (c <? 0x80)%N then String (ascii_of_N c) EmptyString
  else if (c <? 0x800)%N then
    String (ascii_of_N (0xC0 + c / 64))
      (String (ascii_of_N (0x80 + c mod 64)) EmptyString)
  else if (c <? 0x10000)%N then
    String (ascii_of_N (0xE0 + c / 4096))
      (String (ascii_of_N (0x80 + (c / 64) mod 64))
         (String (ascii_of_N (0x80 + c mod 64)) EmptyString))
  else
    String (ascii_of_N (0xF0 + (c / 262144) mod 8))
      (String (ascii_of_N (0x80 + (c / 4096) mod 64))
         (String (ascii_of_N (0x80 + (c / 64) mod 64))
            (String (ascii_of_N (0x80 + c mod 64)) EmptyString))).

Fixpoint encode (s : str) : string :=
  match s with
  | [] => EmptyString
  | c :: tl => encode_char c +:+ encode tl
  end.

(** The code points for which [str.isspace] holds (the white space of
    the Unicode character database); also the class [\s] of a [str]
    pattern. *)
Definition is_space (c : N) : bool :=
  ((9 <=? c) && (c <=? 13) || (28 <=? c) && (c <=? 32) || (c =? 0x85) || (c =? 0xA0)
   || (c =? 0x1680) || (0x2000 <=? c) && (c <=? 0x200A) || (c =? 0x2028)
   || (c =? 0x2029) || (c =? 0x202F) || (c =? 0x205F) || (c =? 0x3000))%N.

Fixpoint lstrip (s : str) : str :=
  match s with
  | [] => []
  | c :: tl => if is_space c then lstrip tl else s
  end.

Fixpoint rstrip (s : str) : str :=
  match s with
  | [] => []
  | c :: tl =>
      match rstrip tl with
      | [] => if is_space c then [] else [c]
      | tl' => c :: tl'
      end
  end.

(** [s.strip()] *)
Definition strip (s : str) : str := rstrip (lstrip s).

(** Python truthiness of an optional string and [x or 0] on an optional
    integer. *)
Definition truthy (s : option string) : option string :=
  match s with
  | Some EmptyString => None
  | other => other
  end.

(** [LintCheck.make_message] (a classmethod: [cls] is the check class). *)
Definition make_message (cls : LintCheck) (recipe : Recipe)
    (section fname : option string) (line : option Z) : LintMessage :=
  let doc := replace_double "`" (replace_double ":" (doc cls)) in
  let '(title, body) := partition_newline doc in
  let '(start_line, end_line) :=
    match truthy section with
    | Some sec =>
        let '(sl, sc, el, ec) :=
          match get_raw_range recipe sec with
          | Some r => r
          | None => (1, 1, 1, 1)
          end in
        let el := if (ec =? 0)%Z then el - 1 else el in
        (sl, el)
    | None => let l := default 0 line in (l, l)
    end in
  let fname := match truthy fname with Some f => f | None => path recipe end in
  {| msg_recipe := recipe;
     msg_check := ByClass cls;
     msg_severity := severity cls;
     msg_title := encode (strip (decode title));
     msg_body := body;
     msg_fname := fname;
     msg_start_line := start_line;
     msg_end_line := end_line |}.

(** [LintCheck.run]: reset the buffer, call the hooks, return the buffer.
    Each [self.message(...)] call appends [make_message(self.recipe, ...)]. *)
Definition run (cls : LintCheck) (recipe : Recipe) : outcome (list LintMessage) :=
  match hooks cls recipe with
  | Raises e => Raises e
  | Returns calls =>
      Returns (map (fun c => make_message cls recipe (mc_section c) (mc_fname c) (mc_line c))
                   calls)
  end.

(** ** The check classes this module defines *)

Definition no_hooks (_ : Recipe) : outcome (list message_call) := Returns [].

Definition builtin (n d : string) : LintCheck :=
  {| name := n; severity := ERROR; requires := []; doc := d; hooks := no_hooks |}.

Definition nl : string := String "010"%char EmptyString.

Definition linter_failure : LintCheck :=
  builtin "linter_failure"
    ("An unexpected exception was raised during linting" +:+ nl +:+ nl +:+
     "Please file an issue at the bioconda-utils repo").

Definition duplicate_key_in_meta_yaml : LintCheck :=
  builtin "duplicate_key_in_meta_yaml"
    ("The recipe meta.yaml contains a duplicate key" +:+ nl +:+ nl +:+
     "This is invalid YAML, as it's unclear what the structure should" +:+ nl +:+
     "become. Please merge the two offending sections").

Definition missing_version_or_name : LintCheck :=
  builtin "missing_version_or_name"
    ("The recipe is missing name and/or version" +:+ nl +:+ nl +:+
     "Please make sure the recipe has at least::" +:+ nl +:+ nl +:+
     "  package:" +:+ nl +:+
     "    name: package_name" +:+ nl +:+
     "    version: 0.12.34").

Definition empty_meta_yaml : LintCheck :=
  builtin "empty_meta_yaml"
    ("The recipe has an empty meta.yaml!?" +:+ nl +:+ nl +:+
     "Please check if you forgot to commit its contents.").

Definition missing_build : LintCheck :=
  builtin "missing_build"
    ("The recipe is missing a build section." +:+ nl +:+ nl +:+
     "Please add::" +:+ nl +:+ nl +:+
     "  build:" +:+ nl +:+
     "    number: 0").

Definition unknown_selector : LintCheck :=
  builtin "unknown_selector"
    ("The recipe failed to parse due to selector lines" +:+ nl +:+ nl +:+
     "Please request help from @bioconda/core.").

Definition missing_meta_yaml : LintCheck :=
  builtin "missing_meta_yaml"
    ("The recipe is missing a meta.yaml file" +:+ nl +:+ nl +:+
     "Most commonly, this is because the file was accidentally" +:+ nl +:+
     "named ``meta.yml``. If so, rename it to ``meta.yaml``.").

Definition conda_render_failure : LintCheck :=
  builtin "conda_render_failure"
    ("The recipe was not understood by conda-build" +:+ nl +:+ nl +:+
     "Please request help from @bioconda/core.").

Definition jinja_render_failure : LintCheck :=
  builtin "jinja_render_failure"
    ("The recipe could not be rendered by Jinja2" +:+ nl +:+ nl +:+
     "Check if you are missing quotes or curly braces in Jinja2 template" +:+ nl +:+
     "expressions. (The parts with ``{{ something }}`` or ``{% set" +:+ nl +:+
     "var=" +:+ String "034"%char "value" +:+ String "034"%char " %}``).").

Definition unknown_check : LintCheck :=
  builtin "unknown_check"
    ("Something went wrong inside the linter" +:+ nl +:+ nl +:+
     "Please request help from @bioconda/core").

(** The registry after this module's own classes are created, in creation
    order; [from . import checks] then appends the classes of the checks
    module. *)
Definition own_checks : list LintCheck :=
  [ linter_failure; duplicate_key_in_meta_yaml; missing_version_or_name;
    empty_meta_yaml; missing_build; unknown_selector; missing_meta_yaml;
    conda_render_failure; jinja_render_failure; unknown_check ].

(** [get_checks()], given the classes of [bioconda_utils.lint.checks]. *)
Definition get_checks (checks_module : list LintCheck) : list LintCheck :=
  own_checks ++ checks_module.

(** The kinds of [_recipe.RecipeError]; [OtherRecipeError] is any subclass
    that [recipe_error_to_lint_check] does not list. *)
Inductive RecipeError : Type :=
  | DuplicateKey | MissingKey | EmptyRecipe | MissingBuild | HasSelector
  | MissingMetaYaml | CondaRenderFailure | RenderFailure | OtherRecipeError.

(** [recipe_error_to_lint_check.get(exc.__class__, linter_failure)] *)
Definition recipe_error_to_lint_check (e : RecipeError) : LintCheck :=
  match e with
  | DuplicateKey => duplicate_key_in_meta_yaml
  | MissingKey => missing_version_or_name
  | EmptyRecipe => empty_meta_yaml
  | MissingBuild => missing_build
  | HasSelector => unknown_selector
  | MissingMetaYaml => missing_meta_yaml
  | CondaRenderFailure => conda_render_failure
  | RenderFailure => jinja_render_failure
  | OtherRecipeError => linter_failure
  end.

(** ** networkx: the directed graph and the three algorithms used *)

Module nx.

(** [DiGraph]: [node] lists the nodes in insertion order (the keys of the
    node dict), [adj] maps a node to its successors in insertion order
    (the keys of its adjacency dict). *)
Record DiGraph : Type := {
  node : list string;
  adj : gmap string (list string)
}.

Definition empty : DiGraph := {| node := []; adj := ∅ |}.

(** [G[w]] *)
Definition successors (G : DiGraph) (w : string) : list string :=
  default [] (adj G !! w).

Definition has_node (G : DiGraph) (n : string) : bool :=
  bool_decide (n ∈ node G).

Definition add_node (G : DiGraph) (n : string) : DiGraph :=
  if has_node G n then G
  else {| node := node G ++ [n]; adj := <[n := []]> (adj G) |}.

Definition add_nodes_from (G : DiGraph) (ns : list string) : DiGraph :=
  foldl add_node G ns.

Definition add_edge (G : DiGraph) (e : string * string) : DiGraph :=
  let '(u, v) := e in
  let G := add_node (add_node G u) v in
  if bool_decide (v ∈ successors G u) then G
  else {| node := node G; adj := <[u := successors G u ++ [v]]> (adj G) |}.

Definition add_edges_from (G : DiGraph) (es : list (string * string)) : DiGraph :=
  foldl add_edge G es.

(** *** [topological_sort(G, nbunch=None, reverse=...)] *)

Record dfs_state : Type := {
  seen : gset string;
  explored : gset string;
  order : list string
}.

(** The scan of [G[w]]: the successors that are not yet explored, in
    order, or [None] when one of them has been seen (a cycle). *)
Fixpoint scan (seen explored : gset string) (succs new_nodes : list string)
  : option (list string) :=
  match succs with
  | [] => Some new_nodes
  | n :: rest =>
      if bool_decide (n ∈ explored) then scan seen explored rest new_nodes
      else if bool_decide (n ∈ seen) then None
      else scan seen explored rest (new_nodes ++ [n])
  end.

(** The [while fringe:] loop. The fringe is kept with its top (Python's
    [fringe[-1]]) at the head. [None] is an exhausted iteration budget. *)
Fixpoint visit (fuel : nat) (G : DiGraph) (st : dfs_state) (fringe : list string)
  : option (outcome dfs_state) :=
  match fuel with
  | O => None
  | S fuel =>
      match fringe with
      | [] => Some (Returns st)
      | w :: below =>
          if bool_decide (w ∈ explored st) then visit fuel G st below
          else
            let seen' := {[w]} ∪ seen st in
            match scan seen' (explored st) (successors G w) [] with
            | None => Some (Raises NetworkXUnfeasible)
            | Some [] =>
                visit fuel G
                  {| seen := seen';
                     explored := {[w]} ∪ explored st;
                     order := order st ++ [w] |}
                  below
            | Some new_nodes =>
                visit fuel G
                  {| seen := seen'; explored := explored st; order := order st |}
                  (reverse new_nodes ++ fringe)
            end
      end
  end.

(** The [for v in nbunch:] loop over the remaining nodes. *)
Fixpoint visit_all (fuel : nat) (G : DiGraph) (st : dfs_state) (nbunch : list string)
  : option (outcome dfs_state) :=
  match nbunch with
  | [] => Some (Returns st)
  | v :: rest =>
      if bool_decide (v ∈ explored st) then visit_all fuel G st rest
      else
        match visit fuel G st [v] with
        | Some (Returns st') => visit_all fuel G st' rest
        | other => other
        end
  end.

(** Number of nodes plus number of edges. *)
Definition size (G : DiGraph) : nat :=
  (length (node G) + foldr (fun n acc => length (successors G n) + acc) 0 (node G))%nat.

(** An iteration budget that the [while] loop never exhausts. *)
Definition budget (G : DiGraph) : nat := S (S (size G)).

Definition topological_sort_fuel (fuel : nat) (G : DiGraph) (reverse : bool)
  : option (outcome (list string)) :=
  match visit_all fuel G {| seen := ∅; explored := ∅; order := [] |} (node G) with
  | Some (Returns st) => Some (Returns (if reverse then order st else List.rev (order st)))
  | Some (Raises e) => Some (Raises e)
  | None => None
  end.

Definition topological_sort (G : DiGraph) (reverse : bool)
  : option (outcome (list string)) :=
  topological_sort_fuel (budget G) G reverse.

(** *** [descendants] and [ancestors] *)

Definition predecessors (G : DiGraph) (v : string) : list string :=
  filter (fun u => v ∈ successors G u) (node G).

(** One round of breadth-first expansion along [next]. *)
Definition expand (next : string -> list string) (S : gset string) : gset string :=
  S ∪ ⋃ ((fun u => list_to_set (next u)) <$> elements S).

Fixpoint reach (n : nat) (next : string -> list string) (S : gset string) : gset string :=
  match n with
  | O => S
  | S n => reach n next (expand next S)
  end.

(** [descendants(G, source)]: every node reachable from [source], minus
    [source]. The library raises when [source] is not a node of [G]; both
    call sites pass a node. *)
Definition descendants (G : DiGraph) (source : string) : gset string :=
  reach (length (node G)) (successors G) {[source]} ∖ {[source]}.

(** [ancestors(G, source)]: every node from which [source] is reachable,
    minus [source]. *)
Definition ancestors (G : DiGraph) (source : string) : gset string :=
  reach (length (node G)) (predecessors G) {[source]} ∖ {[source]}.

End nx.

(** ** Skip directives: [skip_re.findall] and [load_skips] *)

(** The pattern is
    [\[\s*lint skip (?P<func>\w+) for (?P<recipe>.*?)\s*\]],
    a [str] pattern: it is matched against the code points of the text,
    [\s] is [is_space], [.] is any code point but the newline, and [\w] is
    the underscore and what is alphanumeric in the Unicode character
    database. *)

(** The alphanumeric code points beyond ASCII ([str.isalnum]; Unicode
    14.0, the database of CPython 3.11), as inclusive ranges. *)
Definition alphanumeric_ranges : list (N * N) := [
  (0xAA, 0xAA); (0xB2, 0xB3); (0xB5, 0xB5); (0xB9, 0xBA); (0xBC, 0xBE);
  (0xC0, 0xD6); (0xD8, 0xF6); (0xF8, 0x2C1); (0x2C6, 0x2D1); (0x2E0, 0x2E4);
  (0x2EC, 0x2EC); (0x2EE, 0x2EE); (0x370, 0x374); (0x376, 0x377);
  (0x37A, 0x37D); (0x37F, 0x37F); (0x386, 0x386); (0x388, 0x38A);
  (0x38C, 0x38C); (0x38E, 0x3A1); (0x3A3, 0x3F5); (0x3F7, 0x481);
  (0x48A, 0x52F); (0x531, 0x556); (0x559, 0x559); (0x560, 0x588);
  (0x5D0, 0x5EA); (0x5EF, 0x5F2); (0x620, 0x64A); (0x660, 0x669);
  (0x66E, 0x66F); (0x671, 0x6D3); (0x6D5, 0x6D5); (0x6E5, 0x6E6);
  (0x6EE, 0x6FC); (0x6FF, 0x6FF); (0x710, 0x710); (0x712, 0x72F);
  (0x74D, 0x7A5); (0x7B1, 0x7B1); (0x7C0, 0x7EA); (0x7F4, 0x7F5);
  (0x7FA, 0x7FA); (0x800, 0x815); (0x81A, 0x81A); (0x824, 0x824);
  (0x828, 0x828); (0x840, 0x858); (0x860, 0x86A); (0x870, 0x887);
  (0x889, 0x88E); (0x8A0, 0x8C9); (0x904, 0x939); (0x93D, 0x93D);
  (0x950, 0x950); (0x958, 0x961); (0x966, 0x96F); (0x971, 0x980);
  (0x985, 0x98C); (0x98F, 0x990); (0x993, 0x9A8); (0x9AA, 0x9B0);
  (0x9B2, 0x9B2); (0x9B6, 0x9B9); (0x9BD, 0x9BD); (0x9CE, 0x9CE);
  (0x9DC, 0x9DD); (0x9DF, 0x9E1); (0x9E6, 0x9F1); (0x9F4, 0x9F9);
  (0x9FC, 0x9FC); (0xA05, 0xA0A); (0xA0F, 0xA10); (0xA13, 0xA28);
  (0xA2A, 0xA30); (0xA32, 0xA33); (0xA35, 0xA36); (0xA38, 0xA39);
  (0xA59, 0xA5C); (0xA5E, 0xA5E); (0xA66, 0xA6F); (0xA72, 0xA74);
  (0xA85, 0xA8D); (0xA8F, 0xA91); (0xA93, 0xAA8); (0xAAA, 0xAB0);
  (0xAB2, 0xAB3); (0xAB5, 0xAB9); (0xABD, 0xABD); (0xAD0, 0xAD0);
  (0xAE0, 0xAE1); (0xAE6, 0xAEF); (0xAF9, 0xAF9); (0xB05, 0xB0C);
  (0xB0F, 0xB10); (0xB13, 0xB28); (0xB2A, 0xB30); (0xB32, 0xB33);
  (0xB35, 0xB39); (0xB3D, 0xB3D); (0xB5C, 0xB5D); (0xB5F, 0xB61);
  (0xB66, 0xB6F); (0xB71, 0xB77); (0xB83, 0xB83); (0xB85, 0xB8A);
  (0xB8E, 0xB90); (0xB92, 0xB95); (0xB99, 0xB9A); (0xB9C, 0xB9C);
  (0xB9E, 0xB9F); (0xBA3, 0xBA4); (0xBA8, 0xBAA); (0xBAE, 0xBB9);
  (0xBD0, 0xBD0); (0xBE6, 0xBF2); (0xC05, 0xC0C); (0xC0E, 0xC10);
  (0xC12, 0xC28); (0xC2A, 0xC39); (0xC3D, 0xC3D); (0xC58, 0xC5A);
  (0xC5D, 0xC5D); (0xC60, 0xC61); (0xC66, 0xC6F); (0xC78, 0xC7E);
  (0xC80, 0xC80); (0xC85, 0xC8C); (0xC8E, 0xC90); (0xC92, 0xCA8);
  (0xCAA, 0xCB3); (0xCB5, 0xCB9); (0xCBD, 0xCBD); (0xCDD, 0xCDE);
  (0xCE0, 0xCE1); (0xCE6, 0xCEF); (0xCF1, 0xCF2); (0xD04, 0xD0C);
  (0xD0E, 0xD10); (0xD12, 0xD3A); (0xD3D, 0xD3D); (0xD4E, 0xD4E);
  (0xD54, 0xD56); (0xD58, 0xD61); (0xD66, 0xD78); (0xD7A, 0xD7F);
  (0xD85, 0xD96); (0xD9A, 0xDB1); (0xDB3, 0xDBB); (0xDBD, 0xDBD);
  (0xDC0, 0xDC6); (0xDE6, 0xDEF); (0xE01, 0xE30); (0xE32, 0xE33);
  (0xE40, 0xE46); (0xE50, 0xE59); (0xE81, 0xE82); (0xE84, 0xE84);
  (0xE86, 0xE8A); (0xE8C, 0xEA3); (0xEA5, 0xEA5); (0xEA7, 0xEB0);
  (0xEB2, 0xEB3); (0xEBD, 0xEBD); (0xEC0, 0xEC4); (0xEC6, 0xEC6);
  (0xED0, 0xED9); (0xEDC, 0xEDF); (0xF00, 0xF00); (0xF20, 0xF33);
  (0xF40, 0xF47); (0xF49, 0xF6C); (0xF88, 0xF8C); (0x1000, 0x102A);
  (0x103F, 0x1049); (0x1050, 0x1055); (0x105A, 0x105D); (0x1061, 0x1061);
  (0x1065, 0x1066); (0x106E, 0x1070); (0x1075, 0x1081); (0x108E, 0x108E);
  (0x1090, 0x1099); (0x10A0, 0x10C5); (0x10C7, 0x10C7); (0x10CD, 0x10CD);
  (0x10D0, 0x10FA); (0x10FC, 0x1248); (0x124A, 0x124D); (0x1250, 0x1256);
  (0x1258, 0x1258); (0x125A, 0x125D); (0x1260, 0x1288); (0x128A, 0x128D);
  (0x1290, 0x12B0); (0x12B2, 0x12B5); (0x12B8, 0x12BE); (0x12C0, 0x12C0);
  (0x12C2, 0x12C5); (0x12C8, 0x12D6); (0x12D8, 0x1310); (0x1312, 0x1315);
  (0x1318, 0x135A); (0x1369, 0x137C); (0x1380, 0x138F); (0x13A0, 0x13F5);
  (0x13F8, 0x13FD); (0x1401, 0x166C); (0x166F, 0x167F); (0x1681, 0x169A);
  (0x16A0, 0x16EA); (0x16EE, 0x16F8); (0x1700, 0x1711); (0x171F, 0x1731);
  (0x1740, 0x1751); (0x1760, 0x176C); (0x176E, 0x1770); (0x1780, 0x17B3);
  (0x17D7, 0x17D7); (0x17DC, 0x17DC); (0x17E0, 0x17E9); (0x17F0, 0x17F9);
  (0x1810, 0x1819); (0x1820, 0x1878); (0x1880, 0x1884); (0x1887, 0x18A8);
  (0x18AA, 0x18AA); (0x18B0, 0x18F5); (0x1900, 0x191E); (0x1946, 0x196D);
  (0x1970, 0x1974); (0x1980, 0x19AB); (0x19B0, 0x19C9); (0x19D0, 0x19DA);
  (0x1A00, 0x1A16); (0x1A20, 0x1A54); (0x1A80, 0x1A89); (0x1A90, 0x1A99);
  (0x1AA7, 0x1AA7); (0x1B05, 0x1B33); (0x1B45, 0x1B4C); (0x1B50, 0x1B59);
  (0x1B83, 0x1BA0); (0x1BAE, 0x1BE5); (0x1C00, 0x1C23); (0x1C40, 0x1C49);
  (0x1C4D, 0x1C7D); (0x1C80, 0x1C88); (0x1C90, 0x1CBA); (0x1CBD, 0x1CBF);
  (0x1CE9, 0x1CEC); (0x1CEE, 0x1CF3); (0x1CF5, 0x1CF6); (0x1CFA, 0x1CFA);
  (0x1D00, 0x1DBF); (0x1E00, 0x1F15); (0x1F18, 0x1F1D); (0x1F20, 0x1F45);
  (0x1F48, 0x1F4D); (0x1F50, 0x1F57); (0x1F59, 0x1F59); (0x1F5B, 0x1F5B);
  (0x1F5D, 0x1F5D); (0x1F5F, 0x1F7D); (0x1F80, 0x1FB4); (0x1FB6, 0x1FBC);
  (0x1FBE, 0x1FBE); (0x1FC2, 0x1FC4); (0x1FC6, 0x1FCC); (0x1FD0, 0x1FD3);
  (0x1FD6, 0x1FDB); (0x1FE0, 0x1FEC); (0x1FF2, 0x1FF4); (0x1FF6, 0x1FFC);
  (0x2070, 0x2071); (0x2074, 0x2079); (0x207F, 0x2089); (0x2090, 0x209C);
  (0x2102, 0x2102); (0x2107, 0x2107); (0x210A, 0x2113); (0x2115, 0x2115);
  (0x2119, 0x211D); (0x2124, 0x2124); (0x2126, 0x2126); (0x2128, 0x2128);
  (0x212A, 0x212D); (0x212F, 0x2139); (0x213C, 0x213F); (0x2145, 0x2149);
  (0x214E, 0x214E); (0x2150, 0x2189); (0x2460, 0x249B); (0x24EA, 0x24FF);
  (0x2776, 0x2793); (0x2C00, 0x2CE4); (0x2CEB, 0x2CEE); (0x2CF2, 0x2CF3);
  (0x2CFD, 0x2CFD); (0x2D00, 0x2D25); (0x2D27, 0x2D27); (0x2D2D, 0x2D2D);
  (0x2D30, 0x2D67); (0x2D6F, 0x2D6F); (0x2D80, 0x2D96); (0x2DA0, 0x2DA6);
  (0x2DA8, 0x2DAE); (0x2DB0, 0x2DB6); (0x2DB8, 0x2DBE); (0x2DC0, 0x2DC6);
  (0x2DC8, 0x2DCE); (0x2DD0, 0x2DD6); (0x2DD8, 0x2DDE); (0x2E2F, 0x2E2F);
  (0x3005, 0x3007); (0x3021, 0x3029); (0x3031, 0x3035); (0x3038, 0x303C);
  (0x3041, 0x3096); (0x309D, 0x309F); (0x30A1, 0x30FA); (0x30FC, 0x30FF);
  (0x3105, 0x312F); (0x3131, 0x318E); (0x3192, 0x3195); (0x31A0, 0x31BF);
  (0x31F0, 0x31FF); (0x3220, 0x3229); (0x3248, 0x324F); (0x3251, 0x325F);
  (0x3280, 0x3289); (0x32B1, 0x32BF); (0x3400, 0x4DBF); (0x4E00, 0xA48C);
  (0xA4D0, 0xA4FD); (0xA500, 0xA60C); (0xA610, 0xA62B); (0xA640, 0xA66E);
  (0xA67F, 0xA69D); (0xA6A0, 0xA6EF); (0xA717, 0xA71F); (0xA722, 0xA788);
  (0xA78B, 0xA7CA); (0xA7D0, 0xA7D1); (0xA7D3, 0xA7D3); (0xA7D5, 0xA7D9);
  (0xA7F2, 0xA801); (0xA803, 0xA805); (0xA807, 0xA80A); (0xA80C, 0xA822);
  (0xA830, 0xA835); (0xA840, 0xA873); (0xA882, 0xA8B3); (0xA8D0, 0xA8D9);
  (0xA8F2, 0xA8F7); (0xA8FB, 0xA8FB); (0xA8FD, 0xA8FE); (0xA900, 0xA925);
  (0xA930, 0xA946); (0xA960, 0xA97C); (0xA984, 0xA9B2); (0xA9CF, 0xA9D9);
  (0xA9E0, 0xA9E4); (0xA9E6, 0xA9FE); (0xAA00, 0xAA28); (0xAA40, 0xAA42);
  (0xAA44, 0xAA4B); (0xAA50, 0xAA59); (0xAA60, 0xAA76); (0xAA7A, 0xAA7A);
  (0xAA7E, 0xAAAF); (0xAAB1, 0xAAB1); (0xAAB5, 0xAAB6); (0xAAB9, 0xAABD);
  (0xAAC0, 0xAAC0); (0xAAC2, 0xAAC2); (0xAADB, 0xAADD); (0xAAE0, 0xAAEA);
  (0xAAF2, 0xAAF4); (0xAB01, 0xAB06); (0xAB09, 0xAB0E); (0xAB11, 0xAB16);
  (0xAB20, 0xAB26); (0xAB28, 0xAB2E); (0xAB30, 0xAB5A); (0xAB5C, 0xAB69);
  (0xAB70, 0xABE2); (0xABF0, 0xABF9); (0xAC00, 0xD7A3); (0xD7B0, 0xD7C6);
  (0xD7CB, 0xD7FB); (0xF900, 0xFA6D); (0xFA70, 0xFAD9); (0xFB00, 0xFB06);
  (0xFB13, 0xFB17); (0xFB1D, 0xFB1D); (0xFB1F, 0xFB28); (0xFB2A, 0xFB36);
  (0xFB38, 0xFB3C); (0xFB3E, 0xFB3E); (0xFB40, 0xFB41); (0xFB43, 0xFB44);
  (0xFB46, 0xFBB1); (0xFBD3, 0xFD3D); (0xFD50, 0xFD8F); (0xFD92, 0xFDC7);
  (0xFDF0, 0xFDFB); (0xFE70, 0xFE74); (0xFE76, 0xFEFC); (0xFF10, 0xFF19);
  (0xFF21, 0xFF3A); (0xFF41, 0xFF5A); (0xFF66, 0xFFBE); (0xFFC2, 0xFFC7);
  (0xFFCA, 0xFFCF); (0xFFD2, 0xFFD7); (0xFFDA, 0xFFDC); (0x10000, 0x1000B);
  (0x1000D, 0x10026); (0x10028, 0x1003A); (0x1003C, 0x1003D);
  (0x1003F, 0x1004D); (0x10050, 0x1005D); (0x10080, 0x100FA);
  (0x10107, 0x10133); (0x10140, 0x10178); (0x1018A, 0x1018B);
  (0x10280, 0x1029C); (0x102A0, 0x102D0); (0x102E1, 0x102FB);
  (0x10300, 0x10323); (0x1032D, 0x1034A); (0x10350, 0x10375);
  (0x10380, 0x1039D); (0x103A0, 0x103C3); (0x103C8, 0x103CF);
  (0x103D1, 0x103D5); (0x10400, 0x1049D); (0x104A0, 0x104A9);
  (0x104B0, 0x104D3); (0x104D8, 0x104FB); (0x10500, 0x10527);
  (0x10530, 0x10563); (0x10570, 0x1057A); (0x1057C, 0x1058A);
  (0x1058C, 0x10592); (0x10594, 0x10595); (0x10597, 0x105A1);
  (0x105A3, 0x105B1); (0x105B3, 0x105B9); (0x105BB, 0x105BC);
  (0x10600, 0x10736); (0x10740, 0x10755); (0x10760, 0x10767);
  (0x10780, 0x10785); (0x10787, 0x107B0); (0x107B2, 0x107BA);
  (0x10800, 0x10805); (0x10808, 0x10808); (0x1080A, 0x10835);
  (0x10837, 0x10838); (0x1083C, 0x1083C); (0x1083F, 0x10855);
  (0x10858, 0x10876); (0x10879, 0x1089E); (0x108A7, 0x108AF);
  (0x108E0, 0x108F2); (0x108F4, 0x108F5); (0x108FB, 0x1091B);
  (0x10920, 0x10939); (0x10980, 0x109B7); (0x109BC, 0x109CF);
  (0x109D2, 0x10A00); (0x10A10, 0x10A13); (0x10A15, 0x10A17);
  (0x10A19, 0x10A35); (0x10A40, 0x10A48); (0x10A60, 0x10A7E);
  (0x10A80, 0x10A9F); (0x10AC0, 0x10AC7); (0x10AC9, 0x10AE4);
  (0x10AEB, 0x10AEF); (0x10B00, 0x10B35); (0x10B40, 0x10B55);
  (0x10B58, 0x10B72); (0x10B78, 0x10B91); (0x10BA9, 0x10BAF);
  (0x10C00, 0x10C48); (0x10C80, 0x10CB2); (0x10CC0, 0x10CF2);
  (0x10CFA, 0x10D23); (0x10D30, 0x10D39); (0x10E60, 0x10E7E);
  (0x10E80, 0x10EA9); (0x10EB0, 0x10EB1); (0x10F00, 0x10F27);
  (0x10F30, 0x10F45); (0x10F51, 0x10F54); (0x10F70, 0x10F81);
  (0x10FB0, 0x10FCB); (0x10FE0, 0x10FF6); (0x11003, 0x11037);
  (0x11052, 0x1106F); (0x11071, 0x11072); (0x11075, 0x11075);
  (0x11083, 0x110AF); (0x110D0, 0x110E8); (0x110F0, 0x110F9);
  (0x11103, 0x11126); (0x11136, 0x1113F); (0x11144, 0x11144);
  (0x11147, 0x11147); (0x11150, 0x11172); (0x11176, 0x11176);
  (0x11183, 0x111B2); (0x111C1, 0x111C4); (0x111D0, 0x111DA);
  (0x111DC, 0x111DC); (0x111E1, 0x111F4); (0x11200, 0x11211);
  (0x11213, 0x1122B); (0x11280, 0x11286); (0x11288, 0x11288);
  (0x1128A, 0x1128D); (0x1128F, 0x1129D); (0x1129F, 0x112A8);
  (0x112B0, 0x112DE); (0x112F0, 0x112F9); (0x11305, 0x1130C);
  (0x1130F, 0x11310); (0x11313, 0x11328); (0x1132A, 0x11330);
  (0x11332, 0x11333); (0x11335, 0x11339); (0x1133D, 0x1133D);
  (0x11350, 0x11350); (0x1135D, 0x11361); (0x11400, 0x11434);
  (0x11447, 0x1144A); (0x11450, 0x11459); (0x1145F, 0x11461);
  (0x11480, 0x114AF); (0x114C4, 0x114C5); (0x114C7, 0x114C7);
  (0x114D0, 0x114D9); (0x11580, 0x115AE); (0x115D8, 0x115DB);
  (0x11600, 0x1162F); (0x11644, 0x11644); (0x11650, 0x11659);
  (0x11680, 0x116AA); (0x116B8, 0x116B8); (0x116C0, 0x116C9);
  (0x11700, 0x1171A); (0x11730, 0x1173B); (0x11740, 0x11746);
  (0x11800, 0x1182B); (0x118A0, 0x118F2); (0x118FF, 0x11906);
  (0x11909, 0x11909); (0x1190C, 0x11913); (0x11915, 0x11916);
  (0x11918, 0x1192F); (0x1193F, 0x1193F); (0x11941, 0x11941);
  (0x11950, 0x11959); (0x119A0, 0x119A7); (0x119AA, 0x119D0);
  (0x119E1, 0x119E1); (0x119E3, 0x119E3); (0x11A00, 0x11A00);
  (0x11A0B, 0x11A32); (0x11A3A, 0x11A3A); (0x11A50, 0x11A50);
  (0x11A5C, 0x11A89); (0x11A9D, 0x11A9D); (0x11AB0, 0x11AF8);
  (0x11C00, 0x11C08); (0x11C0A, 0x11C2E); (0x11C40, 0x11C40);
  (0x11C50, 0x11C6C); (0x11C72, 0x11C8F); (0x11D00, 0x11D06);
  (0x11D08, 0x11D09); (0x11D0B, 0x11D30); (0x11D46, 0x11D46);
  (0x11D50, 0x11D59); (0x11D60, 0x11D65); (0x11D67, 0x11D68);
  (0x11D6A, 0x11D89); (0x11D98, 0x11D98); (0x11DA0, 0x11DA9);
  (0x11EE0, 0x11EF2); (0x11FB0, 0x11FB0); (0x11FC0, 0x11FD4);
  (0x12000, 0x12399); (0x12400, 0x1246E); (0x12480, 0x12543);
  (0x12F90, 0x12FF0); (0x13000, 0x1342E); (0x14400, 0x14646);
  (0x16800, 0x16A38); (0x16A40, 0x16A5E); (0x16A60, 0x16A69);
  (0x16A70, 0x16ABE); (0x16AC0, 0x16AC9); (0x16AD0, 0x16AED);
  (0x16B00, 0x16B2F); (0x16B40, 0x16B43); (0x16B50, 0x16B59);
  (0x16B5B, 0x16B61); (0x16B63, 0x16B77); (0x16B7D, 0x16B8F);
  (0x16E40, 0x16E96); (0x16F00, 0x16F4A); (0x16F50, 0x16F50);
  (0x16F93, 0x16F9F); (0x16FE0, 0x16FE1); (0x16FE3, 0x16FE3);
  (0x17000, 0x187F7); (0x18800, 0x18CD5); (0x18D00, 0x18D08);
  (0x1AFF0, 0x1AFF3); (0x1AFF5, 0x1AFFB); (0x1AFFD, 0x1AFFE);
  (0x1B000, 0x1B122); (0x1B150, 0x1B152); (0x1B164, 0x1B167);
  (0x1B170, 0x1B2FB); (0x1BC00, 0x1BC6A); (0x1BC70, 0x1BC7C);
  (0x1BC80, 0x1BC88); (0x1BC90, 0x1BC99); (0x1D2E0, 0x1D2F3);
  (0x1D360, 0x1D378); (0x1D400, 0x1D454); (0x1D456, 0x1D49C);
  (0x1D49E, 0x1D49F); (0x1D4A2, 0x1D4A2); (0x1D4A5, 0x1D4A6);
  (0x1D4A9, 0x1D4AC); (0x1D4AE, 0x1D4B9); (0x1D4BB, 0x1D4BB);
  (0x1D4BD, 0x1D4C3); (0x1D4C5, 0x1D505); (0x1D507, 0x1D50A);
  (0x1D50D, 0x1D514); (0x1D516, 0x1D51C); (0x1D51E, 0x1D539);
  (0x1D53B, 0x1D53E); (0x1D540, 0x1D544); (0x1D546, 0x1D546);
  (0x1D54A, 0x1D550); (0x1D552, 0x1D6A5); (0x1D6A8, 0x1D6C0);
  (0x1D6C2, 0x1D6DA); (0x1D6DC, 0x1D6FA); (0x1D6FC, 0x1D714);
  (0x1D716, 0x1D734); (0x1D736, 0x1D74E); (0x1D750, 0x1D76E);
  (0x1D770, 0x1D788); (0x1D78A, 0x1D7A8); (0x1D7AA, 0x1D7C2);
  (0x1D7C4, 0x1D7CB); (0x1D7CE, 0x1D7FF); (0x1DF00, 0x1DF1E);
  (0x1E100, 0x1E12C); (0x1E137, 0x1E13D); (0x1E140, 0x1E149);
  (0x1E14E, 0x1E14E); (0x1E290, 0x1E2AD); (0x1E2C0, 0x1E2EB);
  (0x1E2F0, 0x1E2F9); (0x1E7E0, 0x1E7E6); (0x1E7E8, 0x1E7EB);
  (0x1E7ED, 0x1E7EE); (0x1E7F0, 0x1E7FE); (0x1E800, 0x1E8C4);
  (0x1E8C7, 0x1E8CF); (0x1E900, 0x1E943); (0x1E94B, 0x1E94B);
  (0x1E950, 0x1E959); (0x1EC71, 0x1ECAB); (0x1ECAD, 0x1ECAF);
  (0x1ECB1, 0x1ECB4); (0x1ED01, 0x1ED2D); (0x1ED2F, 0x1ED3D);
  (0x1EE00, 0x1EE03); (0x1EE05, 0x1EE1F); (0x1EE21, 0x1EE22);
  (0x1EE24, 0x1EE24); (0x1EE27, 0x1EE27); (0x1EE29, 0x1EE32);
  (0x1EE34, 0x1EE37); (0x1EE39, 0x1EE39); (0x1EE3B, 0x1EE3B);
  (0x1EE42, 0x1EE42); (0x1EE47, 0x1EE47); (0x1EE49, 0x1EE49);
  (0x1EE4B, 0x1EE4B); (0x1EE4D, 0x1EE4F); (0x1EE51, 0x1EE52);
  (0x1EE54, 0x1EE54); (0x1EE57, 0x1EE57); (0x1EE59, 0x1EE59);
  (0x1EE5B, 0x1EE5B); (0x1EE5D, 0x1EE5D); (0x1EE5F, 0x1EE5F);
  (0x1EE61, 0x1EE62); (0x1EE64, 0x1EE64); (0x1EE67, 0x1EE6A);
  (0x1EE6C, 0x1EE72); (0x1EE74, 0x1EE77); (0x1EE79, 0x1EE7C);
  (0x1EE7E, 0x1EE7E); (0x1EE80, 0x1EE89); (0x1EE8B, 0x1EE9B);
  (0x1EEA1, 0x1EEA3); (0x1EEA5, 0x1EEA9); (0x1EEAB, 0x1EEBB);
  (0x1F100, 0x1F10C); (0x1FBF0, 0x1FBF9); (0x20000, 0x2A6DF);
  (0x2A700, 0x2B738); (0x2B740, 0x2B81D); (0x2B820, 0x2CEA1);
  (0x2CEB0, 0x2EBE0); (0x2F800, 0x2FA1D); (0x30000, 0x3134A)
]%N.

Definition is_word (c : N) : bool :=
  if (c <? 0x80)%N
  then ((48 <=? c) && (c <=? 57) || (65 <=? c) && (c <=? 90)
        || (97 <=? c) && (c <=? 122) || (c =? 95))%N
  else existsb (λ r, (r.1 <=? c) && (c <=? r.2))%N alphanumeric_ranges.

(** Match a literal at the head of [s]; the result is what follows it. *)
Fixpoint match_literal (lit s : str) : option str :=
  match lit, s with
  | [], _ => Some s
  | a :: lit', b :: s' => if (a =? b)%N then match_literal lit' s' else None
  | _ :: _, [] => None
  end.

(** [\w*], greedy: the longest run of word characters and what follows. *)
Fixpoint match_word (s : str) : str * str :=
  match s with
  | [] => ([], [])
  | c :: tl =>
      if is_word c then let '(w, r) := match_word tl in (c :: w, r)
      else ([], s)
  end.

(** [(?P<recipe>.*?)\s*\]]: the shortest run of non-newline characters
    after which optional white space and a closing bracket follow. *)
Fixpoint match_recipe (s : str) : option (str * str) :=
  match match_literal (decode "]") (lstrip s) with
  | Some rest => Some ([], rest)
  | None =>
      match s with
      | [] => None
      | c :: tl =>
          if (c =? 10)%N then None
          else match match_recipe tl with
               | Some (r, rest) => Some (c :: r, rest)
               | None => None
               end
      end
  end.

(** A match of the whole pattern starting at the head of [s]: the two
    groups and the text after the match. *)
Definition match_at (s : str) : option ((str * str) * str) :=
  match match_literal (decode "[") s with
  | None => None
  | Some s1 =>
      match match_literal (decode "lint skip ") (lstrip s1) with
      | None => None
      | Some s2 =>
          match match_word s2 with
          | ([], _) => None
          | (func, s3) =>
              match match_literal (decode " for ") s3 with
              | None => None
              | Some s4 =>
                  match match_recipe s4 with
                  | None => None
                  | Some (recipe, rest) => Some ((func, recipe), rest)
                  end
              end
          end
      end
  end.

(** [findall]: leftmost matches, scanning on after each match. Every step
    consumes a character, so [length s] steps are enough. *)
Fixpoint findall_fuel (fuel : nat) (s : str) : list (str * str) :=
  match fuel with
  | O => []
  | S fuel =>
      match s with
      | [] => []
      | _ :: tl =>
          match match_at s with
          | Some (m, rest) => m :: findall_fuel fuel rest
          | None => findall_fuel fuel tl
          end
      end
  end.

(** [skip_re.findall] on a [str]. *)
Definition skip_re_findall (s : str) : list (str * str) :=
  findall_fuel (length s) s.

(** [skip_re.findall(commit_message)], text and groups as strings. *)
Definition findall (text : string) : list (string * string) :=
  map (λ m, (encode m.1, encode m.2)) (skip_re_findall (decode text)).

(** [skip_dict[recipe].append(func)] on a [defaultdict(list)] *)
Definition skip_dict_append (skip_dict : gmap string (list string))
    (m : string * string) : gmap string (list string) :=
  let '(func, recipe) := m in
  <[recipe := default [] (skip_dict !! recipe) ++ [func]]> skip_dict.

(** [Linter.load_skips]; [commit_message] is [os.environ['LINT_SKIP']] or
    the message of the last commit. *)
Definition load_skips (commit_message : string) : gmap string (list string) :=
  foldl skip_dict_append ∅ (findall commit_message).

(** ** The linter *)

Record Linter : Type := {
  skip : gmap string (list string);
  exclude : list string;
  _messages : list LintMessage;
  checks_dag : nx.DiGraph;
  checks_ordered : list string;
  check_instances : gmap string LintCheck
}.

Definition set_messages (L : Linter) (ms : list LintMessage) : Linter :=
  {| skip := skip L; exclude := exclude L; _messages := ms;
     checks_dag := checks_dag L; checks_ordered := checks_ordered L;
     check_instances := check_instances L |}.

(** The graph of [Linter.__init__]: a node per registered check, an edge
    from each check to each check it requires. *)
Definition requirement_edges (registry : list LintCheck) : list (string * string) :=
  flat_map (fun check => map (fun check_dep => (name check, check_dep)) (requires check))
           registry.

Definition build_dag (registry : list LintCheck) : nx.DiGraph :=
  nx.add_edges_from (nx.add_nodes_from nx.empty (map name registry))
                    (requirement_edges registry).

(** [{str(check): check(self) for check in get_checks()}]: a later class
    of the same name replaces an earlier one. *)
Definition instantiate (registry : list LintCheck) : gmap string LintCheck :=
  foldl (fun d check => <[name check := check]> d) ∅ registry.

(** [Linter.__init__]. The handler of [NetworkXUnfeasible] evaluates the
    name [RunTimeError], which is not bound, so what leaves the constructor
    on a cycle is a [NameError]. [None] is an exhausted iteration budget of
    the sort ([Linter_init_total] shows that it never happens). *)
Definition Linter_init (checks_module : list LintCheck) (commit_message : string)
    (exclude : option (list string)) : option (outcome Linter) :=
  let registry := get_checks checks_module in
  let dag := build_dag registry in
  match nx.topological_sort dag true with
  | None => None
  | Some (Raises NetworkXUnfeasible) => Some (Raises (NameError "RunTimeError"))
  | Some (Raises e) => Some (Raises e)
  | Some (Returns ordered) =>
      Some (Returns
        {| skip := load_skips commit_message;
           exclude := default [] exclude;
           _messages := [];
           checks_dag := dag;
           checks_ordered := ordered;
           check_instances := instantiate registry |})
  end.

Definition get_messages (L : Linter) : list LintMessage := _messages L.

Definition clear_messages (L : Linter) : Linter := set_messages L [].

(** The recipe loader. *)
Inductive load_result : Type :=
  | Loaded (recipe : Recipe)
  | RecipeErrorRaised (exc : RecipeError) (line : option Z)
  | OtherErrorRaised.

Record Env : Type := {
  (* _recipe.Recipe.from_file(self.recipe_folder, recipe_name) *)
  from_file : string -> load_result;
  (* _recipe.Recipe(recipe_name, self.recipe_folder) *)
  new_recipe : string -> Recipe
}.

(** Lines 504-510 of [lint_one]: the set of checks to skip before
    propagation. *)
Definition initial_skips (L : Linter) (recipe_name : string) (recipe : Recipe)
  : gset string :=
  list_to_set (default [] (skip L !! recipe_name))
  ∪ list_to_set (exclude L)
  ∪ match extra_skip_lints recipe with
    | Some l => list_to_set l
    | None => ∅
    end.

(** Lines 512-521: the loop over a snapshot of the set. The second
    component collects the names passed to [logger.error]. *)
Fixpoint propagate_skips (dag : nx.DiGraph) (snapshot : list string)
    (checks_to_skip : gset string) (errors : list string)
  : gset string * list string :=
  match snapshot with
  | [] => (checks_to_skip, errors)
  | check :: rest =>
      if nx.has_node dag check
      then propagate_skips dag rest (checks_to_skip ∪ nx.descendants dag check) errors
      else propagate_skips dag rest checks_to_skip (errors ++ [check])
  end.

Definition collect_skips (L : Linter) (recipe_name : string) (recipe : Recipe)
  : gset string * list string :=
  let checks_to_skip := initial_skips L recipe_name recipe in
  propagate_skips (checks_dag L) (elements checks_to_skip) checks_to_skip [].

(** The message built in the [except Exception:] branch of [lint_one]. *)
Definition unexpected_exception_message (recipe : Recipe) (check : string)
  : LintMessage :=
  {| msg_recipe := recipe;
     msg_check := ByName check;
     msg_severity := ERROR;
     msg_title := "Check raised an unexpected exception";
     msg_body := "";
     msg_start_line := 0;
     msg_end_line := 0;
     msg_fname := "meta.yaml" |}.

(** [messages.extend(True)]: a [bool] is not iterable. *)
Definition extend_with_True (messages : list LintMessage)
  : outcome (list LintMessage) :=
  Raises (TypeError "'bool' object is not iterable").

(** [self.check_instances[check].run(recipe)] *)
Definition run_instance (L : Linter) (check : string) (recipe : Recipe)
  : outcome (list LintMessage) :=
  match check_instances L !! check with
  | Some inst => run inst recipe
  | None => Raises (KeyError check)
  end.

(** Lines 524-541: the loop over [self.checks_ordered]. *)
Fixpoint run_checks (L : Linter) (recipe : Recipe) (ordered : list string)
    (checks_to_skip : gset string) (messages : list LintMessage)
  : outcome (list LintMessage) :=
  match ordered with
  | [] => Returns messages
  | check :: rest =>
      if bool_decide (check ∈ checks_to_skip)
      then run_checks L recipe rest checks_to_skip messages
      else
        match run_instance L check recipe with
        | Returns res =>
            let checks_to_skip :=
              match res with
              | [] => checks_to_skip
              | _ :: _ => checks_to_skip ∪ nx.ancestors (checks_dag L) check
              end in
            run_checks L recipe rest checks_to_skip (messages ++ res)
        | Raises _ =>
            (* messages.append(LintMessage(...)); res = True *)
            let messages := messages ++ [unexpected_exception_message recipe check] in
            (* if res: checks_to_skip.update(...) *)
            let checks_to_skip := checks_to_skip ∪ nx.ancestors (checks_dag L) check in
            (* messages.extend(res) *)
            extend_with_True messages
        end
  end.

(** [Linter.lint_one] *)
Definition lint_one (env : Env) (L : Linter) (recipe_name : string)
  : outcome (list LintMessage) :=
  match from_file env recipe_name with
  | OtherErrorRaised => Raises LoaderError
  | RecipeErrorRaised exc line =>
      let recipe := new_recipe env recipe_name in
      let check_cls := recipe_error_to_lint_check exc in
      Returns [make_message check_cls recipe None None line]
  | Loaded recipe =>
      let checks_to_skip := fst (collect_skips L recipe_name recipe) in
      run_checks L recipe (checks_ordered L) checks_to_skip []
  end.

(** [sorted(recipe_names)]: strings compare by code point. *)
Fixpoint insert_sorted (x : string) (l : list string) : list string :=
  match l with
  | [] => [x]
  | y :: l' => if String.leb x y then x :: l else y :: insert_sorted x l'
  end.

Definition sorted (l : list string) : list string := foldr insert_sorted [] l.

(** The body of the [for] loop of [Linter.lint]: the messages of one
    recipe. *)
Definition lint_recipe (env : Env) (L : Linter) (recipe_name : string)
  : list LintMessage :=
  match lint_one env L recipe_name with
  | Returns msgs => msgs
  | Raises _ =>
      let recipe := new_recipe env recipe_name in
      [make_message linter_failure recipe None None None]
  end.

Definition lint_step (env : Env) (L : Linter) (recipe_name : string) : Linter :=
  set_messages L (_messages L ++ lint_recipe env L recipe_name).

Definition is_error (m : LintMessage) : bool :=
  (Severity_value ERROR <=? Severity_value (msg_severity m))%Z.

(** [Linter.lint]: the linter after the call and the returned verdict. *)
Definition lint (env : Env) (L : Linter) (recipe_names : list string)
  : Linter * bool :=
  let L' := foldl (lint_step env) L (sorted recipe_names) in
  (L', existsb is_error (_messages L')).

(** ** Sample checks, recipes and linters used in the examples *)

Module Sample.

Definition recipe : Recipe :=
  {| path := "recipes/bar/meta.yaml";
     get_raw_range := fun _ => None;
     extra_skip_lints := Some [] |}.

Definition bare (recipe_name : string) : Recipe :=
  {| path := recipe_name +:+ "/meta.yaml";
     get_raw_range := fun _ => None;
     extra_skip_lints := Some [] |}.

(** Every recipe loads, except [broken], which has no build section. *)
Definition env : Env :=
  {| from_file := fun n =>
       if String.eqb n "broken" then RecipeErrorRaised MissingBuild (Some 7)
       else Loaded recipe;
     new_recipe := bare |}.

Definition one_message (_ : Recipe) : outcome (list message_call) :=
  Returns [ {| mc_section := None; mc_fname := None; mc_line := None |} ].

Definition raising (_ : Recipe) : outcome (list message_call) :=
  Raises CheckError.

(** [B] always fails; [A] requires [B] and would fail as well. *)
Definition B : LintCheck :=
  {| name := "B"; severity := WARNING; requires := [];
     doc := "B failed"; hooks := one_message |}.

Definition A : LintCheck :=
  {| name := "A"; severity := ERROR; requires := ["B"];
     doc := "A failed"; hooks := one_message |}.

(** [bad] raises in a hook; [good] is unrelated to it. *)
Definition bad : LintCheck :=
  {| name := "bad"; severity := WARNING; requires := [];
     doc := "bad"; hooks := raising |}.

Definition good : LintCheck :=
  {| name := "good"; severity := INFO; requires := [];
     doc := "good failed"; hooks := one_message |}.

(** Two checks that require each other. *)
Definition P : LintCheck :=
  {| name := "P"; severity := ERROR; requires := ["Q"];
     doc := "P"; hooks := no_hooks |}.

Definition Q : LintCheck :=
  {| name := "Q"; severity := ERROR; requires := ["P"];
     doc := "Q"; hooks := no_hooks |}.

(** The linter that [Linter_init] builds, or a linter without checks
    when the constructor raises. *)
Definition linter (checks_module : list LintCheck) (commit_message : string)
    (exclude : option (list string)) : Linter :=
  match Linter_init checks_module commit_message exclude with
  | Some (Returns L) => L
  | _ => {| skip := ∅; exclude := []; _messages := []; checks_dag := nx.empty;
            checks_ordered := []; check_instances := ∅ |}
  end.

End Sample.

(** ** The registry *)

(** [LintCheckMeta.__new__]: the registry after the class [typ] has been
    created; the base class, named [LintCheck], is not registered. *)
Definition LintCheckMeta_new (registry : list LintCheck) (typ : LintCheck)
  : list LintCheck :=
  if String.eqb (name typ) "LintCheck" then registry else registry ++ [typ].

(** The registry after the creation of [classes], in this order. *)
Definition registry_after (classes : list LintCheck) : list LintCheck :=
  foldl LintCheckMeta_new [] classes.

(** ** The hooks of a check, one by one *)

(** [LintCheck.run] calls [check_recipe], then [check_source] for each
    source of the recipe, then [check_deps]. [hooks] above is their
    combined effect; here they are kept apart. [Source] is a source section
    and [Deps] the mapping that [recipe.get_deps_dict()] returns. *)
Section hooks.
Variables Source Deps : Type.

(** [recipe.get('source', None)]: a mapping, a list, or anything else. *)
Inductive source_field : Type :=
  | SourceOther
  | SourceDict (source : Source)
  | SourceList (sources : list Source).

Record check_hooks : Type := {
  check_recipe : Recipe → outcome (list message_call);
  check_source : Source → string → outcome (list message_call);
  check_deps : Deps → outcome (list message_call)
}.

(** [f'{n}'] for a natural number. *)
Definition decimal (n : nat) : string := NilEmpty.string_of_uint (Nat.to_uint n).

(** The calls of [check_source] that [run] makes: the sources with their
    section paths. *)
Definition source_sections (source : source_field) : list (Source * string) :=
  match source with
  | SourceOther => []
  | SourceDict src => [(src, "source")]
  | SourceList srcs => imap (λ n src, (src, "source/" +:+ decimal n)) srcs
  end.

Fixpoint each_source (h : check_hooks) (sections : list (Source * string))
  : outcome (list message_call) :=
  match sections with
  | [] => Returns []
  | (src, section) :: rest =>
      match check_source h src section with
      | Raises e => Raises e
      | Returns calls =>
          match each_source h rest with
          | Raises e => Raises e
          | Returns more => Returns (calls ++ more)
          end
      end
  end.

(** The body of [LintCheck.run] between the reset of the buffer and its
    return: the [self.message] calls of the three kinds of hooks. *)
Definition run_hooks (h : check_hooks) (source : Recipe → source_field)
    (get_deps_dict : Recipe → Deps) (recipe : Recipe)
  : outcome (list message_call) :=
  match check_recipe h recipe with
  | Raises e => Raises e
  | Returns general =>
      match each_source h (source_sections (source recipe)) with
      | Raises e => Raises e
      | Returns per_source =>
          match check_deps h (get_deps_dict recipe) with
          | Raises e => Raises e
          | Returns depends => Returns (general ++ per_source ++ depends)
          end
      end
  end.

End hooks.

(** * Specification vocabulary *)

(** [edge G u v]: [v] is a successor of [u]. In [checks_dag] this reads
    "check [u] requires check [v]". *)
Definition edge (G : nx.DiGraph) (u v : string) : Prop := v ∈ nx.successors G u.

(** Edges only join nodes. *)
Definition graph_wf (G : nx.DiGraph) : Prop :=
  ∀ u v, edge G u v → u ∈ nx.node G ∧ v ∈ nx.node G.

(** [requires_in registry a b]: some registered check named [a] lists [b]
    in its [requires]. *)
Definition requires_in (registry : list LintCheck) (a b : string) : Prop :=
  ∃ check, check ∈ registry ∧ name check = a ∧ b ∈ requires check.

(** [postorder G l]: read from the head, every node of [l] comes after all
    its successors. [l] is the finishing order, latest first. *)
Fixpoint postorder (G : nx.DiGraph) (l : list string) : Prop :=
  match l with
  | [] => True
  | u :: l' => (∀ v, edge G u v → v ∈ l') ∧ postorder G l'
  end.

(** In the execution order a successor stands strictly before the node. *)
Definition stands_before (l : list string) (b a : string) : Prop :=
  ∃ l1 l2 l3, l = l1 ++ b :: l2 ++ a :: l3.

(** The weight of the nodes that have not been seen: one for the node and
    one for each of its out-edges. *)
Definition white_weight (G : nx.DiGraph) (l : list string) (seen : gset string) : nat :=
  foldr (λ x acc, ((if bool_decide (x ∈ seen) then 0 else S (length (nx.successors G x))) + acc)%nat)
        0%nat l.

(** The invariant of the [while fringe:] loop. A node is gray when it has
    been seen and is not yet explored. *)
Record dfs_inv (G : nx.DiGraph) (st : nx.dfs_state) (fringe : list string) : Prop := {
  inv_explored_seen : nx.explored st ⊆ nx.seen st;
  inv_explored_nodes : ∀ x, x ∈ nx.explored st → x ∈ nx.node G;
  inv_order : ∀ x, x ∈ nx.order st ↔ x ∈ nx.explored st;
  inv_nodup : NoDup (nx.order st);
  inv_post : postorder G (reverse (nx.order st));
  inv_fringe_nodes : ∀ x, x ∈ fringe → x ∈ nx.node G;
  (* every gray node waits on the fringe *)
  inv_gray_fringe : ∀ g, g ∈ nx.seen st → g ∉ nx.explored st → g ∈ fringe;
  (* what lies above the topmost occurrence of a gray node is reachable
     from it *)
  inv_gray_path : ∀ above g below,
    fringe = above ++ g :: below → g ∈ nx.seen st → g ∉ nx.explored st →
    g ∉ above → ∀ x, x ∈ above → tc (edge G) g x;
  (* and it contains every successor that is still unexplored *)
  inv_gray_succ : ∀ above g below,
    fringe = above ++ g :: below → g ∈ nx.seen st → g ∉ nx.explored st →
    g ∉ above → ∀ n, edge G g n → n ∈ nx.explored st ∨ n ∈ above
}.

(** What [Linter.__init__] establishes and no later call changes. *)
Record linter_for (checks_module : list LintCheck) (L : Linter) : Prop := {
  lf_dag : checks_dag L = build_dag (get_checks checks_module);
  lf_ordered : nx.topological_sort (checks_dag L) true = Some (Returns (checks_ordered L));
  lf_instances : check_instances L = instantiate (get_checks checks_module)
}.

(** The messages that one call of [lint] appends: those of each recipe, in
    sorted order of the names. *)
Definition run_messages (env : Env) (L : Linter) (recipe_names : list string)
  : list LintMessage :=
  flat_map (lint_recipe env L) (sorted recipe_names).

(** The message names a check class and carries that class's severity. *)
Definition issued_by (registry : list LintCheck) (m : LintMessage) : Prop :=
  ∃ cls, cls ∈ registry ∧ msg_check m = ByClass cls ∧ msg_severity m = severity cls.

(** The order of Python strings: lexicographic on the character codes. *)
Definition str_le (a b : string) : Prop := String.leb a b = true.

(** A set of nodes is closed under [next] when it contains the [next]
    nodes of its members. *)
Definition closed (next : string → list string) (S : gset string) : Prop :=
  ∀ u v, u ∈ S → v ∈ next u → v ∈ S.

(** Every character of [s] satisfies [p]. *)
Fixpoint all_chars (p : ascii → bool) (s : string) : bool :=
  match s with
  | EmptyString => true
  | String a tl => p a && all_chars p tl
  end.

(** A recipe name as a directive can carry it: no newline, no closing
    bracket, no white space at its end. *)
Fixpoint recipe_name_ok (s : str) : bool :=
  match s with
  | [] => true
  | c :: tl =>
      negb (c =? 10)%N && negb (c =? 93)%N
      && (negb (is_space c) || negb (forallb is_space tl))
      && recipe_name_ok tl
  end.

(** The directive token [[ lint skip <func> for <recipe> ]], with white
    space [ws1] after the opening and [ws2] before the closing bracket. *)
Definition directive (ws1 func recipe ws2 : str) : str :=
  decode "[" ++ ws1 ++ decode "lint skip " ++ func ++ decode " for " ++ recipe
  ++ ws2 ++ decode "]".

(** Comparisons of bytes with constants, decided from the hypotheses. *)
Ltac decide_bounds :=
  repeat (match goal with
          | |- context [N.ltb ?a ?b] =>
              first [ rewrite (proj2 (N.ltb_lt a b)) by lia
                    | rewrite (proj2 (N.ltb_ge a b)) by lia ]
          | |- context [N.leb ?a ?b] =>
              first [ rewrite (proj2 (N.leb_le a b)) by lia
                    | rewrite (proj2 (N.leb_gt a b)) by lia ]
          end; cbn [andb orb]).

(** * Properties *)

(** ** The requirement graph *)

Lemma empty_wf : graph_wf nx.empty.
Proof.
  intros u v. unfold edge, nx.successors. simpl.
  rewrite lookup_empty. simpl. intros H. inversion H.
Qed.

Lemma successors_outside G u : graph_wf G → u ∉ nx.node G → nx.successors G u = [].
Proof.
  intros Hwf Hu. destruct (nx.successors G u) as [|v l] eqn:E; [done|].
  exfalso. apply Hu. apply (Hwf u v). unfold edge. rewrite E. left.
Qed.

Lemma add_node_nodes G n x :
  x ∈ nx.node (nx.add_node G n) ↔ x ∈ nx.node G ∨ x = n.
Proof.
  unfold nx.add_node, nx.has_node. case_bool_decide; simpl.
  - split; [tauto|]. intros [?| ->]; done.
  - rewrite elem_of_app, list_elem_of_singleton. tauto.
Qed.

Lemma add_node_successors G n u :
  graph_wf G → nx.successors (nx.add_node G n) u = nx.successors G u.
Proof.
  intros Hwf. unfold nx.add_node, nx.has_node. case_bool_decide; [done|].
  unfold nx.successors at 1. simpl.
  destruct (decide (n = u)) as [->|Hne].
  - rewrite lookup_insert_eq. simpl. symmetry. by apply successors_outside.
  - by rewrite lookup_insert_ne.
Qed.

Lemma add_node_wf G n : graph_wf G → graph_wf (nx.add_node G n).
Proof.
  intros Hwf u v. unfold edge. rewrite add_node_successors by done.
  intros H. destruct (Hwf u v H). rewrite !add_node_nodes. tauto.
Qed.

Lemma add_edge_nodes G u v x :
  x ∈ nx.node (nx.add_edge G (u, v)) ↔ x ∈ nx.node G ∨ x = u ∨ x = v.
Proof.
  unfold nx.add_edge. case_bool_decide; simpl; rewrite !add_node_nodes; tauto.
Qed.

Lemma add_edge_successors G u v a b :
  graph_wf G →
  b ∈ nx.successors (nx.add_edge G (u, v)) a ↔
  b ∈ nx.successors G a ∨ (a = u ∧ b = v).
Proof.
  intros Hwf. unfold nx.add_edge.
  pose proof (add_node_wf _ u Hwf) as Hwf1.
  assert (Hs : ∀ w, nx.successors (nx.add_node (nx.add_node G u) v) w = nx.successors G w).
  { intros w. rewrite add_node_successors by done. by apply add_node_successors. }
  case_bool_decide as Hin.
  - rewrite Hs. rewrite Hs in Hin. split; [tauto|]. intros [?|[-> ->]]; done.
  - unfold nx.successors at 1. simpl.
    destruct (decide (u = a)) as [->|Hne].
    + rewrite lookup_insert_eq. simpl. rewrite Hs, elem_of_app, list_elem_of_singleton.
      tauto.
    + rewrite lookup_insert_ne by done. fold (nx.successors (nx.add_node (nx.add_node G u) v) a).
      rewrite Hs. split; [tauto|]. intros [?|[-> _]]; done.
Qed.

Lemma add_edge_wf G e : graph_wf G → graph_wf (nx.add_edge G e).
Proof.
  destruct e as [u v]. intros Hwf a b. unfold edge.
  rewrite add_edge_successors by done. rewrite !add_edge_nodes.
  intros [H|[-> ->]]; [destruct (Hwf a b H)|]; tauto.
Qed.

Lemma add_nodes_from_spec ns : ∀ G,
  graph_wf G →
  graph_wf (nx.add_nodes_from G ns)
  ∧ (∀ x, x ∈ nx.node (nx.add_nodes_from G ns) ↔ x ∈ nx.node G ∨ x ∈ ns)
  ∧ (∀ u, nx.successors (nx.add_nodes_from G ns) u = nx.successors G u).
Proof.
  induction ns as [|n ns IH]; intros G Hwf; simpl.
  - split; [done|]. split; [|done]. intros x. rewrite elem_of_nil. tauto.
  - destruct (IH (nx.add_node G n) (add_node_wf _ _ Hwf)) as (H1 & H2 & H3).
    split; [done|]. split.
    + intros x. rewrite H2, add_node_nodes, elem_of_cons. tauto.
    + intros u. rewrite H3. by apply add_node_successors.
Qed.

Lemma add_edges_from_spec es : ∀ G,
  graph_wf G →
  graph_wf (nx.add_edges_from G es)
  ∧ (∀ x, x ∈ nx.node (nx.add_edges_from G es) ↔
          x ∈ nx.node G ∨ ∃ e, e ∈ es ∧ (x = e.1 ∨ x = e.2))
  ∧ (∀ a b, edge (nx.add_edges_from G es) a b ↔ edge G a b ∨ (a, b) ∈ es).
Proof.
  induction es as [|[u v] es IH]; intros G Hwf; simpl.
  - split; [done|]. split.
    + intros x. split; [tauto|]. intros [?|(e & He & _)]; [done|]. inversion He.
    + intros a b. rewrite elem_of_nil. tauto.
  - destruct (IH (nx.add_edge G (u, v)) (add_edge_wf _ _ Hwf)) as (H1 & H2 & H3).
    split; [done|]. split.
    + intros x. rewrite H2, add_edge_nodes. split.
      * intros [[?|[->| ->]]|(e & He & Hx)].
        -- by left.
        -- right. exists (u, v). split; [left|]. by left.
        -- right. exists (u, v). split; [left|]. by right.
        -- right. exists e. split; [by right|done].
      * intros [?|(e & He & Hx)]; [tauto|].
        apply elem_of_cons in He as [->|He]; simpl in Hx; [tauto|].
        right. by exists e.
    + intros a b. rewrite H3. unfold edge at 1. rewrite add_edge_successors by done.
      rewrite elem_of_cons. unfold edge. split.
      * intros [[?|[-> ->]]|?]; tauto.
      * intros [?|[Heq|?]]; [tauto| |tauto]. inversion Heq; subst. tauto.
Qed.

Lemma requirement_edges_spec registry a b :
  (a, b) ∈ requirement_edges registry ↔ requires_in registry a b.
Proof.
  unfold requirement_edges, requires_in.
  rewrite list_elem_of_In, in_flat_map. split.
  - intros (c & Hc & Hin). apply in_map_iff in Hin as (d & Heq & Hd).
    inversion Heq; subst. exists c. by rewrite !list_elem_of_In.
  - intros (c & Hc & <- & Hb). exists c. rewrite <- list_elem_of_In. split; [done|].
    apply in_map_iff. exists b. by rewrite <- list_elem_of_In.
Qed.

Lemma build_dag_wf registry : graph_wf (build_dag registry).
Proof.
  unfold build_dag.
  destruct (add_nodes_from_spec (map name registry) nx.empty empty_wf) as (H1 & _).
  by destruct (add_edges_from_spec (requirement_edges registry) _ H1) as (H2 & _).
Qed.

Lemma build_dag_edge registry a b :
  edge (build_dag registry) a b ↔ requires_in registry a b.
Proof.
  unfold build_dag.
  destruct (add_nodes_from_spec (map name registry) nx.empty empty_wf) as (H1 & _ & H1s).
  destruct (add_edges_from_spec (requirement_edges registry) _ H1) as (_ & _ & H2).
  rewrite H2, requirement_edges_spec. split; [|tauto].
  intros [H|H]; [|done]. unfold edge in H. rewrite H1s in H.
  unfold nx.successors in H. simpl in H. rewrite lookup_empty in H. inversion H.
Qed.

Lemma build_dag_nodes registry check :
  check ∈ registry → name check ∈ nx.node (build_dag registry).
Proof.
  intros Hc. unfold build_dag.
  destruct (add_nodes_from_spec (map name registry) nx.empty empty_wf) as (H1 & H1n & _).
  destruct (add_edges_from_spec (requirement_edges registry) _ H1) as (_ & H2 & _).
  rewrite H2, H1n. left. right. rewrite list_elem_of_In. apply in_map.
  by rewrite <- list_elem_of_In.
Qed.

(** ** Correctness of the depth-first topological sort *)

Lemma postorder_app G l1 l2 : postorder G (l1 ++ l2) → postorder G l2.
Proof. induction l1 as [|a l1 IH]; simpl; [done|]. intros [_ H]. auto. Qed.

Lemma postorder_closed G l u v :
  postorder G l → u ∈ l → edge G u v → v ∈ l.
Proof.
  induction l as [|a l IH]; simpl; intros Hp Hu He.
  - inversion Hu.
  - destruct Hp as [Ha Hp]. apply elem_of_cons in Hu as [->|Hu].
    + right. auto.
    + right. auto.
Qed.

Lemma postorder_closed_tc G l u v :
  postorder G l → u ∈ l → tc (edge G) u v → v ∈ l.
Proof.
  intros Hp Hu Ht. induction Ht as [x y He|x y z He _ IH].
  - eapply postorder_closed; eauto.
  - apply IH. eapply postorder_closed; eauto.
Qed.

Lemma postorder_acyclic G l :
  (∀ u v, edge G u v → u ∈ l) → NoDup l → postorder G l →
  ∀ u, ¬ tc (edge G) u u.
Proof.
  intros Hsrc Hnd Hp u Hc.
  assert (Hu : u ∈ l).
  { inversion Hc as [x y He|x y z He _]; subst; eauto. }
  clear Hsrc. induction l as [|a l IH]; [inversion Hu|].
  simpl in Hp. destruct Hp as [Ha Hp]. apply NoDup_cons in Hnd as [Hal Hnd].
  apply elem_of_cons in Hu as [->|Hu]; [|auto].
  apply Hal. inversion Hc as [x y He|x y z He Ht]; subst.
  - auto.
  - eapply postorder_closed_tc; eauto.
Qed.

Lemma postorder_stands_before G l a b :
  postorder G (reverse l) → a ∈ l → edge G a b → stands_before l b a.
Proof.
  intros Hp Ha He.
  apply elem_of_reverse in Ha. apply list_elem_of_split in Ha as (k1 & k2 & Hk).
  rewrite Hk in Hp. apply postorder_app in Hp. simpl in Hp. destruct Hp as [Hs _].
  apply Hs in He. apply list_elem_of_split in He as (k3 & k4 & ->).
  exists (reverse k4), (reverse k3), (reverse k1).
  rewrite <- (reverse_involutive l), Hk.
  rewrite reverse_app, reverse_cons, reverse_app, reverse_cons.
  by rewrite <- !app_assoc.
Qed.

(** The scan of the successors. *)
Lemma scan_Some seen explored succs : ∀ acc new_nodes,
  nx.scan seen explored succs acc = Some new_nodes →
  new_nodes = acc ++ filter (λ n, n ∉ explored) succs
  ∧ ∀ n, n ∈ succs → n ∉ explored → n ∉ seen.
Proof.
  induction succs as [|n succs IH]; simpl; intros acc new_nodes H.
  - inversion H; subst. split; [by rewrite app_nil_r|]. intros n Hn. inversion Hn.
  - case_bool_decide as He.
    + apply IH in H as [-> Hs]. split.
      * by rewrite filter_cons_False by tauto.
      * intros m Hm Hne. apply elem_of_cons in Hm as [->|Hm]; [done|auto].
    + case_bool_decide as Hseen; [done|]. apply IH in H as [-> Hs]. split.
      * rewrite filter_cons_True by done. by rewrite <- app_assoc.
      * intros m Hm Hne. apply elem_of_cons in Hm as [->|Hm]; [done|auto].
Qed.

Lemma scan_None seen explored succs : ∀ acc,
  nx.scan seen explored succs acc = None →
  ∃ n, n ∈ succs ∧ (n ∉ explored) ∧ n ∈ seen.
Proof.
  induction succs as [|n succs IH]; simpl; intros acc H; [done|].
  case_bool_decide as He.
  - apply IH in H as (m & ? & ? & ?). exists m. split; [by right|done].
  - case_bool_decide as Hseen.
    + exists n. split; [left|done].
    + apply IH in H as (m & ? & ? & ?). exists m. split; [by right|done].
Qed.

Lemma white_weight_mono G l (s1 s2 : gset string) :
  s1 ⊆ s2 → (white_weight G l s2 ≤ white_weight G l s1)%nat.
Proof.
  intros Hsub. induction l as [|x l IH]; simpl; [lia|].
  repeat case_bool_decide; try lia. set_solver.
Qed.

Lemma white_weight_see G l (s : gset string) w :
  w ∈ l → w ∉ s →
  (white_weight G l ({[w]} ∪ s) + S (length (nx.successors G w)) ≤ white_weight G l s)%nat.
Proof.
  intros Hw Hs. induction l as [|x l IH]; [inversion Hw|]. simpl.
  apply elem_of_cons in Hw as [<-|Hw].
  - pose proof (white_weight_mono G l s ({[w]} ∪ s)) as Hm.
    rewrite bool_decide_true by set_solver. rewrite (bool_decide_false (w ∈ s)) by done.
    assert (s ⊆ {[w]} ∪ s) by set_solver. specialize (Hm H). lia.
  - specialize (IH Hw). repeat case_bool_decide; try lia. set_solver.
Qed.

Lemma white_weight_empty G : white_weight G (nx.node G) ∅ = nx.size G.
Proof.
  unfold nx.size, white_weight. induction (nx.node G) as [|x l IH]; simpl; [done|].
  rewrite bool_decide_false by set_solver. rewrite IH. lia.
Qed.

Lemma inv_pop G st w below :
  dfs_inv G st (w :: below) → w ∈ nx.explored st → dfs_inv G st below.
Proof.
  intros [H1 H2 H3 H4 H5 H6 H7 H8 H9] Hw. split; try done.
  - intros x Hx. apply H6. by right.
  - intros g Hg Hng. specialize (H7 g Hg Hng).
    apply elem_of_cons in H7 as [->|H7]; done.
  - intros above g b Heq Hg Hng Hna x Hx.
    apply (H8 (w :: above) g b); [by rewrite Heq|done|done| |by right].
    intros Hin. apply elem_of_cons in Hin as [->|Hin]; done.
  - intros above g b Heq Hg Hng Hna n Hn.
    destruct (H9 (w :: above) g b) with (n := n) as [?|Hin]; [by rewrite Heq|done|done| |done|by left|].
    + intros Hin. apply elem_of_cons in Hin as [->|Hin]; done.
    + apply elem_of_cons in Hin as [->|Hin]; [by left|by right].
Qed.

Lemma inv_explore G st w below :
  dfs_inv G st (w :: below) → w ∉ nx.explored st →
  (∀ n, edge G w n → n ∈ nx.explored st) →
  dfs_inv G
    {| nx.seen := {[w]} ∪ nx.seen st;
       nx.explored := {[w]} ∪ nx.explored st;
       nx.order := nx.order st ++ [w] |}
    below.
Proof.
  intros [H1 H2 H3 H4 H5 H6 H7 H8 H9] Hw Hsucc. split; simpl.
  - set_solver.
  - intros x Hx. apply elem_of_union in Hx as [Hx|Hx]; [|auto].
    apply elem_of_singleton in Hx as ->. apply H6. left.
  - intros x. rewrite elem_of_app, list_elem_of_singleton, H3. set_solver.
  - apply NoDup_app. split; [done|]. split; [|apply NoDup_singleton].
    intros x Hx Hxw. apply list_elem_of_singleton in Hxw as ->. by apply Hw, H3.
  - rewrite reverse_snoc. simpl. split; [|done].
    intros v Hv. apply elem_of_reverse, H3. auto.
  - intros x Hx. apply H6. by right.
  - intros g Hg Hng.
    assert (g ≠ w) by set_solver.
    assert (Hin : g ∈ w :: below) by (apply H7; set_solver).
    apply elem_of_cons in Hin as [->|Hin]; done.
  - intros above g b Heq Hg Hng Hna x Hx.
    assert (g ≠ w) by set_solver.
    apply (H8 (w :: above) g b); [by rewrite Heq|set_solver|set_solver| |by right].
    intros Hin. apply elem_of_cons in Hin as [->|Hin]; done.
  - intros above g b Heq Hg Hng Hna n Hn.
    assert (g ≠ w) by set_solver.
    destruct (H9 (w :: above) g b) with (n := n) as [?|Hin];
      [by rewrite Heq|set_solver|set_solver| |done|left; set_solver|].
    + intros Hin. apply elem_of_cons in Hin as [->|Hin]; done.
    + apply elem_of_cons in Hin as [->|Hin]; [left; set_solver|by right].
Qed.

Lemma inv_push G st w below new_nodes :
  graph_wf G →
  dfs_inv G st (w :: below) → w ∉ nx.explored st →
  new_nodes = filter (λ n, n ∉ nx.explored st) (nx.successors G w) →
  (∀ n, n ∈ nx.successors G w → n ∉ nx.explored st → n ∉ {[w]} ∪ nx.seen st) →
  dfs_inv G
    {| nx.seen := {[w]} ∪ nx.seen st;
       nx.explored := nx.explored st;
       nx.order := nx.order st |}
    (reverse new_nodes ++ w :: below).
Proof.
  intros Hwf [H1 H2 H3 H4 H5 H6 H7 H8 H9] Hw Hnew Hscan.
  assert (Hnew_in : ∀ x, x ∈ reverse new_nodes →
            edge G w x ∧ (x ∉ nx.explored st) ∧ (x ∉ {[w]} ∪ nx.seen st)).
  { intros x Hx. rewrite elem_of_reverse in Hx. rewrite Hnew in Hx.
    apply list_elem_of_filter in Hx as [Hx1 Hx2]. split; [done|]. split; [done|].
    by apply Hscan. }
  (* how a split of the new fringe at a gray node relates to the old one *)
  assert (Hsplit : ∀ above g b,
            reverse new_nodes ++ w :: below = above ++ g :: b →
            g ∈ {[w]} ∪ nx.seen st → g ∉ above →
            (g = w ∧ above = reverse new_nodes)
            ∨ (g ≠ w ∧ ∃ l', above = reverse new_nodes ++ w :: l'
                            ∧ w :: below = (w :: l') ++ g :: b)).
  { intros above g b Heq Hg Hna.
    apply app_eq_app in Heq as [l [[Ha Hb]|[Ha Hb]]].
    - (* the split falls inside the new nodes *)
      destruct l as [|x l].
      + rewrite app_nil_r in Ha. simpl in Hb. inversion Hb; subst. by left.
      + simpl in Hb. inversion Hb; subst x.
        exfalso. destruct (Hnew_in g) as (_ & _ & Hns); [|done].
        rewrite Ha. apply elem_of_app. right. left.
    - destruct l as [|x l].
      + rewrite app_nil_r in Ha. simpl in Hb. inversion Hb; subst. by left.
      + simpl in Hb. inversion Hb; subst x. right. split.
        * intros ->. apply Hna. rewrite Ha. apply elem_of_app. right. left.
        * exists l. by rewrite Ha. }
  split; simpl; try done.
  - set_solver.
  - intros x Hx. apply elem_of_app in Hx as [Hx|Hx]; [|auto].
    destruct (Hnew_in x Hx) as (He & _). by apply (Hwf w x).
  - intros g Hg Hng. apply elem_of_app. right.
    apply elem_of_union in Hg as [Hg|Hg]; [apply elem_of_singleton in Hg as ->; left|].
    by apply H7.
  - intros above g b Heq Hg Hng Hna x Hx.
    destruct (Hsplit above g b Heq Hg Hna) as [[-> ->]|[Hne (l' & -> & Hold)]].
    + apply tc_once. by apply Hnew_in.
    + assert (Hgs : g ∈ nx.seen st) by set_solver.
      assert (Hgl : g ∉ w :: l').
      { intros Hin. apply Hna. apply elem_of_app. by right. }
      apply elem_of_app in Hx as [Hx|Hx].
      * eapply tc_r; [|apply (Hnew_in x Hx)].
        apply (H8 (w :: l') g b Hold Hgs Hng Hgl). left.
      * by apply (H8 (w :: l') g b Hold Hgs Hng Hgl).
  - intros above g b Heq Hg Hng Hna n Hn.
    destruct (Hsplit above g b Heq Hg Hna) as [[-> ->]|[Hne (l' & -> & Hold)]].
    + destruct (decide (n ∈ nx.explored st)) as [?|Hnn]; [by left|]. right.
      apply elem_of_reverse. rewrite Hnew. by apply list_elem_of_filter.
    + assert (Hgs : g ∈ nx.seen st) by set_solver.
      assert (Hgl : g ∉ w :: l').
      { intros Hin. apply Hna. apply elem_of_app. by right. }
      destruct (H9 (w :: l') g b Hold Hgs Hng Hgl n Hn) as [?|Hin]; [by left|].
      right. apply elem_of_app. by right.
Qed.

Lemma inv_start G st v :
  dfs_inv G st [] → v ∈ nx.node G → dfs_inv G st [v].
Proof.
  intros [H1 H2 H3 H4 H5 H6 H7 H8 H9] Hv.
  assert (Hgray : ∀ g, g ∈ nx.seen st → g ∉ nx.explored st → False).
  { intros g Hg Hng. specialize (H7 g Hg Hng). inversion H7. }
  split; try done.
  - intros x Hx. by apply list_elem_of_singleton in Hx as ->.
  - intros g Hg Hng. destruct (Hgray g Hg Hng).
  - intros above g b _ Hg Hng. destruct (Hgray g Hg Hng).
  - intros above g b _ Hg Hng. destruct (Hgray g Hg Hng).
Qed.

Lemma inv_initial G :
  dfs_inv G {| nx.seen := ∅; nx.explored := ∅; nx.order := [] |} [].
Proof.
  split; simpl.
  - done.
  - set_solver.
  - intros x. rewrite elem_of_nil. set_solver.
  - apply NoDup_nil_2.
  - done.
  - intros x Hx. inversion Hx.
  - set_solver.
  - intros above g b Heq. by destruct above.
  - intros above g b Heq. by destruct above.
Qed.

(** The loop: it returns with everything on the fringe explored, or it
    raises and the graph has a cycle; it stops for want of budget only when
    the budget is below the fringe length plus the unseen weight. *)
Lemma visit_correct G :
  graph_wf G → ∀ fuel st fringe,
  dfs_inv G st fringe →
  match nx.visit fuel G st fringe with
  | Some (Returns st') =>
      dfs_inv G st' [] ∧ nx.explored st ⊆ nx.explored st'
      ∧ ∀ x, x ∈ fringe → x ∈ nx.explored st'
  | Some (Raises e) => e = NetworkXUnfeasible ∧ ∃ u, tc (edge G) u u
  | None => (fuel ≤ length fringe + white_weight G (nx.node G) (nx.seen st))%nat
  end.
Proof.
  intros Hwf. induction fuel as [|fuel IH]; intros st fringe Hinv; simpl; [lia|].
  destruct fringe as [|w below].
  { split; [done|]. split; [done|]. intros x Hx. inversion Hx. }
  case_bool_decide as Hexp.
  - (* the top is explored already: pop it *)
    specialize (IH st below (inv_pop _ _ _ _ Hinv Hexp)).
    destruct (nx.visit fuel G st below) as [[st'|e]|]; [|done|simpl; lia].
    destruct IH as (Hi & Hsub & Hall). split; [done|]. split; [done|].
    intros x Hx. apply elem_of_cons in Hx as [->|Hx]; [set_solver|auto].
  - destruct (nx.scan ({[w]} ∪ nx.seen st) (nx.explored st) (nx.successors G w) [])
      as [new_nodes|] eqn:Hscan.
    + apply scan_Some in Hscan as [Hnew Hfresh]. simpl in Hnew.
      destruct new_nodes as [|n0 new'].
      * (* no unexplored successor: w is explored *)
        assert (Hsucc : ∀ n, edge G w n → n ∈ nx.explored st).
        { intros n Hn. destruct (decide (n ∈ nx.explored st)) as [|Hnn]; [done|].
          assert (Hin : n ∈ filter (λ n, n ∉ nx.explored st) (nx.successors G w))
            by by apply list_elem_of_filter.
          rewrite <- Hnew in Hin. inversion Hin. }
        pose proof (inv_explore _ _ _ _ Hinv Hexp Hsucc) as Hinv'.
        specialize (IH _ below Hinv').
        destruct (nx.visit fuel G _ below) as [[st'|e]|]; [|done|].
        -- destruct IH as (Hi & Hsub & Hall). simpl in Hsub.
           split; [done|]. split; [set_solver|].
           intros x Hx. apply elem_of_cons in Hx as [->|Hx]; [set_solver|auto].
        -- simpl in IH. simpl.
           pose proof (white_weight_mono G (nx.node G) (nx.seen st) ({[w]} ∪ nx.seen st)) as Hm.
           assert (nx.seen st ⊆ {[w]} ∪ nx.seen st) by set_solver. specialize (Hm H). lia.
      * (* new nodes go on the fringe; w was not seen before *)
        assert (Hws : w ∉ nx.seen st).
        { intros Hws.
          assert (Hin : n0 ∈ filter (λ n, n ∉ nx.explored st) (nx.successors G w))
            by (rewrite <- Hnew; left).
          apply list_elem_of_filter in Hin as [Hn1 Hn2].
          destruct (inv_gray_succ _ _ _ Hinv [] w below eq_refl Hws Hexp) with (n := n0)
            as [?|Hin]; [apply not_elem_of_nil|done|done|inversion Hin]. }
        pose proof (inv_push _ _ _ _ _ Hwf Hinv Hexp Hnew Hfresh) as Hinv'.
        specialize (IH _ _ Hinv').
        destruct (nx.visit fuel G _ (reverse (n0 :: new') ++ w :: below)) as [[st'|e]|];
          [|done|].
        -- destruct IH as (Hi & Hsub & Hall). simpl in Hsub.
           split; [done|]. split; [done|].
           intros x Hx. apply Hall. apply elem_of_app. by right.
        -- simpl in IH. simpl.
           rewrite length_app, length_reverse in IH. simpl in IH.
           assert (Hw : w ∈ nx.node G) by (apply (inv_fringe_nodes _ _ _ Hinv); left).
           pose proof (white_weight_see G (nx.node G) (nx.seen st) w Hw Hws) as Hsee.
           pose proof (length_filter (λ n, n ∉ nx.explored st) (nx.successors G w)) as Hlen.
           rewrite <- Hnew in Hlen. simpl in Hlen. lia.
    + (* a successor is gray: the library raises *)
      split; [done|]. apply scan_None in Hscan as (n & Hn & Hnexp & Hnseen).
      apply elem_of_union in Hnseen as [Hnw|Hnseen].
      * apply elem_of_singleton in Hnw as ->. exists w. by apply tc_once.
      * pose proof (inv_gray_fringe _ _ _ Hinv n Hnseen Hnexp) as Hin.
        apply list_elem_of_split_l in Hin as (above & b & Heq & Hna).
        exists n. eapply tc_r; [|exact Hn].
        destruct above as [|a above].
        -- simpl in Heq. inversion Heq; subst. by apply tc_once.
        -- simpl in Heq. inversion Heq; subst a below.
           apply (inv_gray_path _ _ _ Hinv (w :: above) n b eq_refl Hnseen Hnexp Hna).
           left.
Qed.

Lemma visit_all_correct G :
  graph_wf G → ∀ nbunch st,
  dfs_inv G st [] → (∀ v, v ∈ nbunch → v ∈ nx.node G) →
  match nx.visit_all (nx.budget G) G st nbunch with
  | Some (Returns st') =>
      dfs_inv G st' [] ∧ nx.explored st ⊆ nx.explored st'
      ∧ ∀ v, v ∈ nbunch → v ∈ nx.explored st'
  | Some (Raises e) => e = NetworkXUnfeasible ∧ ∃ u, tc (edge G) u u
  | None => False
  end.
Proof.
  intros Hwf. induction nbunch as [|v rest IH]; intros st Hinv Hnodes;
    cbn [nx.visit_all].
  { split; [done|]. split; [done|]. intros x Hx. inversion Hx. }
  assert (Hrest : ∀ x, x ∈ rest → x ∈ nx.node G) by (intros x Hx; apply Hnodes; by right).
  case_bool_decide as Hexp.
  - specialize (IH st Hinv Hrest).
    destruct (nx.visit_all (nx.budget G) G st rest) as [[st'|e]|]; [|done|done].
    destruct IH as (Hi & Hsub & Hall). split; [done|]. split; [done|].
    intros x Hx. apply elem_of_cons in Hx as [->|Hx]; [set_solver|auto].
  - assert (Hv : v ∈ nx.node G) by (apply Hnodes; left).
    pose proof (visit_correct G Hwf (nx.budget G) st [v] (inv_start _ _ _ Hinv Hv)) as Hvis.
    destruct (nx.visit (nx.budget G) G st [v]) as [[st1|e]|]; [|exact Hvis|].
    + destruct Hvis as (Hi1 & Hsub1 & Hall1).
      specialize (IH st1 Hi1 Hrest).
      destruct (nx.visit_all (nx.budget G) G st1 rest) as [[st'|e]|]; [|done|done].
      destruct IH as (Hi & Hsub & Hall). split; [done|]. split; [set_solver|].
      intros x Hx. apply elem_of_cons in Hx as [->|Hx]; [|auto].
      apply Hsub, Hall1. left.
    + simpl in Hvis. unfold nx.budget in Hvis.
      pose proof (white_weight_mono G (nx.node G) ∅ (nx.seen st)) as Hm.
      rewrite white_weight_empty in Hm.
      assert (∅ ⊆ nx.seen st) by set_solver. specialize (Hm H). lia.
Qed.

(** What [topological_sort(G, reverse=True)] delivers: a duplicate-free
    listing of the nodes in which every node comes after its successors,
    or [NetworkXUnfeasible] on a graph with a cycle. The budget is never
    exhausted. *)
Lemma topological_sort_spec G :
  graph_wf G →
  match nx.topological_sort G true with
  | Some (Returns l) =>
      NoDup l ∧ (∀ x, x ∈ l ↔ x ∈ nx.node G) ∧ postorder G (reverse l)
  | Some (Raises e) => e = NetworkXUnfeasible ∧ ∃ u, tc (edge G) u u
  | None => False
  end.
Proof.
  intros Hwf. unfold nx.topological_sort, nx.topological_sort_fuel.
  pose proof (visit_all_correct G Hwf (nx.node G) _ (inv_initial G) (λ v H, H)) as Hall.
  destruct (nx.visit_all _ G _ (nx.node G)) as [[st|e]|]; [|done|done].
  destruct Hall as (Hinv & _ & Hall). split; [apply (inv_nodup _ _ _ Hinv)|].
  split; [|apply (inv_post _ _ _ Hinv)].
  intros x. rewrite (inv_order _ _ _ Hinv). split; [|auto].
  apply (inv_explored_nodes _ _ _ Hinv).
Qed.

(** A graph on which the sort returns has no cycle. *)
Lemma topological_sort_acyclic G l :
  graph_wf G → nx.topological_sort G true = Some (Returns l) →
  ∀ u, ¬ tc (edge G) u u.
Proof.
  intros Hwf Hl. pose proof (topological_sort_spec G Hwf) as Hs. rewrite Hl in Hs.
  destruct Hs as (Hnd & Hin & Hp).
  apply (postorder_acyclic G (reverse l)); [|by rewrite reverse_Permutation|done].
  intros u v He. apply elem_of_reverse, Hin. by apply (Hwf u v).
Qed.

(** ** Correctness of [descendants] and [ancestors] *)

Section reach.
Variable next : string → list string.

Let step (u v : string) : Prop := v ∈ next u.

Lemma elem_of_expand (S : gset string) x :
  x ∈ nx.expand next S ↔ x ∈ S ∨ ∃ u, u ∈ S ∧ x ∈ next u.
Proof.
  unfold nx.expand. rewrite elem_of_union, elem_of_union_list. split.
  - intros [?|(X & HX & Hx)]; [by left|]. right.
    apply list_elem_of_fmap in HX as (u & -> & Hu).
    exists u. split; [by apply elem_of_elements|by apply elem_of_list_to_set in Hx].
  - intros [?|(u & Hu & Hx)]; [by left|]. right.
    exists (list_to_set (next u)). split; [|by apply elem_of_list_to_set].
    apply list_elem_of_fmap. exists u. split; [done|by apply elem_of_elements].
Qed.

Lemma closed_rtc (S : gset string) s x : closed next S → s ∈ S → rtc step s x → x ∈ S.
Proof.
  intros Hc Hs Hr. induction Hr as [|a b c Hab _ IH]; [done|].
  apply IH. by apply (Hc a b).
Qed.

Lemma expand_closed (S : gset string) : closed next S → nx.expand next S = S.
Proof.
  intros Hc. apply set_eq. intros x. rewrite elem_of_expand. split; [|tauto].
  intros [?|(u & Hu & Hx)]; [done|]. by apply (Hc u x).
Qed.

(** Once the set is closed, or when the rounds left cover what the
    universe [U] can still add, [reach] computes the reachable set. *)
Lemma reach_spec (U : gset string) : closed next U → ∀ n (S : gset string),
  S ⊆ U → closed next S ∨ (size U ≤ size S + n)%nat →
  ∀ x, x ∈ nx.reach n next S ↔ ∃ s, s ∈ S ∧ rtc step s x.
Proof.
  intros HU. induction n as [|n IH]; intros S HS HJ x; simpl.
  - assert (Hc : closed next S).
    { destruct HJ as [?|Hsz]; [done|].
      assert (S = U) as ->; [|done].
      apply set_subseteq_size_eq; [done|lia]. }
    split.
    + intros Hx. exists x. split; [done|apply rtc_refl].
    + intros (s & Hs & Hr). by apply (closed_rtc S s x).
  - rewrite IH.
    + split.
      * intros (s' & Hs' & Hr). apply elem_of_expand in Hs' as [?|(u & Hu & Hs')].
        -- by exists s'.
        -- exists u. split; [done|]. by apply (rtc_l _ u s' x).
      * intros (s & Hs & Hr). exists s. split; [|done].
        apply elem_of_expand. by left.
    + intros y Hy. apply elem_of_expand in Hy as [?|(u & Hu & Hy)]; [set_solver|].
      apply (HU u y); set_solver.
    + destruct HJ as [Hc|Hsz].
      { left. by rewrite expand_closed. }
      destruct (decide (nx.expand next S ⊆ S)) as [Hsub|Hnsub].
      * left. assert (Hc : closed next S).
        { intros u v Hu Hv. apply Hsub, elem_of_expand. right. by exists u. }
        by rewrite expand_closed.
      * right. assert (S ⊂ nx.expand next S).
        { split; [|done]. intros y Hy. apply elem_of_expand. by left. }
        apply subset_size in H. lia.
Qed.
End reach.

Lemma size_list_to_set_le (l : list string) :
  (size (list_to_set l : gset string) ≤ length l)%nat.
Proof.
  induction l as [|x l IH].
  - change (size (∅ : gset string) ≤ 0)%nat. by rewrite size_empty.
  - change (size ({[x]} ∪ list_to_set l : gset string) ≤ S (length l))%nat.
    rewrite size_union_alt, size_singleton.
    assert (size (list_to_set l ∖ {[x]} : gset string) ≤ size (list_to_set l : gset string))%nat
      by (apply subseteq_size; set_solver).
    lia.
Qed.

(** [reach] along a relation on the nodes, from a single source. *)
Lemma reach_from_source G next source :
  (∀ u v, v ∈ next u → u ∈ nx.node G ∧ v ∈ nx.node G) →
  ∀ x, x ∈ nx.reach (length (nx.node G)) next {[source]} ↔
       rtc (λ u v, v ∈ next u) source x.
Proof.
  intros Hnext x.
  destruct (decide (source ∈ nx.node G)) as [Hs|Hs].
  - rewrite (reach_spec next (list_to_set (nx.node G))).
    + split; [intros (s & Hs' & Hr)|intros Hr; exists source].
      * by apply elem_of_singleton in Hs' as ->.
      * split; [by apply elem_of_singleton|done].
    + intros u v _ Hv. apply elem_of_list_to_set. by apply (Hnext u v).
    + intros y Hy. apply elem_of_singleton in Hy as ->. by apply elem_of_list_to_set.
    + right. rewrite size_singleton. pose proof (size_list_to_set_le (nx.node G)). lia.
  - rewrite (reach_spec next ({[source]} ∪ list_to_set (nx.node G))).
    + split; [intros (s & Hs' & Hr)|intros Hr; exists source].
      * by apply elem_of_singleton in Hs' as ->.
      * split; [by apply elem_of_singleton|done].
    + intros u v _ Hv. apply elem_of_union. right. apply elem_of_list_to_set.
      by apply (Hnext u v).
    + set_solver.
    + left. intros u v Hu Hv. apply elem_of_singleton in Hu as ->.
      destruct Hs. by apply (Hnext source v).
Qed.

Lemma predecessors_spec G u v :
  graph_wf G → u ∈ nx.predecessors G v ↔ edge G u v.
Proof.
  intros Hwf. unfold nx.predecessors. rewrite list_elem_of_filter. split; [tauto|].
  intros He. split; [done|]. by apply (Hwf u v).
Qed.

Lemma rtc_predecessors G s x :
  graph_wf G →
  rtc (λ u v, v ∈ nx.predecessors G u) s x ↔ rtc (edge G) x s.
Proof.
  intros Hwf. split.
  - induction 1 as [|a b c Hab _ IH]; [apply rtc_refl|].
    eapply rtc_r; [exact IH|]. by apply predecessors_spec in Hab.
  - induction 1 as [|a b c Hab _ IH]; [apply rtc_refl|].
    eapply rtc_r; [exact IH|]. by apply predecessors_spec.
Qed.

(** [descendants]: what a node reaches along one or more edges, itself
    excluded. *)
Lemma descendants_spec G source x :
  graph_wf G →
  x ∈ nx.descendants G source ↔ tc (edge G) source x ∧ x ≠ source.
Proof.
  intros Hwf. unfold nx.descendants.
  rewrite elem_of_difference, elem_of_singleton, reach_from_source.
  - fold (edge G). rewrite rtc_tc. split; [|tauto].
    intros [[->|?] ?]; [done|tauto].
  - intros u v Hv. by apply (Hwf u v).
Qed.

(** [ancestors]: the nodes that reach it along one or more edges. *)
Lemma ancestors_spec G source x :
  graph_wf G →
  x ∈ nx.ancestors G source ↔ tc (edge G) x source ∧ x ≠ source.
Proof.
  intros Hwf. unfold nx.ancestors.
  rewrite elem_of_difference, elem_of_singleton, reach_from_source.
  - rewrite rtc_predecessors by done. rewrite rtc_tc. split; [|tauto].
    intros [[->|?] ?]; [done|tauto].
  - intros u v Hv. apply predecessors_spec in Hv; [|done].
    destruct (Hwf v u Hv). tauto.
Qed.

(** ** The constructor *)

Lemma Linter_init_total checks_module commit_message exclude :
  Linter_init checks_module commit_message exclude ≠ None.
Proof.
  unfold Linter_init.
  pose proof (topological_sort_spec _ (build_dag_wf (get_checks checks_module))) as Hs.
  destruct (nx.topological_sort _ true) as [[l|e]|]; [done| |done].
  by destruct e.
Qed.

Lemma Linter_init_Returns checks_module commit_message excl L :
  Linter_init checks_module commit_message excl = Some (Returns L) →
  linter_for checks_module L
  ∧ skip L = load_skips commit_message
  ∧ exclude L = default [] excl
  ∧ _messages L = [].
Proof.
  unfold Linter_init.
  destruct (nx.topological_sort _ true) as [[l|e]|] eqn:Hsort; [| |done].
  - intros H. inversion H; subst; clear H. simpl. by repeat split.
  - by destruct e.
Qed.

Lemma linter_for_wf checks_module L : linter_for checks_module L → graph_wf (checks_dag L).
Proof. intros [-> _ _]. apply build_dag_wf. Qed.

Lemma tc_requires_edge registry a b :
  tc (requires_in registry) a b ↔ tc (edge (build_dag registry)) a b.
Proof.
  split; induction 1 as [x y H|x y z H _ IH].
  - apply tc_once. by apply build_dag_edge.
  - eapply tc_l; [|exact IH]. by apply build_dag_edge.
  - apply tc_once. by apply build_dag_edge.
  - eapply tc_l; [|exact IH]. by apply build_dag_edge.
Qed.

(** The constructor succeeds exactly on registries without a cycle. *)
Lemma Linter_init_acyclic checks_module commit_message exclude :
  (∀ a, ¬ tc (requires_in (get_checks checks_module)) a a) →
  ∃ L, Linter_init checks_module commit_message exclude = Some (Returns L).
Proof.
  intros Hac. unfold Linter_init.
  pose proof (topological_sort_spec _ (build_dag_wf (get_checks checks_module))) as Hs.
  destruct (nx.topological_sort _ true) as [[l|e]|]; [by eexists| |done].
  destruct Hs as [_ [u Hu]]. destruct (Hac u). by apply tc_requires_edge.
Qed.

(** ** The message list of a run *)

Lemma run_checks_set_messages L ms recipe ordered : ∀ checks_to_skip messages,
  run_checks (set_messages L ms) recipe ordered checks_to_skip messages
  = run_checks L recipe ordered checks_to_skip messages.
Proof.
  induction ordered as [|check rest IH]; intros checks_to_skip messages; simpl; [done|].
  case_bool_decide; [done|].
  unfold run_instance. simpl. destruct (check_instances L !! check) as [inst|]; [|done].
  destruct (run inst recipe) as [res|e]; [|done]. apply IH.
Qed.

Lemma lint_recipe_set_messages env L ms recipe_name :
  lint_recipe env (set_messages L ms) recipe_name = lint_recipe env L recipe_name.
Proof.
  unfold lint_recipe, lint_one. destruct (from_file env recipe_name); try done.
  by rewrite run_checks_set_messages.
Qed.

Lemma lint_fold env names : ∀ L,
  foldl (lint_step env) L names
  = set_messages L (_messages L ++ flat_map (lint_recipe env L) names).
Proof.
  induction names as [|n names IH]; intros L; simpl.
  - rewrite app_nil_r. by destruct L.
  - rewrite IH. unfold lint_step. simpl.
    rewrite <- app_assoc. f_equal. f_equal. f_equal.
    apply flat_map_ext. intros a. apply lint_recipe_set_messages.
Qed.

Lemma lint_messages env L recipe_names :
  _messages (fst (lint env L recipe_names)) = _messages L ++ run_messages env L recipe_names.
Proof. unfold lint. simpl. by rewrite lint_fold. Qed.

Lemma lint_verdict env L recipe_names :
  snd (lint env L recipe_names)
  = existsb is_error (_messages L ++ run_messages env L recipe_names).
Proof. unfold lint. simpl. by rewrite lint_fold. Qed.

Lemma lint_linter_for env checks_module L recipe_names :
  linter_for checks_module L → linter_for checks_module (fst (lint env L recipe_names)).
Proof.
  intros [H1 H2 H3]. unfold lint. simpl. rewrite lint_fold. by split.
Qed.

(** ** The execution order *)

(** C3 — [Linter.__init__] computes an order of all registered checks in
    which every check stands strictly after each check it requires: the
    order lists every registered check, has no duplicates, and a required
    check [B] stands before the check [A] requiring it. The order is stored
    in [checks_ordered]; [lint] leaves it unchanged and the check loop of
    [lint_one] runs over it for every loaded recipe. *)
Theorem checks_ordered_respects_requires
    checks_module commit_message excl L :
  Linter_init checks_module commit_message excl = Some (Returns L) →
  NoDup (checks_ordered L)
  ∧ (∀ check, check ∈ get_checks checks_module → name check ∈ checks_ordered L)
  ∧ (∀ A B, A ∈ get_checks checks_module → B ∈ requires A →
            stands_before (checks_ordered L) B (name A))
  ∧ (∀ env recipe_names,
       checks_ordered (fst (lint env L recipe_names)) = checks_ordered L)
  ∧ (∀ env recipe_name recipe,
       from_file env recipe_name = Loaded recipe →
       lint_one env L recipe_name
       = run_checks L recipe (checks_ordered L)
                    (fst (collect_skips L recipe_name recipe)) []).
Proof.
  intros Hinit. apply Linter_init_Returns in Hinit as ([Hdag Hord Hinst] & _).
  pose proof (topological_sort_spec _ (build_dag_wf (get_checks checks_module))) as Hs.
  rewrite Hdag in Hord. rewrite Hord in Hs. destruct Hs as (Hnd & Hin & Hpost).
  split; [done|]. split; [|split; [|split]].
  - intros check Hc. apply Hin. by apply build_dag_nodes.
  - intros A B HA HB. apply (postorder_stands_before (build_dag (get_checks checks_module))).
    + done.
    + apply Hin. by apply build_dag_nodes.
    + apply build_dag_edge. by exists A.
  - intros env recipe_names. unfold lint. simpl. by rewrite lint_fold.
  - intros env recipe_name recipe Hload. unfold lint_one. by rewrite Hload.
Qed.

Lemma checks_ordered_respects_requires_witness :
  let L := Sample.linter [Sample.A; Sample.B] "" None in
  Linter_init [Sample.A; Sample.B] "" None = Some (Returns L)
  ∧ stands_before (checks_ordered L) "B" "A".
Proof.
  intros L.
  assert (Hinit : Linter_init [Sample.A; Sample.B] "" None = Some (Returns L))
    by (vm_compute; reflexivity).
  split; [exact Hinit|].
  destruct (checks_ordered_respects_requires _ _ _ _ Hinit) as (_ & _ & Hbefore & _).
  apply (Hbefore Sample.A "B").
  - unfold get_checks. apply elem_of_app. right. left.
  - left.
Defined.

(** ** Cycles *)

(** C6 — when the requirement relation of the registered checks has a
    cycle, [Linter.__init__] raises and no linter exists (the handler's
    [raise RunTimeError(...)] surfaces as a [NameError]); [lint_one] never
    raises such an error, whatever the linter and the recipe. *)
Theorem cycle_fails_construction checks_module commit_message excl :
  (∃ a, tc (requires_in (get_checks checks_module)) a a) →
  Linter_init checks_module commit_message excl = Some (Raises (NameError "RunTimeError"))
  ∧ ∀ env L recipe_name,
      lint_one env L recipe_name ≠ Raises (NameError "RunTimeError")
      ∧ lint_one env L recipe_name ≠ Raises NetworkXUnfeasible.
Proof.
  intros [a Ha]. split.
  - unfold Linter_init.
    pose proof (build_dag_wf (get_checks checks_module)) as Hwf.
    pose proof (topological_sort_spec _ Hwf) as Hs.
    destruct (nx.topological_sort _ true) as [[l|e]|] eqn:Hsort; [|by destruct Hs as [-> _]|done].
    destruct (topological_sort_acyclic _ l Hwf Hsort a). by apply tc_requires_edge.
  - intros env L recipe_name. unfold lint_one.
    destruct (from_file env recipe_name) as [recipe|exc line|]; [|done|done].
    generalize (fst (collect_skips L recipe_name recipe)) ([] : list LintMessage).
    induction (checks_ordered L) as [|check rest IH]; intros checks_to_skip messages; simpl.
    + done.
    + case_bool_decide; [apply IH|].
      destruct (run_instance L check recipe) as [res|e]; [apply IH|done].
Qed.

Lemma cycle_fails_construction_witness :
  Linter_init [Sample.P; Sample.Q] "" None = Some (Raises (NameError "RunTimeError")).
Proof.
  apply (cycle_fails_construction [Sample.P; Sample.Q] "" None).
  exists "P". apply (tc_l _ "P" "Q" "P"); [|apply tc_once].
  - exists Sample.P. split; [|split; [reflexivity|left]].
    unfold get_checks. apply elem_of_app. right. left.
  - exists Sample.Q. split; [|split; [reflexivity|left]].
    unfold get_checks. apply elem_of_app. right. right. left.
Defined.

(** ** Where messages come from *)

Lemma instantiate_lookup registry n inst :
  instantiate registry !! n = Some inst → inst ∈ registry ∧ name inst = n.
Proof.
  unfold instantiate. induction registry as [|c l IH] using rev_ind; simpl.
  - by rewrite lookup_empty.
  - rewrite foldl_snoc. destruct (decide (name c = n)) as [<-|Hne].
    + rewrite lookup_insert_eq. intros [= <-]. split; [|done].
      apply elem_of_app. right. left.
    + rewrite lookup_insert_ne by done. intros H. destruct (IH H). split; [|done].
      apply elem_of_app. by left.
Qed.

Lemma own_checks_registered checks_module e :
  recipe_error_to_lint_check e ∈ get_checks checks_module.
Proof.
  unfold get_checks. apply elem_of_app. left. unfold own_checks.
  destruct e; simpl; set_solver.
Qed.

Lemma make_message_check cls recipe section fname line :
  msg_check (make_message cls recipe section fname line) = ByClass cls.
Proof.
  unfold make_message. destruct (partition_newline _).
  destruct (truthy section); [destruct (get_raw_range recipe _) as [[[[? ?] ?] ?]|]|];
    reflexivity.
Qed.

Lemma make_message_severity cls recipe section fname line :
  msg_severity (make_message cls recipe section fname line) = severity cls.
Proof.
  unfold make_message. destruct (partition_newline _).
  destruct (truthy section); [destruct (get_raw_range recipe _) as [[[[? ?] ?] ?]|]|];
    reflexivity.
Qed.

Lemma make_message_issued registry cls recipe section fname line :
  cls ∈ registry → issued_by registry (make_message cls recipe section fname line).
Proof.
  intros Hin. exists cls. split; [done|].
  split; [apply make_message_check|apply make_message_severity].
Qed.

Lemma run_issued registry inst recipe res :
  inst ∈ registry → run inst recipe = Returns res → Forall (issued_by registry) res.
Proof.
  unfold run. intros Hin. destruct (hooks inst recipe) as [calls|]; [|done].
  intros [= <-]. apply Forall_forall. intros m Hm.
  apply list_elem_of_In, in_map_iff in Hm as (c & <- & _).
  by apply make_message_issued.
Qed.

Lemma run_checks_issued checks_module L recipe ordered :
  linter_for checks_module L → ∀ checks_to_skip messages ms,
  Forall (issued_by (get_checks checks_module)) messages →
  run_checks L recipe ordered checks_to_skip messages = Returns ms →
  Forall (issued_by (get_checks checks_module)) ms.
Proof.
  intros HL. induction ordered as [|check rest IH]; simpl;
    intros checks_to_skip messages ms Hmsgs Hrun.
  - by inversion Hrun; subst.
  - case_bool_decide; [by eapply IH|].
    destruct (run_instance L check recipe) as [res|e] eqn:Hres; [|done].
    eapply IH; [|exact Hrun]. apply Forall_app. split; [done|].
    unfold run_instance in Hres. rewrite (lf_instances _ _ HL) in Hres.
    destruct (instantiate _ !! check) as [inst|] eqn:Hinst; [|done].
    apply instantiate_lookup in Hinst as [Hin _]. by eapply run_issued.
Qed.

Lemma lint_recipe_issued checks_module env L recipe_name :
  linter_for checks_module L →
  Forall (issued_by (get_checks checks_module)) (lint_recipe env L recipe_name).
Proof.
  intros HL. unfold lint_recipe.
  destruct (lint_one env L recipe_name) as [msgs|e] eqn:Hone.
  - unfold lint_one in Hone.
    destruct (from_file env recipe_name) as [recipe|exc line|]; [| |done].
    + by eapply (run_checks_issued _ _ _ _ HL _ []).
    + inversion Hone; subst. apply Forall_cons. split; [|done].
      apply make_message_issued, own_checks_registered.
  - apply Forall_cons. split; [|done].
    apply make_message_issued, (own_checks_registered _ OtherRecipeError).
Qed.

(** C2 — every message that a call of [lint] produces, also for a recipe
    on which a check raised, names a registered check class as its issuer
    and has that class's declared severity. (The message that [lint_one]
    builds with a fixed [ERROR] when a hook raises is lost with the
    [TypeError] that follows it; what [lint] produces then is a
    [linter_failure] message.) *)
Theorem message_severity_is_issuer_severity
    checks_module env L recipe_names m :
  linter_for checks_module L →
  m ∈ run_messages env L recipe_names →
  ∃ cls, cls ∈ get_checks checks_module
         ∧ msg_check m = ByClass cls ∧ msg_severity m = severity cls.
Proof.
  intros HL Hm. unfold run_messages in Hm.
  apply list_elem_of_In, in_flat_map in Hm as (n & _ & Hm).
  pose proof (lint_recipe_issued checks_module env L n HL) as Hall.
  rewrite Forall_forall in Hall. apply Hall. by apply list_elem_of_In.
Qed.

Lemma Sample_linter_for checks_module commit_message excl L :
  Linter_init checks_module commit_message excl = Some (Returns L) →
  linter_for checks_module L.
Proof. intros H. by apply Linter_init_Returns in H as [? _]. Qed.

Lemma message_severity_is_issuer_severity_witness :
  let L := Sample.linter [Sample.bad; Sample.B] "" None in
  let m := make_message linter_failure (Sample.bare "bar") None None None in
  m ∈ run_messages Sample.env L ["bar"]
  ∧ ∃ cls, cls ∈ get_checks [Sample.bad; Sample.B]
           ∧ msg_check m = ByClass cls ∧ msg_severity m = severity cls.
Proof.
  intros L m.
  assert (Hm : m ∈ run_messages Sample.env L ["bar"]) by (vm_compute; left).
  split; [exact Hm|].
  apply (message_severity_is_issuer_severity _ Sample.env L ["bar"] m); [|exact Hm].
  apply (Sample_linter_for _ "" None). vm_compute. reflexivity.
Defined.

(** ** A check that raises *)

Lemma raising_check_raises_TypeError L recipe check rest checks_to_skip messages e :
  check ∉ checks_to_skip → run_instance L check recipe = Raises e →
  run_checks L recipe (check :: rest) checks_to_skip messages
  = Raises (TypeError "'bool' object is not iterable").
Proof.
  intros Hskip Hrun. simpl. rewrite bool_decide_false by done. by rewrite Hrun.
Qed.

(** C1 — with the checks [bad] (its hook raises) and [good] (unrelated,
    reports one message) registered, [lint_one] does not return the
    messages of the document: the [except] branch sets [res = True], the
    following [messages.extend(res)] raises [TypeError], and [good], which
    comes later in the order, is never run. [lint] then records a single
    [linter_failure] message for the recipe. *)
Theorem raising_check_aborts_document :
  let L := Sample.linter [Sample.bad; Sample.good] "" None in
  run_instance L "bad" Sample.recipe = Raises CheckError
  ∧ run_instance L "good" Sample.recipe
    = Returns [make_message Sample.good Sample.recipe None None None]
  ∧ lint_one Sample.env L "bar" = Raises (TypeError "'bool' object is not iterable")
  ∧ run_messages Sample.env L ["bar"]
    = [make_message linter_failure (Sample.bare "bar") None None None].
Proof. vm_compute. repeat split; reflexivity. Qed.

(** ** Excluding a check *)

(** C4 — with [B] (always reports) and [A] (requires [B]) registered:
    linting a recipe yields exactly [B]'s message, [A] being skipped after
    [B] failed; but with [A] in the exclude list nothing is reported, since
    the exclusion of [A] is propagated along [nx.descendants] to the check
    [B] that [A] requires. *)
Theorem excluding_dependent_skips_prerequisite :
  lint_one Sample.env (Sample.linter [Sample.A; Sample.B] "" None) "bar"
  = Returns [make_message Sample.B Sample.recipe None None None]
  ∧ fst (collect_skips (Sample.linter [Sample.A; Sample.B] "" (Some ["A"]))
                       "bar" Sample.recipe)
    = {["A"; "B"]}
  ∧ lint_one Sample.env (Sample.linter [Sample.A; Sample.B] "" (Some ["A"])) "bar"
    = Returns [].
Proof. vm_compute. repeat split; reflexivity. Qed.

(** ** Sorting the recipe names *)

Lemma ascii_compare_N a b :
  Ascii.compare a b = N.compare (N_of_ascii a) (N_of_ascii b).
Proof. reflexivity. Qed.

Lemma string_compare_trans_le s1 : ∀ s2 s3,
  String.compare s1 s2 ≠ Gt → String.compare s2 s3 ≠ Gt → String.compare s1 s3 ≠ Gt.
Proof.
  induction s1 as [|a s1 IH]; intros [|b s2] [|c s3]; simpl; try done.
  rewrite !ascii_compare_N.
  destruct (N.compare_spec (N_of_ascii a) (N_of_ascii b)) as [Hab|Hab|Hab];
    destruct (N.compare_spec (N_of_ascii b) (N_of_ascii c)) as [Hbc|Hbc|Hbc];
    destruct (N.compare_spec (N_of_ascii a) (N_of_ascii c)) as [Hac|Hac|Hac];
    try done; try lia.
  apply IH.
Qed.

Lemma str_le_trans a b c : str_le a b → str_le b c → str_le a c.
Proof.
  unfold str_le, String.leb. intros Hab Hbc.
  pose proof (string_compare_trans_le a b c) as Ht.
  destruct (String.compare a b); destruct (String.compare b c);
    destruct (String.compare a c); try done; exfalso; by apply Ht.
Qed.

Lemma insert_sorted_Permutation x l : Permutation (insert_sorted x l) (x :: l).
Proof.
  induction l as [|y l IH]; simpl; [done|].
  destruct (String.leb x y); [done|].
  rewrite IH. apply perm_swap.
Qed.

Lemma sorted_Permutation l : Permutation (sorted l) l.
Proof.
  induction l as [|x l IH]; simpl; [done|].
  rewrite insert_sorted_Permutation. by apply perm_skip.
Qed.

Lemma insert_sorted_StronglySorted x l :
  StronglySorted str_le l → StronglySorted str_le (insert_sorted x l).
Proof.
  induction 1 as [|y l Hl IH Hy]; simpl.
  - apply SSorted_cons; [apply SSorted_nil|done].
  - destruct (String.leb x y) eqn:Hxy.
    + apply SSorted_cons; [by apply SSorted_cons|].
      apply Forall_cons. split; [done|].
      eapply Forall_impl; [exact Hy|]. intros z Hz. by apply (str_le_trans x y z).
    + apply SSorted_cons; [done|].
      rewrite insert_sorted_Permutation. apply Forall_cons. split; [|done].
      destruct (String.leb_total x y) as [H|H]; [congruence|done].
Qed.

Lemma sorted_StronglySorted l : StronglySorted str_le (sorted l).
Proof.
  induction l as [|x l IH]; simpl; [apply SSorted_nil|].
  by apply insert_sorted_StronglySorted.
Qed.

Lemma StronglySorted_unique l1 : ∀ l2,
  StronglySorted str_le l1 → StronglySorted str_le l2 → Permutation l1 l2 → l1 = l2.
Proof.
  induction l1 as [|a l1 IH]; intros l2 H1 H2 Hp.
  - by apply Permutation_nil in Hp.
  - destruct l2 as [|b l2]; [by apply Permutation_sym, Permutation_nil in Hp|].
    apply StronglySorted_inv in H1 as [H1 Ha]. apply StronglySorted_inv in H2 as [H2 Hb].
    rewrite Forall_forall in Ha, Hb.
    assert (Hab : a = b).
    { assert (Hin1 : a ∈ b :: l2) by (rewrite <- Hp; left).
      assert (Hin2 : b ∈ a :: l1) by (rewrite Hp; left).
      apply elem_of_cons in Hin1 as [?|Hin1]; [done|].
      apply elem_of_cons in Hin2 as [?|Hin2]; [done|].
      apply String.leb_antisym; [by apply Ha|by apply Hb]. }
    subst b. f_equal. apply IH; [done|done|]. by apply Permutation_cons_inv in Hp.
Qed.

Lemma sorted_of_Permutation l1 l2 : Permutation l1 l2 → sorted l1 = sorted l2.
Proof.
  intros Hp. apply StronglySorted_unique; try apply sorted_StronglySorted.
  by rewrite !sorted_Permutation.
Qed.

(** C9 — [lint] walks the recipe names in ascending order of the names
    (the order of [sorted], a rearrangement of the input), whatever the
    order in which they were given: the messages it appends are those of
    the recipes in sorted order, and two calls whose name lists are
    permutations of each other give the same linter and verdict. *)
Theorem lint_processes_names_sorted env L recipe_names :
  StronglySorted str_le (sorted recipe_names)
  ∧ Permutation (sorted recipe_names) recipe_names
  ∧ _messages (fst (lint env L recipe_names))
    = _messages L ++ flat_map (lint_recipe env L) (sorted recipe_names)
  ∧ ∀ other, Permutation recipe_names other →
             lint env L recipe_names = lint env L other.
Proof.
  split; [apply sorted_StronglySorted|]. split; [apply sorted_Permutation|].
  split; [apply lint_messages|].
  intros other Hp. unfold lint. by rewrite (sorted_of_Permutation _ _ Hp).
Qed.

Lemma lint_processes_names_sorted_witness :
  let L := Sample.linter [Sample.good] "" None in
  sorted ["zeta"; "broken"; "bar"] = ["bar"; "broken"; "zeta"]
  ∧ lint Sample.env L ["zeta"; "broken"; "bar"] = lint Sample.env L ["bar"; "zeta"; "broken"].
Proof.
  intros L. split; [reflexivity|].
  destruct (lint_processes_names_sorted Sample.env L ["zeta"; "broken"; "bar"])
    as (_ & _ & _ & Hperm).
  apply Hperm. apply Permutation_sym, (Permutation_cons_app ["zeta"; "broken"] []).
  reflexivity.
Defined.

(** ** Accumulated messages and the verdict *)

Lemma is_error_spec m :
  is_error m = true ↔ (Severity_value ERROR ≤ Severity_value (msg_severity m))%Z.
Proof. unfold is_error. apply Z.leb_le. Qed.

Lemma existsb_is_error l :
  existsb is_error l = true ↔
  ∃ m, m ∈ l ∧ (Severity_value ERROR ≤ Severity_value (msg_severity m))%Z.
Proof.
  rewrite existsb_exists. split; intros (m & Hm & He); exists m.
  - split; [by apply list_elem_of_In|by apply is_error_spec].
  - split; [by apply list_elem_of_In|by apply is_error_spec].
Qed.

(** C10 — [lint] only appends to the linter's message list:
    [get_messages] after a call is the list before it followed by the
    messages of the call, so a second call returns the messages of both;
    [clear_messages] empties the list; and the verdict of a call is true as
    soon as the list held an [ERROR] message before the call. *)
Theorem lint_accumulates_messages env L names1 names2 :
  get_messages (fst (lint env L names1)) = get_messages L ++ run_messages env L names1
  ∧ get_messages (fst (lint env (fst (lint env L names1)) names2))
    = get_messages L ++ run_messages env L names1 ++ run_messages env L names2
  ∧ snd (lint env L names1)
    = (existsb is_error (get_messages L) || existsb is_error (run_messages env L names1))%bool
  ∧ get_messages (clear_messages L) = []
  ∧ get_messages (fst (lint env (clear_messages L) names1)) = run_messages env L names1.
Proof.
  unfold get_messages. split; [apply lint_messages|]. split; [|split; [|split]].
  - rewrite !lint_messages, <- app_assoc. f_equal. f_equal.
    unfold lint, run_messages. simpl. rewrite lint_fold.
    apply flat_map_ext. intros n. apply lint_recipe_set_messages.
  - by rewrite lint_verdict, existsb_app.
  - done.
  - rewrite lint_messages. simpl. unfold run_messages.
    apply flat_map_ext. intros n. apply lint_recipe_set_messages.
Qed.

(** C7 (as stated, refuted) — the verdict is not determined by the
    messages of the run alone: after a run that recorded an [ERROR]
    message, a run over no recipe at all produces no message and still
    returns true. *)
Lemma verdict_of_run_alone_counterexample :
  ¬ (∀ env L recipe_names,
       snd (lint env L recipe_names) = true ↔
       ∃ m, m ∈ run_messages env L recipe_names
            ∧ (Severity_value ERROR ≤ Severity_value (msg_severity m))%Z).
Proof.
  intros H.
  pose (L1 := fst (lint Sample.env (Sample.linter [] "" None) ["broken"])).
  destruct (H Sample.env L1 []) as [Hex _].
  destruct Hex as (m & Hm & _); [vm_compute; reflexivity|].
  inversion Hm.
Qed.

(** C7 (amended) — the verdict of a call of [lint] is true exactly when
    the linter's message list after the call, that is the messages kept
    from earlier calls followed by those of this call, holds a message of
    severity [ERROR] or higher; for a linter whose list is empty before
    the call this is exactly when the call itself produced such a
    message. *)
Theorem verdict_iff_error_in_message_list env L recipe_names :
  (snd (lint env L recipe_names) = true ↔
   ∃ m, m ∈ _messages L ++ run_messages env L recipe_names
        ∧ (Severity_value ERROR ≤ Severity_value (msg_severity m))%Z)
  ∧ (_messages L = [] →
     (snd (lint env L recipe_names) = true ↔
      ∃ m, m ∈ run_messages env L recipe_names
           ∧ (Severity_value ERROR ≤ Severity_value (msg_severity m))%Z)).
Proof.
  rewrite lint_verdict. split; [apply existsb_is_error|].
  intros ->. apply existsb_is_error.
Qed.

Lemma verdict_iff_error_in_message_list_witness :
  let L := Sample.linter [Sample.good] "" None in
  _messages L = []
  ∧ snd (lint Sample.env L ["bar"]) = false
  ∧ snd (lint Sample.env L ["bar"; "broken"]) = true
  ∧ (snd (lint Sample.env L ["bar"; "broken"]) = true ↔
     ∃ m, m ∈ run_messages Sample.env L ["bar"; "broken"]
          ∧ (Severity_value ERROR ≤ Severity_value (msg_severity m))%Z).
Proof.
  intros L. split; [reflexivity|]. split; [vm_compute; reflexivity|].
  split; [vm_compute; reflexivity|].
  destruct (verdict_iff_error_in_message_list Sample.env L ["bar"; "broken"]) as [_ H].
  apply H. reflexivity.
Defined.

(** ** Skip resolution *)

Lemma has_node_spec G n : nx.has_node G n = true ↔ n ∈ nx.node G.
Proof. unfold nx.has_node. apply bool_decide_eq_true. Qed.

Lemma propagate_skips_spec dag snapshot : ∀ (S : gset string) errors,
  (∀ x, x ∈ fst (propagate_skips dag snapshot S errors) ↔
        x ∈ S ∨ ∃ c, c ∈ snapshot ∧ c ∈ nx.node dag ∧ x ∈ nx.descendants dag c)
  ∧ (∀ c, c ∈ snd (propagate_skips dag snapshot S errors) ↔
          c ∈ errors ∨ (c ∈ snapshot ∧ c ∉ nx.node dag)).
Proof.
  induction snapshot as [|check rest IH]; intros S errors; simpl.
  - split; intros x; split; try tauto.
    + intros [?|(c & Hc & _)]; [done|inversion Hc].
    + intros [?|[Hc _]]; [done|inversion Hc].
  - destruct (nx.has_node dag check) eqn:Hnode.
    + apply has_node_spec in Hnode.
      destruct (IH (S ∪ nx.descendants dag check) errors) as [H1 H2]. split.
      * intros x. rewrite H1, elem_of_union. split.
        -- intros [[?|?]|(c & Hc & Hn & Hx)]; [by left| |].
           ++ right. exists check. split; [left|done].
           ++ right. exists c. split; [by right|done].
        -- intros [?|(c & Hc & Hn & Hx)]; [tauto|].
           apply elem_of_cons in Hc as [->|Hc]; [tauto|].
           right. by exists c.
      * intros c. rewrite H2. split.
        -- intros [?|[Hc Hn]]; [by left|]. right. split; [by right|done].
        -- intros [?|[Hc Hn]]; [by left|].
           apply elem_of_cons in Hc as [->|Hc]; [done|]. by right.
    + assert (Hn : check ∉ nx.node dag).
      { intros Hin. apply has_node_spec in Hin. congruence. }
      destruct (IH S (errors ++ [check])) as [H1 H2]. split.
      * intros x. rewrite H1. split.
        -- intros [?|(c & Hc & Hcn & Hx)]; [by left|].
           right. exists c. split; [by right|done].
        -- intros [?|(c & Hc & Hcn & Hx)]; [by left|].
           apply elem_of_cons in Hc as [->|Hc]; [done|]. right. by exists c.
      * intros c. rewrite H2, elem_of_app, list_elem_of_singleton. split.
        -- intros [[?| ->]|[Hc Hcn]]; [by left| |].
           ++ right. split; [left|done].
           ++ right. split; [by right|done].
        -- intros [?|[Hc Hcn]]; [tauto|].
           apply elem_of_cons in Hc as [->|Hc]; [tauto|]. by right.
Qed.

(** The skip set with which the checks are run, and the names logged as
    unknown. *)
Lemma collect_skips_spec L recipe_name recipe :
  (∀ x, x ∈ fst (collect_skips L recipe_name recipe) ↔
        x ∈ initial_skips L recipe_name recipe
        ∨ ∃ c, c ∈ initial_skips L recipe_name recipe
               ∧ c ∈ nx.node (checks_dag L) ∧ x ∈ nx.descendants (checks_dag L) c)
  ∧ (∀ c, c ∈ snd (collect_skips L recipe_name recipe) ↔
          c ∈ initial_skips L recipe_name recipe ∧ c ∉ nx.node (checks_dag L)).
Proof.
  unfold collect_skips.
  destruct (propagate_skips_spec (checks_dag L)
              (elements (initial_skips L recipe_name recipe))
              (initial_skips L recipe_name recipe) []) as [H1 H2].
  split.
  - intros x. rewrite H1. by setoid_rewrite elem_of_elements.
  - intros c. rewrite H2, elem_of_elements. split; [|tauto].
    intros [Hc|?]; [inversion Hc|done].
Qed.

(** The loop over the ordered checks only looks at the names it meets. *)
Lemma run_checks_skip_ext L recipe ordered : ∀ (S1 S2 : gset string) messages,
  (∀ c, c ∈ ordered → c ∈ S1 ↔ c ∈ S2) →
  run_checks L recipe ordered S1 messages = run_checks L recipe ordered S2 messages.
Proof.
  induction ordered as [|check rest IH]; intros S1 S2 messages Hagree; simpl; [done|].
  assert (Hrest : ∀ c, c ∈ rest → c ∈ S1 ↔ c ∈ S2).
  { intros c Hc. apply Hagree. by right. }
  assert (Hhead : check ∈ S1 ↔ check ∈ S2) by (apply Hagree; left).
  destruct (decide (check ∈ S1)) as [Hin|Hnin].
  - rewrite !bool_decide_true by tauto. by apply IH.
  - rewrite !bool_decide_false by tauto.
    destruct (run_instance L check recipe) as [[|m res]|e]; [by apply IH| |done].
    apply IH. intros c Hc. rewrite !elem_of_union. specialize (Hrest c Hc). tauto.
Qed.

(** C5 — for a loaded recipe the checks are run with the skip set that
    [collect_skips] returns. That set contains the initial set (directive
    names for the recipe, the exclude list, the recipe's own list),
    together with every check reachable from one of its names along
    requirement edges, and nothing else; hence it is closed under
    following requirement edges. A name of the initial set that is not a
    node of the graph is logged as unknown, and the run is the same as
    without that name. *)
Theorem skip_set_closed_under_requirements
    checks_module commit_message excl L env recipe_name recipe :
  Linter_init checks_module commit_message excl = Some (Returns L) →
  from_file env recipe_name = Loaded recipe →
  let registry := get_checks checks_module in
  let initial := initial_skips L recipe_name recipe in
  let final := fst (collect_skips L recipe_name recipe) in
  let logged := snd (collect_skips L recipe_name recipe) in
  initial
  = list_to_set (default [] (skip L !! recipe_name)) ∪ list_to_set (exclude L)
    ∪ match extra_skip_lints recipe with Some l => list_to_set l | None => ∅ end
  ∧ lint_one env L recipe_name = run_checks L recipe (checks_ordered L) final []
  ∧ initial ⊆ final
  ∧ (∀ c p, c ∈ initial → tc (requires_in registry) c p → p ∈ final)
  ∧ (∀ c p, c ∈ final → tc (requires_in registry) c p → p ∈ final)
  ∧ (∀ x, x ∈ final →
          x ∈ initial ∨ ∃ c, c ∈ initial ∧ tc (requires_in registry) c x)
  ∧ (∀ c, c ∈ initial → c ∉ nx.node (checks_dag L) →
          c ∈ logged
          ∧ run_checks L recipe (checks_ordered L) final []
            = run_checks L recipe (checks_ordered L) (final ∖ {[c]}) []).
Proof.
  intros Hinit Hload registry initial final logged.
  apply Linter_init_Returns in Hinit as (HL & _).
  pose proof (linter_for_wf _ _ HL) as Hwf.
  destruct (collect_skips_spec L recipe_name recipe) as [Hfinal Hlogged].
  fold initial final in Hfinal. fold initial logged in Hlogged.
  assert (Hedge : ∀ a b, tc (requires_in registry) a b ↔ tc (edge (checks_dag L)) a b).
  { intros a b. rewrite (lf_dag _ _ HL). apply tc_requires_edge. }
  assert (Hsrc : ∀ a b, tc (edge (checks_dag L)) a b → a ∈ nx.node (checks_dag L)).
  { intros a b Ht. inversion Ht as [x y He|x y z He _]; subst;
      by destruct (Hwf _ _ He). }
  assert (Hreach : ∀ c p, c ∈ initial → tc (requires_in registry) c p → p ∈ final).
  { intros c p Hc Hp. apply Hedge in Hp. apply Hfinal.
    destruct (decide (p = c)) as [->|Hne]; [by left|].
    right. exists c. split; [done|]. split; [by eapply Hsrc|].
    by apply descendants_spec. }
  split; [done|]. split; [by unfold lint_one; rewrite Hload|].
  split; [intros x Hx; apply Hfinal; by left|]. split; [done|]. split; [|split].
  - intros c p Hc Hp. apply Hfinal in Hc as [Hc|(c0 & Hc0 & _ & Hd)].
    + by apply (Hreach c).
    + apply (Hreach c0); [done|]. apply Hedge.
      apply descendants_spec in Hd as [Hd _]; [|done].
      etrans; [exact Hd|]. by apply Hedge.
  - intros x Hx. apply Hfinal in Hx as [?|(c & Hc & _ & Hd)]; [by left|].
    right. exists c. split; [done|]. apply Hedge.
    by apply descendants_spec in Hd as [Hd _].
  - intros c Hc Hn. split; [by apply Hlogged|].
    apply run_checks_skip_ext. intros d Hd.
    assert (d ≠ c); [|set_solver].
    intros ->. apply Hn.
    pose proof (topological_sort_spec _ Hwf) as Hs.
    rewrite (lf_ordered _ _ HL) in Hs. destruct Hs as (_ & Hin & _). by apply Hin.
Qed.

Lemma skip_set_closed_under_requirements_witness :
  let L := Sample.linter [Sample.A; Sample.B] "[lint skip nope for bar]" (Some ["A"]) in
  initial_skips L "bar" Sample.recipe = {["nope"; "A"]}
  ∧ "B" ∈ fst (collect_skips L "bar" Sample.recipe)
  ∧ "nope" ∈ snd (collect_skips L "bar" Sample.recipe).
Proof.
  intros L.
  assert (Hinit : Linter_init [Sample.A; Sample.B] "[lint skip nope for bar]" (Some ["A"])
                  = Some (Returns L)) by (vm_compute; reflexivity).
  assert (Hload : from_file Sample.env "bar" = Loaded Sample.recipe) by reflexivity.
  destruct (skip_set_closed_under_requirements _ _ _ _ _ _ _ Hinit Hload)
    as (_ & _ & _ & Hreach & _ & _ & Hunknown).
  assert (Hini : initial_skips L "bar" Sample.recipe = {["nope"; "A"]})
    by (vm_compute; reflexivity).
  split; [exact Hini|]. split.
  - apply (Hreach "A" "B").
    + rewrite Hini. set_solver.
    + apply tc_once. exists Sample.A. split; [|split; [reflexivity|left]].
      unfold get_checks. apply elem_of_app. right. left.
  - apply Hunknown.
    + rewrite Hini. set_solver.
    + vm_compute. intros H. repeat (apply elem_of_cons in H as [H|H]; [discriminate H|]).
      inversion H.
Defined.

(** ** Text *)

Lemma append_nil (s : string) : "" +:+ s = s.
Proof. reflexivity. Qed.

Lemma append_cons a (s1 s2 : string) : String a s1 +:+ s2 = String a (s1 +:+ s2).
Proof. reflexivity. Qed.

Lemma append_assoc (s1 s2 s3 : string) : (s1 +:+ s2) +:+ s3 = s1 +:+ s2 +:+ s3.
Proof.
  induction s1 as [|a s1 IH]; [done|]. rewrite !append_cons. by f_equal.
Qed.

(** [decode] on a well-formed sequence of one to four bytes. *)
Lemma decode_1 a0 s :
  (N_of_ascii a0 < 0x80)%N → decode (String a0 s) = N_of_ascii a0 :: decode s.
Proof. intros H. cbn [decode]. by decide_bounds. Qed.

Lemma decode_2 a0 a1 s :
  let b0 := N_of_ascii a0 in
  let b1 := N_of_ascii a1 in
  let c := ((b0 - 0xC0) * 64 + (b1 - 0x80))%N in
  (0xC0 ≤ b0 < 0xE0)%N → (0x80 ≤ b1 < 0xC0)%N → (0x80 ≤ c)%N →
  decode (String a0 (String a1 s)) = c :: decode s.
Proof.
  intros b0 b1 c H0 H1 Hc. cbn [decode]. fold b0 b1. fold c. unfold continuation.
  by decide_bounds.
Qed.

Lemma decode_3 a0 a1 a2 s :
  let b0 := N_of_ascii a0 in
  let b1 := N_of_ascii a1 in
  let b2 := N_of_ascii a2 in
  let c := ((b0 - 0xE0) * 4096 + (b1 - 0x80) * 64 + (b2 - 0x80))%N in
  (0xE0 ≤ b0 < 0xF0)%N → (0x80 ≤ b1 < 0xC0)%N → (0x80 ≤ b2 < 0xC0)%N →
  (0x800 ≤ c)%N → scalar c = true →
  decode (String a0 (String a1 (String a2 s))) = c :: decode s.
Proof.
  intros b0 b1 b2 c H0 H1 H2 Hc Hs. cbn [decode]. fold b0 b1 b2. fold c. rewrite Hs.
  unfold continuation. by decide_bounds.
Qed.

Lemma decode_4 a0 a1 a2 a3 s :
  let b0 := N_of_ascii a0 in
  let b1 := N_of_ascii a1 in
  let b2 := N_of_ascii a2 in
  let b3 := N_of_ascii a3 in
  let c := ((b0 - 0xF0) * 262144 + (b1 - 0x80) * 4096 + (b2 - 0x80) * 64
            + (b3 - 0x80))%N in
  (0xF0 ≤ b0 < 0xF8)%N → (0x80 ≤ b1 < 0xC0)%N → (0x80 ≤ b2 < 0xC0)%N →
  (0x80 ≤ b3 < 0xC0)%N → (0x10000 ≤ c)%N → scalar c = true →
  decode (String a0 (String a1 (String a2 (String a3 s)))) = c :: decode s.
Proof.
  intros b0 b1 b2 b3 c H0 H1 H2 H3 Hc Hs. cbn [decode]. fold b0 b1 b2 b3. fold c.
  rewrite Hs. unfold continuation. by decide_bounds.
Qed.

(** Encoding and decoding a code point gives it back. *)
Lemma decode_encode_char c t :
  scalar c = true → decode (encode_char c +:+ t) = c :: decode t.
Proof.
  intros Hc. pose proof Hc as Hs. unfold scalar in Hs.
  assert (Hlt : (c < 0x110000)%N).
  { destruct (N.ltb_spec c 0xD800); [lia|]. simpl in Hs.
    apply andb_prop in Hs as [_ Hs]. by apply N.ltb_lt in Hs. }
  clear Hs. unfold encode_char.
  change 4096%N with (64 * 64)%N. change 262144%N with (64 * 64 * 64)%N.
  rewrite <- !N.Div0.div_div.
  pose proof (N.div_mod c 64 ltac:(done)) as E1.
  pose proof (N.mod_upper_bound c 64 ltac:(done)) as B1.
  set (q1 := (c / 64)%N) in *. set (r1 := (c mod 64)%N) in *.
  pose proof (N.div_mod q1 64 ltac:(done)) as E2.
  pose proof (N.mod_upper_bound q1 64 ltac:(done)) as B2.
  set (q2 := (q1 / 64)%N) in *. set (r2 := (q1 mod 64)%N) in *.
  pose proof (N.div_mod q2 64 ltac:(done)) as E3.
  pose proof (N.mod_upper_bound q2 64 ltac:(done)) as B3.
  set (q3 := (q2 / 64)%N) in *. set (r3 := (q2 mod 64)%N) in *.
  clearbody q1 r1 q2 r2 q3 r3.
  destruct (N.ltb_spec c 0x80) as [H1|H1];
    [|destruct (N.ltb_spec c 0x800) as [H2|H2];
      [|destruct (N.ltb_spec c (0x10000)) as [H3|H3]]];
    rewrite ?append_cons, append_nil.
  - rewrite decode_1; rewrite N_ascii_embedding by lia; [done|lia].
  - rewrite decode_2; rewrite !N_ascii_embedding by lia; [f_equal; lia|lia..].
  - rewrite decode_3; rewrite !N_ascii_embedding by lia; [f_equal; lia|try lia..].
    replace (_ + _)%N with c by lia. done.
  - assert (q3 < 8)%N by lia.
    rewrite (N.mod_small q3 8) by done.
    rewrite decode_4; rewrite !N_ascii_embedding by lia; [f_equal; lia|try lia..].
    replace (_ + _)%N with c by lia. done.
Qed.

Lemma encode_app s1 s2 : encode (s1 ++ s2) = encode s1 +:+ encode s2.
Proof.
  induction s1 as [|c s1 IH]; [done|]. simpl. rewrite IH.
  generalize (encode_char c). intros e. induction e as [|a e IHe]; [done|].
  rewrite !append_cons. by f_equal.
Qed.

Lemma decode_encode s : forallb scalar s = true → decode (encode s) = s.
Proof.
  induction s as [|c s IH]; [done|]. simpl. intros H.
  apply andb_prop in H as [Hc Hs]. rewrite decode_encode_char by done. by rewrite IH.
Qed.

(** One step of [decode]: a code point, and what is left to decode is
    a suffix of the rest. A code point below U+0080 is the first byte. *)
Lemma decode_cons a0 s1 :
  ∃ c chunk rest,
    decode (String a0 s1) = c :: decode rest ∧ s1 = chunk +:+ rest
    ∧ scalar c = true ∧ (c = N_of_ascii a0 ∨ (0x80 ≤ c)%N).
Proof.
  cbn [decode].
  assert (Hrep : ∃ c chunk rest,
            replacement_character :: decode s1 = c :: decode rest ∧ s1 = chunk +:+ rest
            ∧ scalar c = true ∧ (c = N_of_ascii a0 ∨ (0x80 ≤ c)%N)).
  { exists replacement_character, EmptyString, s1. split; [done|]. split; [done|].
    split; [done|]. right. unfold replacement_character. lia. }
  destruct (N.ltb_spec (N_of_ascii a0) 0x80) as [H0|H0].
  { exists (N_of_ascii a0), EmptyString, s1. split; [done|]. split; [done|]. split; [|by left].
    unfold scalar. destruct (N.ltb_spec (N_of_ascii a0) 0xD800); [done|lia]. }
  destruct s1 as [|a1 s2]; [done|].
  match goal with |- context [if ?b then _ else _] => destruct b eqn:H2 end.
  { eexists _, (String a1 EmptyString), s2. split; [done|]. split; [done|].
    repeat (apply andb_prop in H2 as [H2 ?]).
    split; [|right; by apply N.leb_le].
    unfold continuation in *. unfold scalar.
    destruct (N.ltb_spec ((N_of_ascii a0 - 192) * 64 + (N_of_ascii a1 - 128)) 0xD800); [done|].
    exfalso.
    repeat match goal with
    | H : (_ && _)%bool = true |- _ => apply andb_prop in H as [? ?]
    | H : N.ltb _ _ = true |- _ => apply N.ltb_lt in H
    | H : N.leb _ _ = true |- _ => apply N.leb_le in H
    end. lia. }
  destruct s2 as [|a2 s3]; [done|].
  match goal with |- context [if ?b then _ else _] => destruct b eqn:H3 end.
  { eexists _, (String a1 (String a2 EmptyString)), s3. split; [done|]. split; [done|].
    repeat (apply andb_prop in H3 as [H3 ?]).
    split; [done|]. right.
    match goal with H : N.leb 0x800 _ = true |- _ => apply N.leb_le in H end. lia. }
  destruct s3 as [|a3 s4]; [done|].
  match goal with |- context [if ?b then _ else _] => destruct b eqn:H4 end.
  { eexists _, (String a1 (String a2 (String a3 EmptyString))), s4.
    split; [done|]. split; [done|].
    repeat (apply andb_prop in H4 as [H4 ?]).
    split; [done|]. right.
    match goal with H : N.leb 0x10000 _ = true |- _ => apply N.leb_le in H end. lia. }
  done.
Qed.

Lemma all_chars_append p (s1 s2 : string) :
  all_chars p (s1 +:+ s2) = (all_chars p s1 && all_chars p s2)%bool.
Proof.
  induction s1 as [|a s1 IH]; [done|]. rewrite append_cons. simpl.
  by rewrite IH, andb_assoc.
Qed.

Lemma append_length (s1 s2 : string) :
  String.length (s1 +:+ s2) = (String.length s1 + String.length s2)%nat.
Proof.
  induction s1 as [|a s1 IH]; [done|]. rewrite append_cons. simpl. by rewrite IH.
Qed.

(** Induction along [decode]: a property of [String a0 s1] may use it
    for every suffix of [s1]. *)
Lemma suffix_ind (P : string → Prop) :
  P EmptyString →
  (∀ a0 s1, (∀ chunk rest, s1 = chunk +:+ rest → P rest) → P (String a0 s1)) →
  ∀ s, P s.
Proof.
  intros Hnil Hcons s.
  assert (H : ∀ n s, (String.length s ≤ n)%nat → P s); [|by apply (H (String.length s))].
  clear s. induction n as [|n IH]; intros s Hn.
  - destruct s; [done|simpl in Hn; lia].
  - destruct s as [|a0 s1]; [done|]. apply Hcons. intros chunk rest ->.
    apply IH. simpl in Hn. rewrite append_length in Hn. lia.
Qed.

Lemma decode_scalar s : forallb scalar (decode s) = true.
Proof.
  induction s as [|a0 s1 IH] using suffix_ind; [done|].
  destruct (decode_cons a0 s1) as (c & chunk & rest & -> & Hs1 & Hc & _).
  simpl. by rewrite Hc, (IH chunk rest).
Qed.

(** An ASCII character occurs in the decoded text only where its byte
    occurs in the string. *)
Lemma decode_free b s :
  (N_of_ascii b < 0x80)%N →
  all_chars (λ a, negb (Ascii.eqb a b)) s = true →
  forallb (λ c, negb (c =? N_of_ascii b)%N) (decode s) = true.
Proof.
  intros Hb. induction s as [|a0 s1 IH] using suffix_ind; [done|].
  cbn [all_chars]. intros H. apply andb_prop in H as [Ha Hs].
  destruct (decode_cons a0 s1) as (c & chunk & rest & -> & Hs1 & _ & Hc).
  simpl. rewrite (IH chunk rest Hs1), andb_true_r.
  - apply negb_true_iff, N.eqb_neq. apply negb_true_iff in Ha.
    destruct Hc as [->|Hc]; [|lia].
    intros Heq. apply (f_equal ascii_of_N) in Heq. rewrite !ascii_N_embedding in Heq.
    subst a0. by rewrite Ascii.eqb_refl in Ha.
  - rewrite Hs1, all_chars_append in Hs. by apply andb_prop in Hs as [_ Hs].
Qed.

(** ** Skip directives *)

(** A match consumes at least its opening bracket. *)
Lemma match_literal_length lit : ∀ s rest,
  match_literal lit s = Some rest → (length rest + length lit = length s)%nat.
Proof.
  induction lit as [|a lit IH]; intros s rest; simpl.
  - intros [= ->]. lia.
  - destruct s as [|b s]; [done|]. destruct (a =? b)%N; [|done].
    intros H. apply IH in H. simpl. lia.
Qed.

Lemma lstrip_length s : (length (lstrip s) ≤ length s)%nat.
Proof.
  induction s as [|a s IH]; simpl; [lia|]. destruct (is_space a); simpl; lia.
Qed.

Lemma match_word_length s : (length (snd (match_word s)) ≤ length s)%nat.
Proof.
  induction s as [|a s IH]; simpl; [lia|].
  destruct (is_word a); [|simpl; lia].
  destruct (match_word s) as [w r]. simpl in *. lia.
Qed.

Lemma match_recipe_eq s :
  match_recipe s
  = match match_literal (decode "]") (lstrip s) with
    | Some rest => Some ([], rest)
    | None =>
        match s with
        | [] => None
        | c :: tl =>
            if (c =? 10)%N then None
            else match match_recipe tl with
                 | Some (r, rest) => Some (c :: r, rest)
                 | None => None
                 end
        end
    end.
Proof. by destruct s. Qed.

Lemma match_recipe_length s : ∀ recipe rest,
  match_recipe s = Some (recipe, rest) → (length rest < length s)%nat.
Proof.
  induction s as [|a s IH]; intros recipe rest; rewrite match_recipe_eq.
  - done.
  - destruct (match_literal (decode "]") (lstrip (a :: s))) as [r|] eqn:Hlit.
    + intros [= <- <-]. apply match_literal_length in Hlit.
      pose proof (lstrip_length (a :: s)) as Hl.
      change (length (decode "]")) with 1%nat in Hlit. lia.
    + destruct (a =? 10)%N; [done|].
      destruct (match_recipe s) as [[r rest']|] eqn:Hrec; [|done].
      intros [= <- <-]. specialize (IH _ _ eq_refl). simpl. lia.
Qed.

Lemma match_at_length s m rest :
  match_at s = Some (m, rest) → (length rest < length s)%nat.
Proof.
  unfold match_at.
  destruct (match_literal (decode "[") s) as [s1|] eqn:H1; [|done].
  destruct (match_literal (decode "lint skip ") (lstrip s1)) as [s2|] eqn:H2; [|done].
  pose proof (match_word_length s2) as H3.
  destruct (match_word s2) as [[|a func] s3]; [done|].
  destruct (match_literal (decode " for ") s3) as [s4|] eqn:H4; [|done].
  destruct (match_recipe s4) as [[recipe rest']|] eqn:H5; [|done].
  intros [= <- <-].
  apply match_literal_length in H1, H2, H4. apply match_recipe_length in H5.
  pose proof (lstrip_length s1).
  change (length (decode "[")) with 1%nat in H1.
  simpl in *. lia.
Qed.

(** [length s] steps are enough: more budget changes nothing. *)
Lemma findall_fuel_enough n : ∀ m s,
  (length s ≤ n)%nat → (length s ≤ m)%nat →
  findall_fuel n s = findall_fuel m s.
Proof.
  induction n as [|n IH]; intros m s Hn Hm.
  - destruct s; [|simpl in Hn; lia]. by destruct m.
  - destruct m as [|m]; [destruct s; [done|simpl in Hm; lia]|].
    destruct s as [|a s]; [done|]. cbn [findall_fuel].
    destruct (match_at (a :: s)) as [[p rest]|] eqn:Hat.
    + apply match_at_length in Hat. f_equal. apply IH; simpl in *; lia.
    + apply IH; simpl in *; lia.
Qed.




Lemma run_instance_names checks_module L check recipe res :
  linter_for checks_module L → run_instance L check recipe = Returns res →
  Forall (λ m, check_ref_str (msg_check m) = check) res.
Proof.
  intros HL. unfold run_instance. rewrite (lf_instances _ _ HL).
  destruct (instantiate _ !! check) as [inst|] eqn:Hinst; [|done].
  apply instantiate_lookup in Hinst as [_ Hname].
  unfold run. destruct (hooks inst recipe) as [calls|]; [|done].
  intros [= <-]. apply Forall_forall. intros m Hm.
  apply list_elem_of_In, in_map_iff in Hm as (c & <- & _).
  by rewrite make_message_check.
Qed.


(** C8 (as stated, refuted) — a directive does not suppress its check
    for every document of the recipe it names: the recipe [broken] does
    not load for want of a build section, [lint_one] returns the message
    of the check [missing_build] that stands for this failure before it
    looks at any skip, and so the check reports although the text holds
    the directive [[lint skip missing_build for broken]]. *)
Lemma skip_directive_ignored_counterexample :
  ¬ (∀ checks_module commit_message excl L env recipe_name func,
       Linter_init checks_module commit_message excl = Some (Returns L) →
       (func, recipe_name) ∈ findall commit_message →
       ∀ ms, lint_one env L recipe_name = Returns ms →
             ∀ m, m ∈ ms → check_ref_str (msg_check m) ≠ func).
Proof.
  intros H.
  pose (text := "[lint skip missing_build for broken]").
  pose (L := Sample.linter [] text None).
  pose (m := make_message missing_build (Sample.bare "broken") None None (Some 7)).
  assert (Hinit : Linter_init [] text None = Some (Returns L))
    by (vm_compute; reflexivity).
  assert (Hin : ("missing_build", "broken") ∈ findall text) by (vm_compute; left).
  assert (Hone : lint_one Sample.env L "broken" = Returns [m]) by reflexivity.
  apply (H [] text None L Sample.env "broken" "missing_build" Hinit Hin [m] Hone m).
  - left.
  - reflexivity.
Qed.



(** ** The cascade after a failed check *)

(** What the loop returns is what it was given followed by the messages
    of checks of the order that were not in the skip set. *)
Lemma run_checks_new_messages checks_module L recipe ordered :
  linter_for checks_module L → ∀ (checks_to_skip : gset string) messages ms,
  run_checks L recipe ordered checks_to_skip messages = Returns ms →
  ∃ new, ms = messages ++ new
         ∧ ∀ m, m ∈ new →
                check_ref_str (msg_check m) ∈ ordered
                ∧ check_ref_str (msg_check m) ∉ checks_to_skip.
Proof.
  intros HL. induction ordered as [|check rest IH]; simpl;
    intros checks_to_skip messages ms Hrun.
  - inversion Hrun; subst. exists []. split; [by rewrite app_nil_r|].
    intros m Hm. inversion Hm.
  - case_bool_decide as Hskip.
    + apply IH in Hrun as (new & -> & Hnew). exists new. split; [done|].
      intros m Hm. destruct (Hnew m Hm). split; [by right|done].
    + destruct (run_instance L check recipe) as [res|e] eqn:Hres; [|done].
      pose proof (run_instance_names _ _ _ _ _ HL Hres) as Hnames.
      rewrite Forall_forall in Hnames.
      apply IH in Hrun as (new & -> & Hnew). exists (res ++ new).
      split; [by rewrite app_assoc|].
      intros m Hm. apply elem_of_app in Hm as [Hm|Hm].
      * rewrite (Hnames m Hm). split; [left|done].
      * destruct (Hnew m Hm) as [H1 H2]. split; [by right|].
        destruct res; set_solver.
Qed.

(** In the execution order no check stands before a check it requires,
    directly or through other checks. *)
Lemma ordered_dependents_later G l l1 b l2 a :
  NoDup l → postorder G (reverse l) → l = l1 ++ b :: l2 →
  tc (edge G) a b → a ∉ l1.
Proof.
  intros Hnd Hpost -> Hab Ha.
  apply list_elem_of_split in Ha as (k1 & k2 & ->).
  rewrite <- !app_assoc in Hpost. simpl in Hpost.
  rewrite reverse_app, reverse_cons, <- app_assoc in Hpost.
  apply postorder_app in Hpost. simpl in Hpost.
  assert (Hb : b ∈ a :: reverse k1).
  { apply (postorder_closed_tc G _ a b); [done|left|done]. }
  rewrite <- !app_assoc in Hnd. simpl in Hnd.
  apply NoDup_app in Hnd as (_ & Hdisj & Hnd).
  apply elem_of_cons in Hb as [->|Hb].
  - apply NoDup_cons in Hnd as [Hnin _]. apply Hnin.
    apply elem_of_app. right. left.
  - apply (Hdisj b); [by rewrite elem_of_reverse in Hb|].
    right. apply elem_of_app. right. left.
Qed.

Lemma run_checks_cascade checks_module L recipe ordered :
  linter_for checks_module L → NoDup ordered →
  (∀ l1 b l2 a, ordered = l1 ++ b :: l2 → tc (edge (checks_dag L)) a b → a ∉ l1) →
  ∀ (checks_to_skip : gset string) messages new a b,
  run_checks L recipe ordered checks_to_skip messages = Returns (messages ++ new) →
  tc (edge (checks_dag L)) a b →
  (∃ m, m ∈ new ∧ check_ref_str (msg_check m) = b) →
  ∀ m, m ∈ new → check_ref_str (msg_check m) ≠ a.
Proof.
  intros HL. pose proof (linter_for_wf _ _ HL) as Hwf.
  assert (Hacyc : ∀ u, ¬ tc (edge (checks_dag L)) u u).
  { eapply topological_sort_acyclic; [done|apply (lf_ordered _ _ HL)]. }
  induction ordered as [|check rest IH]; simpl;
    intros Hnd Hlater checks_to_skip messages new a b Hrun Hab (mb & Hmb & Hb) m Hm.
  - inversion Hrun as [Heq]. apply (f_equal length) in Heq.
    rewrite length_app in Heq. destruct new; [inversion Hm|simpl in Heq; lia].
  - apply NoDup_cons in Hnd as [Hnin Hnd].
    assert (Hlater' : ∀ l1 b l2 a, rest = l1 ++ b :: l2 →
              tc (edge (checks_dag L)) a b → a ∉ l1).
    { intros l1 b0 l2 a0 -> Ht Hin.
      apply (Hlater (check :: l1) b0 l2 a0 eq_refl Ht). by right. }
    case_bool_decide as Hskip.
    { apply (IH Hnd Hlater' _ _ _ a b Hrun Hab); [by exists mb|done]. }
    destruct (run_instance L check recipe) as [res|e] eqn:Hres; [|done].
    pose proof (run_instance_names _ _ _ _ _ HL Hres) as Hnames.
    rewrite Forall_forall in Hnames.
    pose proof Hrun as Hrun0.
    apply (run_checks_new_messages _ _ _ _ HL) in Hrun as (new' & Heq & Hnew').
    rewrite <- app_assoc in Heq. apply app_inv_head in Heq. subst new.
    rewrite app_assoc in Hrun0.
    destruct (decide (b = check)) as [->|Hbc].
    + (* the failed check is the one run now *)
      assert (Hres_ne : res ≠ []).
      { intros ->. simpl in Hmb. destruct (Hnew' mb Hmb) as [Hin _]. rewrite Hb in Hin.
        done. }
      assert (Ha : a ∈ nx.ancestors (checks_dag L) check).
      { apply ancestors_spec; [done|]. split; [done|]. intros ->. by apply (Hacyc check). }
      apply elem_of_app in Hm as [Hm|Hm].
      * rewrite (Hnames m Hm). intros ->. by apply (Hacyc a).
      * destruct (Hnew' m Hm) as [_ Hns]. intros Heq. apply Hns. rewrite Heq.
        destruct res; [done|]. set_solver.
    + (* it is run later *)
      assert (Hmb' : mb ∈ new').
      { apply elem_of_app in Hmb as [Hmb|Hmb]; [|done].
        rewrite (Hnames mb Hmb) in Hb. congruence. }
      apply elem_of_app in Hm as [Hm|Hm].
      * rewrite (Hnames m Hm). intros ->.
        destruct (Hnew' mb Hmb') as [Hin _]. rewrite Hb in Hin.
        apply list_elem_of_split in Hin as (l1 & l2 & ->).
        apply (Hlater (a :: l1) b l2 a eq_refl Hab). left.
      * apply (IH Hnd Hlater' _ _ _ a b Hrun0 Hab); [by exists mb|done].
Qed.

(** X10 — after a check has reported for a recipe, no check that requires
    it, directly or through other checks, reports for the same recipe. *)
Lemma failed_check_silences_dependents
    checks_module commit_message excl L env recipe_name ms a b :
  Linter_init checks_module commit_message excl = Some (Returns L) →
  lint_one env L recipe_name = Returns ms →
  tc (requires_in (get_checks checks_module)) a b →
  (∃ m, m ∈ ms ∧ check_ref_str (msg_check m) = b) →
  ∀ m, m ∈ ms → check_ref_str (msg_check m) ≠ a.
Proof.
  intros Hinit Hone Hab Hb.
  apply Linter_init_Returns in Hinit as (HL & _).
  pose proof (linter_for_wf _ _ HL) as Hwf.
  assert (Hacyc : ∀ u, ¬ tc (edge (checks_dag L)) u u).
  { eapply topological_sort_acyclic; [done|apply (lf_ordered _ _ HL)]. }
  apply tc_requires_edge in Hab. rewrite <- (lf_dag _ _ HL) in Hab.
  unfold lint_one in Hone.
  destruct (from_file env recipe_name) as [recipe|exc line|]; [| |done].
  - pose proof (topological_sort_spec _ Hwf) as Hs.
    rewrite (lf_ordered _ _ HL) in Hs. destruct Hs as (Hnd & _ & Hpost).
    assert (Hlater : ∀ l1 b0 l2 a0, checks_ordered L = l1 ++ b0 :: l2 →
              tc (edge (checks_dag L)) a0 b0 → a0 ∉ l1).
    { intros l1 b0 l2 a0 Heq.
      exact (ordered_dependents_later (checks_dag L) _ l1 b0 l2 a0 Hnd Hpost Heq). }
    exact (run_checks_cascade _ _ _ _ HL Hnd Hlater _ [] ms a b Hone Hab Hb).
  - inversion Hone; subst. destruct Hb as (m & Hm & Hmb).
    apply list_elem_of_singleton in Hm as ->.
    intros m' Hm'. apply list_elem_of_singleton in Hm' as ->.
    rewrite Hmb. intros ->. by apply (Hacyc a).
Qed.

(** ** Finding directive tokens *)

Lemma lstrip_spaces ws c rest :
  forallb is_space ws = true → is_space c = false →
  lstrip (ws ++ c :: rest) = c :: rest.
Proof.
  intros Hws Hc. induction ws as [|a ws IH]; simpl.
  - by rewrite Hc.
  - simpl in Hws. apply andb_prop in Hws as [Ha Hws]. rewrite Ha. by apply IH.
Qed.

Lemma match_literal_append lit rest : match_literal lit (lit ++ rest) = Some rest.
Proof.
  induction lit as [|a lit IH]; [by destruct rest|].
  simpl. by rewrite N.eqb_refl.
Qed.

Lemma match_word_append func c rest :
  forallb is_word func = true → is_word c = false →
  match_word (func ++ c :: rest) = (func, c :: rest).
Proof.
  intros Hf Hc. induction func as [|a func IH]; simpl.
  - by rewrite Hc.
  - simpl in Hf. apply andb_prop in Hf as [Ha Hf]. by rewrite Ha, IH.
Qed.

Lemma match_literal_bracket a s :
  match_literal (decode "]") (a :: s) = if (93 =? a)%N then Some s else None.
Proof. reflexivity. Qed.

Lemma no_bracket_after_spaces recipe rest :
  recipe_name_ok recipe = true → forallb is_space recipe = false →
  match_literal (decode "]") (lstrip (recipe ++ rest)) = None.
Proof.
  induction recipe as [|a recipe IH]; [done|].
  intros Hok Hsp. simpl in Hok.
  apply andb_prop in Hok as [Hok Hok']. apply andb_prop in Hok as [Hok _].
  apply andb_prop in Hok as [_ Hbr]. apply negb_true_iff in Hbr.
  simpl in Hsp. cbn [app lstrip].
  destruct (is_space a) eqn:Ha.
  - by apply IH.
  - rewrite match_literal_bracket. rewrite N.eqb_sym in Hbr. by rewrite Hbr.
Qed.

Lemma match_recipe_token recipe ws2 post :
  recipe_name_ok recipe = true → forallb is_space ws2 = true →
  match_recipe (recipe ++ ws2 ++ decode "]" ++ post) = Some (recipe, post).
Proof.
  intros Hok Hws. induction recipe as [|a recipe IH]; rewrite match_recipe_eq.
  - cbn [app]. change (decode "]" ++ post) with (93%N :: post).
    by rewrite (lstrip_spaces ws2 93%N post Hws eq_refl).
  - pose proof Hok as Hok0. simpl in Hok.
    apply andb_prop in Hok as [Hok Hok']. apply andb_prop in Hok as [Hok Hsp].
    apply andb_prop in Hok as [Hnl _]. apply negb_true_iff in Hnl.
    rewrite (no_bracket_after_spaces (a :: recipe)); [|done|].
    + cbn [app]. rewrite Hnl. by rewrite (IH Hok').
    + simpl. destruct (is_space a); [|done]. simpl in *. by apply negb_true_iff.
Qed.

(** A well-formed token is matched where it starts, with its two names,
    whatever white space follows the opening or precedes the closing
    bracket. *)
Lemma match_at_directive ws1 func recipe ws2 post :
  forallb is_space ws1 = true → forallb is_space ws2 = true →
  func ≠ [] → forallb is_word func = true →
  recipe_name_ok recipe = true →
  match_at (directive ws1 func recipe ws2 ++ post) = Some ((func, recipe), post).
Proof.
  intros Hws1 Hws2 Hne Hfunc Hrec. unfold directive, match_at.
  rewrite <- !app_assoc.
  rewrite (match_literal_append (decode "[")).
  change (decode "lint skip ") with (108%N :: decode "int skip ").
  rewrite <- app_comm_cons.
  rewrite (lstrip_spaces ws1 108%N _ Hws1 eq_refl).
  rewrite app_comm_cons.
  change (108%N :: decode "int skip ") with (decode "lint skip ").
  rewrite (match_literal_append (decode "lint skip ")).
  change (decode " for ") with (32%N :: decode "for ").
  rewrite <- app_comm_cons.
  rewrite (match_word_append func 32%N _ Hfunc eq_refl).
  destruct func as [|a func]; [done|].
  rewrite app_comm_cons.
  change (32%N :: decode "for ") with (decode " for ").
  rewrite (match_literal_append (decode " for ")).
  by rewrite (match_recipe_token recipe ws2 post Hrec Hws2).
Qed.

Lemma match_at_no_bracket a s : (a =? 91)%N = false → match_at (a :: s) = None.
Proof.
  intros Ha. unfold match_at.
  change (match_literal (decode "[") (a :: s)) with (if (91 =? a)%N then Some s else None).
  rewrite N.eqb_sym. by rewrite Ha.
Qed.

Lemma findall_skip_prefix pre rest :
  forallb (λ c, negb (c =? 91)%N) pre = true → ∀ n,
  (length (pre ++ rest) ≤ n)%nat →
  findall_fuel n (pre ++ rest) = skip_re_findall rest.
Proof.
  intros Hpre. induction pre as [|a pre IH]; intros n Hn.
  - by apply findall_fuel_enough.
  - simpl in Hpre. apply andb_prop in Hpre as [Ha Hpre]. apply negb_true_iff in Ha.
    destruct n as [|n]; [simpl in Hn; lia|].
    cbn [app findall_fuel]. rewrite (match_at_no_bracket a _ Ha).
    apply (IH Hpre). simpl in Hn. lia.
Qed.

(** X13 — a well-formed token that no opening bracket precedes is the
    first directive that [skip_re.findall] reports, whatever white space
    (of Unicode) it has inside its brackets, and the scan goes on behind
    it: so every token of a text in which the tokens are separated by
    bracket-free text is reported. The text is a [str]; for a text
    without surrogates, given as a string, [findall] reports the two names
    as strings. *)
Lemma findall_directive pre ws1 func recipe ws2 post :
  forallb (λ c, negb (c =? 91)%N) pre = true →
  forallb is_space ws1 = true → forallb is_space ws2 = true →
  func ≠ [] → forallb is_word func = true →
  recipe_name_ok recipe = true →
  skip_re_findall (pre ++ directive ws1 func recipe ws2 ++ post)
  = (func, recipe) :: skip_re_findall post
  ∧ (forallb scalar (pre ++ directive ws1 func recipe ws2 ++ post) = true →
     findall (encode (pre ++ directive ws1 func recipe ws2 ++ post))
     = (encode func, encode recipe) :: findall (encode post)).
Proof.
  intros Hpre Hws1 Hws2 Hne Hfunc Hrec.
  assert (Hfind : skip_re_findall (pre ++ directive ws1 func recipe ws2 ++ post)
                  = (func, recipe) :: skip_re_findall post).
  { unfold skip_re_findall at 1.
    rewrite (findall_skip_prefix pre _ Hpre) by done.
    pose proof (match_at_directive ws1 func recipe ws2 post Hws1 Hws2 Hne Hfunc Hrec) as Hat.
    pose proof (match_at_length _ _ _ Hat) as Hlen.
    unfold skip_re_findall at 1.
    destruct (directive ws1 func recipe ws2 ++ post) as [|a tok] eqn:Htok;
      [simpl in Hlen; lia|].
    cbn [length findall_fuel]. rewrite Hat. f_equal.
    apply findall_fuel_enough; simpl in Hlen; lia. }
  split; [exact Hfind|].
  intros Hs. unfold findall. rewrite (decode_encode _ Hs), Hfind.
  rewrite !forallb_app in Hs. apply andb_prop in Hs as [_ Hs].
  apply andb_prop in Hs as [_ Hs]. by rewrite (decode_encode _ Hs).
Qed.

(* The white space before the closing bracket is a space, a no-break
   space (U+00A0) and a space. *)
Lemma findall_directive_witness :
  findall "fix: [ lint skip café for recipes/bar   ] done"
  = [("café", "recipes/bar")].
Proof.
  pose (pre := decode "fix: "). pose (ws1 := decode " ").
  pose (func := decode "café"). pose (recipe := decode "recipes/bar").
  pose (ws2 := [32; 0xA0; 32]%N). pose (post := decode " done").
  destruct (findall_directive pre ws1 func recipe ws2 post) as [_ H];
    [reflexivity|reflexivity|reflexivity|discriminate|reflexivity|reflexivity|].
  assert (Hs : forallb scalar (pre ++ directive ws1 func recipe ws2 ++ post) = true)
    by (vm_compute; reflexivity).
  assert (Henc : encode (pre ++ directive ws1 func recipe ws2 ++ post)
                 = "fix: [ lint skip café for recipes/bar   ] done")
    by (vm_compute; reflexivity).
  specialize (H Hs). rewrite Henc in H. rewrite H. vm_compute. reflexivity.
Defined.

(** ** The message of the [except] branch *)

(** It carries [ERROR] whatever the severity of the check that raised. *)
Lemma unexpected_exception_message_severity recipe check :
  msg_severity (unexpected_exception_message recipe check) = ERROR
  ∧ msg_check (unexpected_exception_message recipe check) = ByName check.
Proof. done. Qed.

(** And no call of [lint] ever records it. *)
Lemma unexpected_exception_message_lost checks_module env L recipe_names m :
  linter_for checks_module L → m ∈ run_messages env L recipe_names →
  ∀ recipe check, m ≠ unexpected_exception_message recipe check.
Proof.
  intros HL Hm recipe check ->. unfold run_messages in Hm.
  apply list_elem_of_In, in_flat_map in Hm as (n & _ & Hm).
  pose proof (lint_recipe_issued checks_module env L n HL) as Hall.
  rewrite Forall_forall in Hall.
  destruct (Hall _ (proj2 (list_elem_of_In _ _) Hm)) as (cls & _ & Hcls & _).
  discriminate Hcls.
Qed.

(** * Further properties of the module *)

(** ** Levels and the verdict *)

Lemma is_error_failure_level m : is_error m = true ↔ get_level m = "failure".
Proof. unfold is_error, get_level. by destruct (msg_severity m). Qed.

(** X1 — [get_level] maps [INFO] to "notice", [WARNING] to "warning" and
    [ERROR] to "failure", and the verdict of [lint] is true exactly when
    the linter's message list then holds a message of level "failure". *)
Theorem verdict_iff_failure_level env L recipe_names :
  (∀ m, get_level m = match msg_severity m with
                      | INFO => "notice"
                      | WARNING => "warning"
                      | ERROR => "failure"
                      end)
  ∧ (snd (lint env L recipe_names) = true ↔
     ∃ m, m ∈ get_messages (fst (lint env L recipe_names)) ∧ get_level m = "failure").
Proof.
  split.
  - intros m. unfold get_level. by destruct (msg_severity m).
  - unfold get_messages. rewrite lint_verdict, lint_messages, existsb_exists.
    split; intros (m & Hm & He); exists m.
    + split; [by apply list_elem_of_In|by apply is_error_failure_level].
    + split; [by apply list_elem_of_In|by apply is_error_failure_level].
Qed.

(** ** The constructor *)

Lemma constructed_acyclic checks_module commit_message excl L :
  Linter_init checks_module commit_message excl = Some (Returns L) →
  ∀ a, ¬ tc (requires_in (get_checks checks_module)) a a.
Proof.
  intros HL a Ha. apply Linter_init_Returns in HL as (HL & _).
  apply tc_requires_edge in Ha. rewrite <- (lf_dag _ _ HL) in Ha.
  eapply topological_sort_acyclic; [by eapply linter_for_wf|apply (lf_ordered _ _ HL)|done].
Qed.

Lemma build_dag_node_iff registry n :
  n ∈ nx.node (build_dag registry)
  ↔ ∃ check, check ∈ registry ∧ (n = name check ∨ n ∈ requires check).
Proof.
  unfold build_dag.
  destruct (add_nodes_from_spec (map name registry) nx.empty empty_wf) as (H1 & H1n & _).
  destruct (add_edges_from_spec (requirement_edges registry) _ H1) as (_ & H2 & _).
  rewrite H2, H1n. split.
  - intros [[Hempty|Hin]|([a b] & He & Hx)].
    + inversion Hempty.
    + apply list_elem_of_In, in_map_iff in Hin as (check & <- & Hc).
      exists check. split; [by apply list_elem_of_In|by left].
    + apply requirement_edges_spec in He as (check & Hc & <- & Hb).
      exists check. split; [done|]. simpl in Hx. destruct Hx as [->| ->]; [by left|by right].
  - intros (check & Hc & [->|Hreq]).
    + left. right. apply list_elem_of_In, in_map. by apply list_elem_of_In.
    + right. exists (name check, n). split; [|by right].
      apply requirement_edges_spec. by exists check.
Qed.

(** X2 — the sort of the requirement graph in [Linter.__init__] returns
    an order exactly when the requirement relation of the registry has no
    cycle, whatever the registry: two checks of one name, or a
    requirement that names no registered check, do not make it raise.
    The order then lists the registered names and the required names,
    registered or not. *)
Theorem requirement_order_iff_acyclic registry :
  ((∃ ordered, nx.topological_sort (build_dag registry) true = Some (Returns ordered))
   ↔ (∀ a, ¬ tc (requires_in registry) a a))
  ∧ (∀ ordered,
       nx.topological_sort (build_dag registry) true = Some (Returns ordered) →
       ∀ n, n ∈ ordered ↔
            (∃ check, check ∈ registry
                      ∧ (n = name check ∨ n ∈ requires check))).
Proof.
  pose proof (build_dag_wf registry) as Hwf.
  pose proof (topological_sort_spec _ Hwf) as Hs.
  split; [split|].
  - intros [ordered Hsort] a Ha. apply tc_requires_edge in Ha.
    by eapply topological_sort_acyclic.
  - intros Hacyc.
    destruct (nx.topological_sort _ true) as [[l|e]|]; [by exists l| |done].
    destruct Hs as [_ [u Hu]]. by apply tc_requires_edge, Hacyc in Hu.
  - intros ordered Hsort n. rewrite Hsort in Hs. destruct Hs as (_ & Hnodes & _).
    rewrite Hnodes. apply build_dag_node_iff.
Qed.

Lemma instantiate_last l1 check l2 :
  (∀ c, c ∈ l2 → name c ≠ name check) →
  instantiate (l1 ++ check :: l2) !! name check = Some check.
Proof.
  unfold instantiate. induction l2 as [|c l2 IH] using rev_ind; intros Hl2.
  - rewrite foldl_app. simpl. apply lookup_insert_eq.
  - rewrite app_comm_cons, app_assoc, foldl_snoc.
    rewrite lookup_insert_ne.
    + apply IH. intros d Hd. apply Hl2. apply elem_of_app. by left.
    + apply Hl2. apply elem_of_app. right. left.
Qed.

Lemma instantiate_registered registry check :
  check ∈ registry → ∃ inst, instantiate registry !! name check = Some inst.
Proof.
  unfold instantiate. induction registry as [|c l IH] using rev_ind; intros Hin.
  - inversion Hin.
  - rewrite foldl_snoc. destruct (decide (name c = name check)) as [->|Hne].
    + exists c. apply lookup_insert_eq.
    + rewrite lookup_insert_ne by done. apply IH.
      apply elem_of_app in Hin as [?|Hin]; [done|].
      apply list_elem_of_singleton in Hin. congruence.
Qed.

(** X3 — in a constructed linter every registered check name has an
    instance, a registered class of that name, so that the check loop
    never fails to find one; of several classes with one name the instance
    is the class registered last. *)
Theorem every_registered_check_has_instance
    checks_module commit_message excl L check :
  Linter_init checks_module commit_message excl = Some (Returns L) →
  check ∈ get_checks checks_module →
  (∃ inst, check_instances L !! name check = Some inst
           ∧ name inst = name check ∧ inst ∈ get_checks checks_module)
  ∧ (∀ l1 l2, get_checks checks_module = l1 ++ check :: l2 →
              (∀ c, c ∈ l2 → name c ≠ name check) →
              check_instances L !! name check = Some check).
Proof.
  intros Hinit Hin. apply Linter_init_Returns in Hinit as (HL & _).
  rewrite (lf_instances _ _ HL). split.
  - destruct (instantiate_registered _ _ Hin) as [inst Hinst].
    exists inst. split; [done|]. apply instantiate_lookup in Hinst. tauto.
  - intros l1 l2 -> Hl2. by apply instantiate_last.
Qed.

Lemma every_registered_check_has_instance_witness :
  let older := {| name := "B"; severity := INFO; requires := [];
                  doc := "older"; hooks := no_hooks |} in
  let L := Sample.linter [older; Sample.B] "" None in
  check_instances L !! "B" = Some Sample.B.
Proof.
  intros older L.
  assert (Hinit : Linter_init [older; Sample.B] "" None = Some (Returns L))
    by (vm_compute; reflexivity).
  assert (Hin : Sample.B ∈ get_checks [older; Sample.B]).
  { unfold get_checks. apply elem_of_app. right. right. left. }
  destruct (every_registered_check_has_instance _ _ _ _ _ Hinit Hin) as [_ Hlast].
  apply (Hlast (own_checks ++ [older]) []).
  - unfold get_checks. by rewrite <- app_assoc.
  - intros c Hc. inversion Hc.
Defined.

(** ** The registry *)

Lemma registry_after_filter classes : ∀ registry,
  foldl LintCheckMeta_new registry classes
  = registry ++ filter (λ c, name c ≠ "LintCheck") classes.
Proof.
  induction classes as [|c classes IH]; intros registry; simpl.
  - by rewrite app_nil_r.
  - rewrite IH. unfold LintCheckMeta_new.
    destruct (String.eqb_spec (name c) "LintCheck") as [Heq|Hne].
    + by rewrite filter_cons_False by (intros H; by apply H).
    + rewrite filter_cons_True by done. by rewrite <- app_assoc.
Qed.

(** X4 — the metaclass registers every created class except one named
    [LintCheck], in creation order and without removing duplicates: the
    registry is the list of created classes without those named
    [LintCheck]; after this module's ten classes and those of the checks
    module it is the ten classes followed by the checks module's. *)
Theorem registry_is_creation_order classes checks_module :
  registry_after classes = filter (λ c, name c ≠ "LintCheck") classes
  ∧ (∀ c, c ∈ registry_after classes → name c ≠ "LintCheck")
  ∧ registry_after (own_checks ++ checks_module)
    = own_checks ++ filter (λ c, name c ≠ "LintCheck") checks_module
  ∧ ((∀ c, c ∈ checks_module → name c ≠ "LintCheck") →
     registry_after (own_checks ++ checks_module) = get_checks checks_module).
Proof.
  assert (H : ∀ l, registry_after l = filter (λ c, name c ≠ "LintCheck") l).
  { intros l. unfold registry_after. by rewrite registry_after_filter. }
  split; [apply H|]. split; [|split].
  - intros c Hc. rewrite H in Hc. by apply list_elem_of_filter in Hc as [? _].
  - rewrite H, filter_app. f_equal.
  - intros Hcm. rewrite H, filter_app. unfold get_checks. f_equal.
    clear H. induction checks_module as [|c l IH]; [done|].
    rewrite filter_cons_True by (apply Hcm; left).
    f_equal. apply IH. intros d Hd. apply Hcm. by right.
Qed.

Lemma registry_is_creation_order_witness :
  registry_after (own_checks ++ [Sample.A; Sample.B]) = get_checks [Sample.A; Sample.B].
Proof.
  destruct (registry_is_creation_order [] [Sample.A; Sample.B]) as (_ & _ & _ & H).
  apply H. intros c Hc.
  apply elem_of_cons in Hc as [->|Hc]; [discriminate|].
  apply elem_of_cons in Hc as [->|Hc]; [discriminate|]. inversion Hc.
Defined.

(** ** The executor *)

Lemma run_checks_groups L recipe ordered : ∀ (checks_to_skip : gset string) messages ms,
  run_checks L recipe ordered checks_to_skip messages = Returns ms →
  ∃ groups,
    ms = messages ++ concat groups
    ∧ Forall2 (λ check group, group = [] ∨ run_instance L check recipe = Returns group)
              ordered groups.
Proof.
  induction ordered as [|check rest IH]; simpl; intros checks_to_skip messages ms Hrun.
  - inversion Hrun; subst. exists []. split; [by rewrite app_nil_r|constructor].
  - case_bool_decide.
    + apply IH in Hrun as (groups & -> & Hall). exists ([] :: groups).
      split; [done|]. constructor; [by left|done].
    + destruct (run_instance L check recipe) as [res|e] eqn:Hres; [|done].
      apply IH in Hrun as (groups & -> & Hall). exists (res :: groups).
      split; [by rewrite <- app_assoc|]. constructor; [by right|done].
Qed.

(** X5 — the messages that [lint_one] returns for a loaded recipe are the
    messages of the checks in the order of [checks_ordered]: for each
    check of the order either nothing (it was skipped or passed) or
    exactly what its [run] returned, concatenated. *)
Theorem messages_follow_execution_order env L recipe_name recipe ms :
  from_file env recipe_name = Loaded recipe →
  lint_one env L recipe_name = Returns ms →
  ∃ groups,
    ms = concat groups
    ∧ Forall2 (λ check group, group = [] ∨ run_instance L check recipe = Returns group)
              (checks_ordered L) groups.
Proof.
  intros Hload Hone. unfold lint_one in Hone. rewrite Hload in Hone.
  by apply run_checks_groups in Hone.
Qed.

Lemma messages_follow_execution_order_witness :
  let L := Sample.linter [Sample.good; Sample.B] "" None in
  lint_one Sample.env L "bar"
  = Returns [make_message Sample.good Sample.recipe None None None;
             make_message Sample.B Sample.recipe None None None]
  ∧ ∃ groups,
      [make_message Sample.good Sample.recipe None None None;
       make_message Sample.B Sample.recipe None None None] = concat groups
      ∧ Forall2 (λ check group,
                 group = [] ∨ run_instance L check Sample.recipe = Returns group)
                (checks_ordered L) groups.
Proof.
  intros L.
  assert (Hone : lint_one Sample.env L "bar"
                 = Returns [make_message Sample.good Sample.recipe None None None;
                            make_message Sample.B Sample.recipe None None None])
    by (vm_compute; reflexivity).
  split; [exact Hone|].
  apply (messages_follow_execution_order Sample.env L "bar" Sample.recipe); [reflexivity|].
  exact Hone.
Defined.



Lemma in_sorted x l : x ∈ l → In x (sorted l).
Proof.
  intros Hx. apply list_elem_of_In. by rewrite sorted_Permutation.
Qed.

Lemma error_message_fails_lint env L recipe_names recipe_name m :
  recipe_name ∈ recipe_names → m ∈ lint_recipe env L recipe_name →
  msg_severity m = ERROR → snd (lint env L recipe_names) = true.
Proof.
  intros Hn Hm Hsev. rewrite lint_verdict. apply existsb_exists. exists m. split.
  - apply in_or_app. right. unfold run_messages. apply in_flat_map.
    exists recipe_name. split; [by apply in_sorted|by apply list_elem_of_In].
  - unfold is_error. by rewrite Hsev.
Qed.

Lemma own_checks_severity exc : severity (recipe_error_to_lint_check exc) = ERROR.
Proof. by destruct exc. Qed.

(** X7 — a recipe that the loader rejects with a [RecipeError] yields
    exactly one message, whatever the linter and its skips: it is issued by
    the check that [recipe_error_to_lint_check] gives for the error
    ([linter_failure] for an unlisted one), has severity [ERROR], the file
    name of the bare recipe, and the error's line (0 without one) as start
    and end line; and a call of [lint] that names the recipe returns
    true. *)
Theorem unloadable_recipe_reports_sentinel env L recipe_name exc line :
  from_file env recipe_name = RecipeErrorRaised exc line →
  (∃ m, lint_one env L recipe_name = Returns [m]
        ∧ msg_check m = ByClass (recipe_error_to_lint_check exc)
        ∧ msg_severity m = ERROR
        ∧ msg_start_line m = default 0 line ∧ msg_end_line m = default 0 line
        ∧ msg_fname m = path (new_recipe env recipe_name))
  ∧ (∀ recipe_names, recipe_name ∈ recipe_names → snd (lint env L recipe_names) = true).
Proof.
  intros Hload.
  set (m := make_message (recipe_error_to_lint_check exc) (new_recipe env recipe_name)
                         None None line).
  assert (Hone : lint_one env L recipe_name = Returns [m])
    by (unfold lint_one; by rewrite Hload).
  assert (Hsev : msg_severity m = ERROR).
  { unfold m. rewrite make_message_severity. apply own_checks_severity. }
  split.
  - exists m. split; [done|]. split; [apply make_message_check|]. split; [done|].
    unfold m, make_message. by destruct (partition_newline _).
  - intros recipe_names Hn. apply (error_message_fails_lint _ _ _ recipe_name m); try done.
    unfold lint_recipe. rewrite Hone. left.
Qed.

Lemma unloadable_recipe_reports_sentinel_witness :
  let L := Sample.linter [Sample.good] "[lint skip missing_build for broken]"
                         (Some ["missing_build"]) in
  ∃ m, lint_one Sample.env L "broken" = Returns [m]
       ∧ msg_check m = ByClass missing_build ∧ msg_start_line m = 7.
Proof.
  intros L.
  destruct (unloadable_recipe_reports_sentinel Sample.env L "broken" MissingBuild (Some 7)
              eq_refl) as [(m & H1 & H2 & _ & H3 & _) _].
  exists m. split; [exact H1|]. split; [exact H2|exact H3].
Defined.

(** X8 — when [lint_one] raises for a recipe (the loader failed with
    something else than a [RecipeError], or a check's hooks raised), [lint]
    records for that recipe the single message of [linter_failure], of
    severity [ERROR], and returns true. *)
Theorem raising_lint_one_fails_lint env L recipe_name e :
  lint_one env L recipe_name = Raises e →
  lint_recipe env L recipe_name
  = [make_message linter_failure (new_recipe env recipe_name) None None None]
  ∧ (∀ recipe_names, recipe_name ∈ recipe_names →
       snd (lint env L recipe_names) = true
       ∧ ∃ m, m ∈ get_messages (fst (lint env L recipe_names))
              ∧ msg_check m = ByClass linter_failure ∧ msg_severity m = ERROR).
Proof.
  intros Hone.
  set (m := make_message linter_failure (new_recipe env recipe_name) None None None).
  assert (Hrec : lint_recipe env L recipe_name = [m])
    by (unfold lint_recipe; by rewrite Hone).
  assert (Hsev : msg_severity m = ERROR) by apply make_message_severity.
  split; [done|]. intros recipe_names Hn. split.
  - apply (error_message_fails_lint _ _ _ recipe_name m); try done. rewrite Hrec. left.
  - exists m. split; [|split; [apply make_message_check|done]].
    unfold get_messages. rewrite lint_messages. apply elem_of_app. right.
    unfold run_messages. apply list_elem_of_In, in_flat_map.
    exists recipe_name. split; [by apply in_sorted|]. rewrite Hrec. by left.
Qed.

Lemma raising_lint_one_fails_lint_witness :
  let L := Sample.linter [Sample.bad; Sample.good] "" None in
  snd (lint Sample.env L ["zeta"; "bar"]) = true.
Proof.
  intros L.
  assert (Hone : lint_one Sample.env L "bar" = Raises (TypeError "'bool' object is not iterable"))
    by (vm_compute; reflexivity).
  destruct (raising_lint_one_fails_lint Sample.env L "bar" _ Hone) as [_ H].
  apply (H ["zeta"; "bar"]). right. left.
Defined.





Lemma failed_check_silences_dependents_witness :
  let L := Sample.linter [Sample.A; Sample.B] "" None in
  let ms := [make_message Sample.B Sample.recipe None None None] in
  lint_one Sample.env L "bar" = Returns ms
  ∧ ∀ m, m ∈ ms → check_ref_str (msg_check m) ≠ "A".
Proof.
  intros L ms.
  assert (Hinit : Linter_init [Sample.A; Sample.B] "" None = Some (Returns L))
    by (vm_compute; reflexivity).
  assert (Hone : lint_one Sample.env L "bar" = Returns ms) by (vm_compute; reflexivity).
  split; [exact Hone|].
  apply (failed_check_silences_dependents _ _ _ _ _ _ ms "A" "B" Hinit Hone).
  - apply tc_once. exists Sample.A. split; [|split; [reflexivity|left]].
    unfold get_checks. apply elem_of_app. right. left.
  - exists (make_message Sample.B Sample.recipe None None None). split; [left|reflexivity].
Defined.

Lemma run_checks_includes checks_module L recipe ordered :
  linter_for checks_module L →
  ∀ (checks_to_skip : gset string) messages new check res,
  run_checks L recipe ordered checks_to_skip messages = Returns (messages ++ new) →
  check ∈ ordered → check ∉ checks_to_skip →
  (∀ b, tc (edge (checks_dag L)) check b →
        ∀ m, m ∈ new → check_ref_str (msg_check m) ≠ b) →
  run_instance L check recipe = Returns res →
  ∀ m, m ∈ res → m ∈ new.
Proof.
  intros HL. pose proof (linter_for_wf _ _ HL) as Hwf.
  induction ordered as [|x rest IH]; simpl;
    intros checks_to_skip messages new check res Hrun Hin Hskip Hquiet Hres m Hm.
  - inversion Hin.
  - case_bool_decide as Hx.
    + apply elem_of_cons in Hin as [->|Hin]; [done|].
      by apply (IH _ _ _ check res Hrun Hin Hskip Hquiet Hres).
    + destruct (run_instance L x recipe) as [rx|e] eqn:Hrx; [|done].
      pose proof (run_instance_names _ _ _ _ _ HL Hrx) as Hnames.
      rewrite Forall_forall in Hnames.
      pose proof Hrun as Hrun0.
      apply (run_checks_new_messages _ _ _ _ HL) in Hrun as (new' & Heq & _).
      rewrite <- app_assoc in Heq. apply app_inv_head in Heq. subst new.
      rewrite app_assoc in Hrun0.
      apply elem_of_cons in Hin as [->|Hin].
      * rewrite Hrx in Hres. inversion Hres; subst. apply elem_of_app. by left.
      * apply elem_of_app. right.
        apply (IH _ _ _ check res Hrun0 Hin); [| |done|done].
        -- destruct rx as [|m0 rx]; [done|].
           intros Hc. apply elem_of_union in Hc as [?|Hc]; [done|].
           apply ancestors_spec in Hc as [Hc _]; [|done].
           apply (Hquiet x Hc m0); [left|]. apply Hnames. left.
        -- intros b Hb m' Hm'. apply (Hquiet b Hb). apply elem_of_app. by right.
Qed.

(** X11 — a check of the order runs, and all the messages of its [run] are
    among those [lint_one] returns, when it is not in the skip set
    resolved for the recipe and no check that it requires, directly or
    through other checks, has reported. *)
Theorem unskipped_check_reports
    checks_module commit_message excl L env recipe_name recipe ms check res :
  Linter_init checks_module commit_message excl = Some (Returns L) →
  from_file env recipe_name = Loaded recipe →
  lint_one env L recipe_name = Returns ms →
  check ∈ checks_ordered L →
  check ∉ fst (collect_skips L recipe_name recipe) →
  (∀ b, tc (requires_in (get_checks checks_module)) check b →
        ∀ m, m ∈ ms → check_ref_str (msg_check m) ≠ b) →
  run_instance L check recipe = Returns res →
  ∀ m, m ∈ res → m ∈ ms.
Proof.
  intros Hinit Hload Hone Hin Hskip Hquiet Hres.
  apply Linter_init_Returns in Hinit as (HL & _).
  unfold lint_one in Hone. rewrite Hload in Hone.
  apply (run_checks_includes _ _ _ _ HL _ [] ms check res Hone Hin Hskip); [|done].
  intros b Hb. apply Hquiet. apply tc_requires_edge. by rewrite <- (lf_dag _ _ HL).
Qed.

Lemma unskipped_check_reports_witness :
  let quiet := {| name := "B"; severity := ERROR; requires := [];
                  doc := "B"; hooks := no_hooks |} in
  let L := Sample.linter [Sample.A; quiet] "" None in
  let ms := [make_message Sample.A Sample.recipe None None None] in
  lint_one Sample.env L "bar" = Returns ms
  ∧ ∀ m, m ∈ [make_message Sample.A Sample.recipe None None None] → m ∈ ms.
Proof.
  intros quiet L ms.
  assert (Hinit : Linter_init [Sample.A; quiet] "" None = Some (Returns L))
    by (vm_compute; reflexivity).
  assert (Hone : lint_one Sample.env L "bar" = Returns ms) by (vm_compute; reflexivity).
  assert (Hskips : fst (collect_skips L "bar" Sample.recipe) = ∅)
    by (vm_compute; reflexivity).
  split; [exact Hone|].
  apply (unskipped_check_reports _ _ _ L Sample.env "bar" Sample.recipe ms "A" _
           Hinit eq_refl Hone).
  - apply list_elem_of_In. vm_compute. repeat (first [left; reflexivity | right]).
  - rewrite Hskips. apply not_elem_of_empty.
  - intros b Hb m Hm Heq. apply list_elem_of_singleton in Hm as ->.
    simpl in Heq. subst b. by apply (constructed_acyclic _ _ _ _ Hinit "A").
  - vm_compute. reflexivity.
Defined.

(** ** What [findall] reports *)

Lemma match_literal_inv lit : ∀ s rest,
  match_literal lit s = Some rest → s = lit ++ rest.
Proof.
  induction lit as [|a lit IH]; intros s rest; simpl.
  - by intros [= ->].
  - destruct s as [|b s]; [done|].
    destruct (N.eqb_spec a b) as [->|]; [|done].
    intros H. apply IH in H as ->. done.
Qed.

Lemma lstrip_inv s : ∃ ws, forallb is_space ws = true ∧ s = ws ++ lstrip s.
Proof.
  induction s as [|a s (ws & Hws & IH)]; simpl.
  - by exists [].
  - destruct (is_space a) eqn:Ha.
    + exists (a :: ws). split; [simpl; by rewrite Ha|]. simpl. by f_equal.
    + by exists [].
Qed.

Lemma match_word_inv s :
  s = fst (match_word s) ++ snd (match_word s)
  ∧ forallb is_word (fst (match_word s)) = true.
Proof.
  induction s as [|a s [IH1 IH2]]; simpl; [done|].
  destruct (is_word a) eqn:Ha; [|done].
  destruct (match_word s) as [w r]. simpl in *. split.
  - by f_equal.
  - by rewrite Ha.
Qed.

Lemma space_is_no_bracket a : is_space a = true → (a =? 93)%N = false.
Proof.
  intros Ha. destruct (N.eqb_spec a 93) as [->|]; [|done]. discriminate Ha.
Qed.

Lemma match_recipe_inv s : ∀ recipe rest,
  match_recipe s = Some (recipe, rest) →
  recipe_name_ok recipe = true
  ∧ ∃ ws, forallb is_space ws = true ∧ s = recipe ++ ws ++ decode "]" ++ rest.
Proof.
  induction s as [|a s IH]; intros recipe rest; rewrite match_recipe_eq.
  - done.
  - destruct (match_literal (decode "]") (lstrip (a :: s))) as [r|] eqn:Hlit.
    + intros [= <- <-]. split; [done|].
      apply match_literal_inv in Hlit.
      destruct (lstrip_inv (a :: s)) as (ws & Hws & Heq).
      exists ws. split; [done|]. cbn [app]. rewrite <- Hlit. exact Heq.
    + destruct (a =? 10)%N eqn:Hnl; [done|].
      destruct (match_recipe s) as [[r rest']|] eqn:Hrec; [|done].
      intros [= <- <-]. destruct (IH _ _ eq_refl) as (Hok & ws & Hws & Heq).
      split; [|exists ws; split; [done|]; cbn [app]; by f_equal].
      simpl. rewrite Hnl, Hok. simpl. rewrite andb_true_r.
      cbn [lstrip] in Hlit. destruct (is_space a) eqn:Ha.
      * rewrite (space_is_no_bracket a Ha). simpl.
        destruct (forallb is_space r) eqn:Hr; [|done]. exfalso.
        rewrite Heq, app_assoc in Hlit.
        change (decode "]" ++ rest') with (93%N :: rest') in Hlit.
        rewrite (lstrip_spaces (r ++ ws) 93%N rest') in Hlit; [|
          by rewrite forallb_app, Hr, Hws|done].
        rewrite match_literal_bracket in Hlit. discriminate Hlit.
      * rewrite match_literal_bracket in Hlit. rewrite N.eqb_sym.
        by destruct (93 =? a)%N.
Qed.

Lemma match_at_inv s func recipe rest :
  match_at s = Some ((func, recipe), rest) →
  func ≠ [] ∧ forallb is_word func = true ∧ recipe_name_ok recipe = true
  ∧ ∃ ws1 ws2, forallb is_space ws1 = true ∧ forallb is_space ws2 = true
               ∧ s = directive ws1 func recipe ws2 ++ rest.
Proof.
  unfold match_at.
  destruct (match_literal (decode "[") s) as [s1|] eqn:H1; [|done].
  destruct (match_literal (decode "lint skip ") (lstrip s1)) as [s2|] eqn:H2; [|done].
  destruct (match_word_inv s2) as [Hw1 Hw2].
  destruct (match_word s2) as [[|a f] s3]; [done|]. simpl in Hw1, Hw2.
  destruct (match_literal (decode " for ") s3) as [s4|] eqn:H4; [|done].
  destruct (match_recipe s4) as [[r rest']|] eqn:H5; [|done].
  intros [= <- <- <-].
  apply match_literal_inv in H1, H2, H4.
  apply match_recipe_inv in H5 as (Hok & ws2 & Hws2 & H5).
  destruct (lstrip_inv s1) as (ws1 & Hws1 & Hs1).
  split; [done|]. split; [done|]. split; [done|].
  exists ws1, ws2. split; [done|]. split; [done|].
  subst s4 s3. rewrite Hw1 in H2. rewrite H2 in Hs1. subst s1 s.
  unfold directive. by rewrite <- !app_assoc.
Qed.

Lemma findall_fuel_inv n : ∀ s func recipe,
  (func, recipe) ∈ findall_fuel n s →
  func ≠ [] ∧ forallb is_word func = true ∧ recipe_name_ok recipe = true
  ∧ ∃ pre ws1 ws2 post,
      forallb is_space ws1 = true ∧ forallb is_space ws2 = true
      ∧ s = pre ++ directive ws1 func recipe ws2 ++ post.
Proof.
  induction n as [|n IH]; intros s func recipe Hin; simpl in Hin.
  - inversion Hin.
  - destruct s as [|a s]; [inversion Hin|].
    destruct (match_at (a :: s)) as [[[f r] rest]|] eqn:Hat.
    + apply match_at_inv in Hat as (Hf & Hw & Hr & ws1 & ws2 & Hws1 & Hws2 & Hs).
      apply elem_of_cons in Hin as [Heq|Hin].
      * inversion Heq; subst f r. repeat (split; [done|]).
        by exists [], ws1, ws2, rest.
      * apply IH in Hin as (Hf' & Hw' & Hr' & pre & v1 & v2 & post & Hv1 & Hv2 & Hrest).
        repeat (split; [done|]).
        exists (directive ws1 f r ws2 ++ pre), v1, v2, post.
        split; [done|]. split; [done|]. by rewrite Hs, Hrest, <- !app_assoc.
    + apply IH in Hin as (Hf' & Hw' & Hr' & pre & v1 & v2 & post & Hv1 & Hv2 & Hrest).
      repeat (split; [done|]).
      exists (a :: pre), v1, v2, post. split; [done|]. split; [done|].
      simpl. by f_equal.
Qed.

Lemma directive_has_brackets (p : N → bool) ws1 func recipe ws2 pre post :
  p 91%N = false ∨ p 93%N = false →
  forallb p (pre ++ directive ws1 func recipe ws2 ++ post) = false.
Proof.
  intros Hp. unfold directive. rewrite !forallb_app.
  change (forallb p (decode "[")) with (p 91%N && true)%bool.
  change (forallb p (decode "]")) with (p 93%N && true)%bool.
  destruct Hp as [-> | ->]; simpl; rewrite ?andb_false_r; done.
Qed.

(** X12 — every pair that [findall] reports stands in the text as a
    directive token: the two names are the encodings of a check name that
    is a non-empty run of word characters and of a recipe name that has no
    newline, no closing bracket and no white space at its end (white space
    at its start is kept), and the code points of the text are some
    prefix, the token with white space inside its brackets, and a rest.
    Word characters and white space are those of Unicode. *)
Theorem reported_directives_are_tokens text f r :
  (f, r) ∈ findall text →
  ∃ func recipe,
    f = encode func ∧ r = encode recipe
    ∧ func ≠ [] ∧ forallb is_word func = true ∧ recipe_name_ok recipe = true
    ∧ ∃ pre ws1 ws2 post,
        forallb is_space ws1 = true ∧ forallb is_space ws2 = true
        ∧ decode text = pre ++ directive ws1 func recipe ws2 ++ post.
Proof.
  unfold findall. intros Hin.
  apply list_elem_of_In, in_map_iff in Hin as ([func recipe] & [= <- <-] & Hin).
  exists func, recipe. split; [done|]. split; [done|].
  by apply (findall_fuel_inv (length (decode text))), list_elem_of_In.
Qed.

(* The white space before the closing bracket holds a no-break space
   (U+00A0). *)
Lemma reported_directives_are_tokens_witness :
  ("café", " bar") ∈ findall "see [  lint skip café for  bar   ] please"
  ∧ ∃ func recipe,
      "café" = encode func ∧ " bar" = encode recipe ∧ recipe_name_ok recipe = true.
Proof.
  assert (Hin : ("café", " bar") ∈ findall "see [  lint skip café for  bar   ] please")
    by (vm_compute; left).
  split; [exact Hin|].
  destruct (reported_directives_are_tokens _ _ _ Hin)
    as (func & recipe & Hf & Hr & _ & _ & Hok & _).
  by exists func, recipe.
Defined.

(** X14 — a text without an opening bracket, or without a closing one,
    holds no directive: [findall] reports nothing and [load_skips] returns
    the empty dictionary, so that an unterminated directive skips
    nothing. *)
Theorem text_without_brackets_skips_nothing text :
  all_chars (λ a, negb (Ascii.eqb a "[")) text = true
  ∨ all_chars (λ a, negb (Ascii.eqb a "]")) text = true →
  findall text = [] ∧ load_skips text = ∅.
Proof.
  intros Htext.
  assert (Hnone : findall text = []).
  { unfold findall.
    destruct (skip_re_findall (decode text)) as [|[func recipe] l] eqn:Hf; [done|]. exfalso.
    assert (Hin : (func, recipe) ∈ skip_re_findall (decode text)) by (rewrite Hf; left).
    apply findall_fuel_inv in Hin as (_ & _ & _ & pre & ws1 & ws2 & post & _ & _ & Heq).
    destruct Htext as [H|H].
    - apply (decode_free "["%char) in H; [|done]. rewrite Heq in H.
      rewrite directive_has_brackets in H; [done|by left].
    - apply (decode_free "]"%char) in H; [|done]. rewrite Heq in H.
      rewrite directive_has_brackets in H; [done|by right]. }
  split; [done|]. unfold load_skips. by rewrite Hnone.
Qed.

Lemma text_without_brackets_skips_nothing_witness :
  load_skips "[lint skip foo for bar" = ∅.
Proof.
  apply (text_without_brackets_skips_nothing "[lint skip foo for bar").
  right. reflexivity.
Defined.

(** ** Title and body of a message *)

Lemma lstrip_head s :
  lstrip s = [] ∨ ∃ a tl, lstrip s = a :: tl ∧ is_space a = false.
Proof.
  induction s as [|a s IH]; simpl; [by left|].
  destruct (is_space a) eqn:Ha; [done|]. right. by exists a, s.
Qed.

Lemma rstrip_head a tl :
  is_space a = false → ∃ tl', rstrip (a :: tl) = a :: tl'.
Proof.
  intros Ha. simpl. destruct (rstrip tl) as [|b r].
  - rewrite Ha. by eexists.
  - by eexists.
Qed.

Lemma rstrip_idem s : rstrip (rstrip s) = rstrip s.
Proof.
  induction s as [|a s IH]; simpl; [done|].
  destruct (rstrip s) as [|b r] eqn:Hr.
  - destruct (is_space a) eqn:Ha; simpl; [done|]. by rewrite Ha.
  - change (rstrip (a :: b :: r))
      with (match rstrip (b :: r) with
            | [] => if is_space a then [] else [a]
            | c :: r' => a :: c :: r'
            end).
    by rewrite IH.
Qed.

Lemma rstrip_last s c : last (rstrip s) = Some c → is_space c = false.
Proof.
  induction s as [|a s IH]; simpl; [done|].
  destruct (rstrip s) as [|b r] eqn:Hr.
  - destruct (is_space a) eqn:Ha; [done|]. simpl. by intros [= <-].
  - intros H. apply IH. by rewrite last_cons_cons in H.
Qed.

Lemma strip_idem s : strip (strip s) = strip s.
Proof.
  unfold strip. destruct (lstrip_head s) as [->|(a & tl & -> & Ha)]; [done|].
  destruct (rstrip_head a tl Ha) as [tl' Htl]. rewrite Htl.
  change (lstrip (a :: tl')) with (if is_space a then lstrip tl' else a :: tl').
  rewrite Ha, <- Htl. apply rstrip_idem.
Qed.

Lemma strip_ends s c :
  head (strip s) = Some c ∨ last (strip s) = Some c → is_space c = false.
Proof.
  unfold strip. intros [H|H]; [|by eapply rstrip_last].
  destruct (lstrip_head s) as [Hl|(a & tl & Hl & Ha)]; rewrite Hl in H; [done|].
  destruct (rstrip_head a tl Ha) as [tl' Htl]. rewrite Htl in H. simpl in H. congruence.
Qed.

Lemma forallb_lstrip (p : N → bool) s : forallb p s = true → forallb p (lstrip s) = true.
Proof.
  induction s as [|a s IH]; simpl; [done|].
  intros H. apply andb_prop in H as [Ha Hs].
  destruct (is_space a); [by apply IH|]. simpl. by rewrite Ha, Hs.
Qed.

Lemma forallb_rstrip (p : N → bool) s : forallb p s = true → forallb p (rstrip s) = true.
Proof.
  induction s as [|a s IH]; simpl; [done|].
  intros H. apply andb_prop in H as [Ha Hs]. specialize (IH Hs).
  destruct (rstrip s) as [|b r].
  - destruct (is_space a); [done|]. simpl. by rewrite Ha.
  - simpl in *. by rewrite Ha, IH.
Qed.

Lemma forallb_strip (p : N → bool) s : forallb p s = true → forallb p (strip s) = true.
Proof. intros H. unfold strip. by apply forallb_rstrip, forallb_lstrip. Qed.

Lemma partition_newline_spec s :
  all_chars (λ a, negb (Ascii.eqb a "010")) (fst (partition_newline s)) = true
  ∧ ((s = fst (partition_newline s) ∧ snd (partition_newline s) = EmptyString)
     ∨ s = fst (partition_newline s) +:+ nl +:+ snd (partition_newline s)).
Proof.
  induction s as [|a s [IH1 IH2]]; simpl; [split; [done|by left]|].
  destruct (Ascii.eqb_spec a "010") as [->|Hne].
  - split; [done|]. by right.
  - destruct (partition_newline s) as [h t]. simpl in *. split.
    + rewrite IH1, andb_true_r. by destruct (Ascii.eqb_spec a "010").
    + destruct IH2 as [[-> ->]|Heq]; [by left|]. right.
      rewrite append_cons. by f_equal.
Qed.

(** X15 — the title of a message built by [make_message] is the first
    line of the class's docstring (after [::] and doubled backquotes are
    replaced by single ones) without the white space of Unicode at its two
    ends: its code points are those of the first line stripped, they hold
    no newline, begin and end with no white space, and stripping them
    again changes nothing. The body is what follows the first newline, or
    is empty when the docstring has one line only. *)
Theorem message_title_is_clean_line cls recipe section fname line :
  let m := make_message cls recipe section fname line in
  let d := replace_double "`" (replace_double ":" (doc cls)) in
  ∃ first_line,
    all_chars (λ a, negb (Ascii.eqb a "010")) first_line = true
    ∧ ((d = first_line ∧ msg_body m = EmptyString)
       ∨ d = first_line +:+ nl +:+ msg_body m)
    ∧ msg_title m = encode (strip (decode first_line))
    ∧ decode (msg_title m) = strip (decode first_line)
    ∧ strip (decode (msg_title m)) = decode (msg_title m)
    ∧ forallb (λ c, negb (c =? 10)%N) (decode (msg_title m)) = true
    ∧ (∀ c, head (decode (msg_title m)) = Some c ∨ last (decode (msg_title m)) = Some c →
            is_space c = false).
Proof.
  intros m d.
  pose proof (partition_newline_spec d) as [Hnl Hparts].
  assert (Htitle : msg_title m = encode (strip (decode (fst (partition_newline d))))
                   ∧ msg_body m = snd (partition_newline d)).
  { unfold m, make_message. fold d. destruct (partition_newline d) as [h t].
    by destruct (truthy section);
      [destruct (get_raw_range recipe _) as [[[[? ?] ?] ?]|]|]. }
  destruct Htitle as [Ht Hb]. exists (fst (partition_newline d)).
  assert (Hdec : decode (msg_title m) = strip (decode (fst (partition_newline d)))).
  { rewrite Ht. apply decode_encode, forallb_strip, decode_scalar. }
  rewrite Hdec, Hb. repeat split; try done.
  - apply strip_idem.
  - apply forallb_strip. by apply (decode_free "010"%char).
  - apply strip_ends.
Qed.

(** ** The hooks of a check *)

Lemma decimal_inj a b : decimal a = decimal b → a = b.
Proof.
  unfold decimal. intros H.
  apply (f_equal NilEmpty.uint_of_string) in H. rewrite !NilEmpty.usu in H.
  injection H as H. apply (f_equal Nat.of_uint) in H.
  by rewrite !DecimalNat.Unsigned.of_to in H.
Qed.

Lemma imap_paired_fst {A B} (f : nat → B) (l : list A) :
  (imap (λ n x, (x, f n)) l).*1 = l.
Proof.
  revert f. induction l as [|x l IH]; intros f; [done|].
  rewrite imap_cons, fmap_cons. simpl. f_equal. apply (IH (f ∘ S)).
Qed.

Lemma each_source_inv {Source Deps} (h : check_hooks Source Deps) sections : ∀ calls,
  each_source Source Deps h sections = Returns calls →
  ∃ groups, calls = concat groups
            ∧ Forall2 (λ s group, check_source _ _ h s.1 s.2 = Returns group)
                      sections groups.
Proof.
  induction sections as [|[src section] rest IH]; simpl; intros calls Hrun.
  - inversion Hrun. exists []. split; [done|constructor].
  - destruct (check_source _ _ h src section) as [c|] eqn:Hc; [|done].
    destruct (each_source _ _ h rest) as [more|]; [|done].
    inversion Hrun; subst. destruct (IH _ eq_refl) as (groups & -> & Hall).
    exists (c :: groups). split; [done|]. by constructor.
Qed.

(** X16 — [run] calls [check_source] once for each source of the recipe
    and in their order: with the path [source] for a single mapping, with
    the pairwise different paths [source/0], [source/1], ... for a list,
    and not at all when the field is neither. When [run] returns, each of
    these calls and the calls of [check_recipe] and [check_deps] returned,
    and the messages stand in this order: those of [check_recipe], those
    of the sources, those of [check_deps]. *)
Theorem check_source_called_per_source
    {Source Deps} (h : check_hooks Source Deps) source get_deps_dict recipe :
  (∀ srcs, (source_sections Source (SourceList Source srcs)).*1 = srcs
           ∧ (source_sections Source (SourceList Source srcs)).*2
             = (λ n, "source/" +:+ decimal n) <$> seq 0 (length srcs))
  ∧ (∀ src, source_sections Source (SourceDict Source src) = [(src, "source")])
  ∧ source_sections Source (SourceOther Source) = []
  ∧ NoDup (source_sections Source (source recipe)).*2
  ∧ (∀ calls,
       run_hooks Source Deps h source get_deps_dict recipe = Returns calls →
       ∃ general groups depends,
         check_recipe _ _ h recipe = Returns general
         ∧ Forall2 (λ s group, check_source _ _ h s.1 s.2 = Returns group)
                   (source_sections Source (source recipe)) groups
         ∧ check_deps _ _ h (get_deps_dict recipe) = Returns depends
         ∧ calls = general ++ concat groups ++ depends).
Proof.
  assert (Hpaths : ∀ srcs, (source_sections Source (SourceList Source srcs)).*2
                   = (λ n, "source/" +:+ decimal n) <$> seq 0 (length srcs)).
  { intros srcs. simpl. rewrite fmap_imap.
    exact (imap_seq_0 srcs (λ n, "source/" +:+ decimal n)). }
  split; [|split; [done|split; [done|split]]].
  - intros srcs. split; [|apply Hpaths]. simpl. apply imap_paired_fst.
  - destruct (source recipe) as [|src|srcs].
    + apply NoDup_nil_2.
    + apply NoDup_singleton.
    + rewrite Hpaths. apply NoDup_fmap_2_strong; [|apply NoDup_seq].
      intros a b _ _ Heq. apply decimal_inj. by apply (String.app_inj "source/") in Heq.
  - intros calls Hrun. unfold run_hooks in Hrun.
    destruct (check_recipe _ _ h recipe) as [general|]; [|done].
    destruct (each_source _ _ h _) as [per_source|] eqn:Hs; [|done].
    destruct (check_deps _ _ h _) as [depends|]; [|done].
    inversion Hrun; subst. apply each_source_inv in Hs as (groups & -> & Hall).
    by exists general, groups, depends.
Qed.

Lemma check_source_called_per_source_witness :
  let h := {| check_recipe := λ _, Returns [];
              check_source := λ (src : string) section,
                Returns [ {| mc_section := Some section; mc_fname := None;
                             mc_line := None |} ];
              check_deps := λ (_ : unit), Returns [] |} in
  let source := λ _ : Recipe, SourceList string ["a.tar.gz"; "b.tar.gz"] in
  let calls := [ {| mc_section := Some "source/0"; mc_fname := None; mc_line := None |};
                 {| mc_section := Some "source/1"; mc_fname := None; mc_line := None |} ] in
  run_hooks string unit h source (λ _, tt) Sample.recipe = Returns calls
  ∧ ∃ general groups depends,
      check_recipe _ _ h Sample.recipe = Returns general
      ∧ Forall2 (λ s group, check_source _ _ h s.1 s.2 = Returns group)
                (source_sections string (source Sample.recipe)) groups
      ∧ check_deps _ _ h tt = Returns depends
      ∧ calls = general ++ concat groups ++ depends.
Proof.
  intros h source calls.
  assert (Hrun : run_hooks string unit h source (λ _, tt) Sample.recipe = Returns calls)
    by (vm_compute; reflexivity).
  split; [exact Hrun|].
  exact (proj2 (proj2 (proj2 (proj2
    (check_source_called_per_source h source (λ _, tt) Sample.recipe)))) calls Hrun).
Defined.
